(** * wow-version-bumper: a shallow embedding and its verified properties

    The development follows the TypeScript sources of the repository:

    - [src/toc-manager.ts]     the TOC catalogue, [tocPattern],
                               [updateVersionInContent], [listAddons];
    - [src/version-manager.ts] [getNextVersion], [showCurrentVersions];
    - [src/git-manager.ts]     [createGitTag], [runCommandInDir];
    - [src/version-bumper.ts]  [bumpVersion], [updateFiles];
    - [src/cli.ts]             [parseBumpArgs], [run].

    JavaScript strings are sequences of UTF-16 code units, numbers are
    IEEE 754 binary64 values, and every effect of the program (console,
    file writes, spawned commands, process exit) is threaded explicitly
    through a [World]. *)

From Stdlib Require Import Ascii String.
From Stdlib Require Import List Bool Arith ZArith NArith Lia.
From Stdlib Require Import Floats.SpecFloat.
From Stdlib Require Import Permutation.
From Stdlib Require DecimalFacts DecimalN.
Import ListNotations.

Set Implicit Arguments.

(* ================================================================= *)
(** * JavaScript strings *)

(** A string is the list of its UTF-16 code units. *)
Definition char := N.
Definition jsstring := list char.

(** [js "text"] is the string whose code units are the bytes of an ASCII
    literal; it is only used to write the literals of the source. *)
Definition js (s : string) : jsstring :=
  map N_of_ascii (list_ascii_of_string s).
Arguments js s%_string.

Definition char_eqb (a b : char) : bool := N.eqb a b.

Fixpoint str_eqb (a b : jsstring) : bool :=
  match a, b with
  | [], [] => true
  | x :: a', y :: b' => char_eqb x y && str_eqb a' b'
  | _, _ => false
  end.

(** [strip_prefix p s] is [Some t] when [s = p ++ t]
    (the test behind [String.prototype.startsWith]). *)
Fixpoint strip_prefix (p s : jsstring) : option jsstring :=
  match p with
  | [] => Some s
  | x :: p' =>
      match s with
      | [] => None
      | y :: s' => if char_eqb x y then strip_prefix p' s' else None
      end
  end.

Definition startsWith (s p : jsstring) : bool :=
  match strip_prefix p s with Some _ => true | None => false end.

(** [span f s] splits [s] after its longest prefix satisfying [f]. *)
Fixpoint span (f : char -> bool) (s : jsstring) : jsstring * jsstring :=
  match s with
  | [] => ([], [])
  | c :: s' =>
      if f c then let (a, b) := span f s' in (c :: a, b) else ([], s)
  end.

(** ECMAScript LineTerminator: LF, CR, LS (U+2028), PS (U+2029). *)
Definition is_line_terminator (c : char) : bool :=
  (c =? 10)%N || (c =? 13)%N || (c =? 8232)%N || (c =? 8233)%N.

Definition CR : char := 13%N.
Definition LF : char := 10%N.
Definition DOLLAR : char := 36%N.
Definition DOT : char := 46%N.
Definition SPACE : char := 32%N.

(* ================================================================= *)
(** * Regular expressions: [tocPattern]

    [private readonly tocPattern = /^## Version: (.+)$/m;]

    The pattern is embedded as a sequence of nodes and run by a
    backtracking matcher that follows the ECMAScript semantics of the
    constructs the pattern uses: [^] and [$] under the [m] flag, literal
    characters, and a capturing group around a greedy [.+]. *)

Inductive Node :=
| LineStart              (* ^ with the m flag *)
| Lit (c : char)         (* a literal character *)
| CaptureDotPlus         (* (.+) greedy, capturing *)
| LineEnd.               (* $ with the m flag *)

Definition Pattern := list Node.

Definition tocPrefix : jsstring := js "## Version: ".

Definition tocPattern : Pattern :=
  LineStart :: map Lit tocPrefix ++ [CaptureDotPlus; LineEnd].

(** Result of a successful [exec]: the text before the match, the whole
    match, the capture groups, and the text after the match. *)
Record Match := {
  m_before : jsstring;
  m_matched : jsstring;
  m_captures : list jsstring;
  m_after : jsstring
}.

(** The matcher state at a position is the character just before the
    position ([None] at the start of the input) and the rest of the input.
    [match_nodes p prev s] returns, on success, the captures and the
    unconsumed input. *)

(** Greedy [.*] with backtracking: take one more character if possible
    and prefer the longer alternative, else hand over to the
    continuation [k] (which receives the characters consumed so far in
    reverse, the previous character, and the rest). *)
Fixpoint dot_star (A : Type)
    (k : jsstring -> option char -> jsstring -> option A)
    (acc : jsstring) (prev : option char) (s : jsstring) : option A :=
  match s with
  | c :: s' =>
      if is_line_terminator c then k acc prev s
      else
        match dot_star k (c :: acc) (Some c) s' with
        | Some r => Some r
        | None => k acc prev s
        end
  | [] => k acc prev s
  end.

(** Greedy [.+]: one mandatory character, then [.*]. *)
Definition dot_plus (A : Type)
    (k : jsstring -> option char -> jsstring -> option A)
    (s : jsstring) : option A :=
  match s with
  | c :: s' =>
      if is_line_terminator c then None else dot_star k [c] (Some c) s'
  | [] => None
  end.

Definition at_line_start (prev : option char) : bool :=
  match prev with
  | None => true
  | Some c => is_line_terminator c
  end.

Definition at_line_end (s : jsstring) : bool :=
  match s with
  | [] => true
  | c :: _ => is_line_terminator c
  end.

Fixpoint match_nodes (p : Pattern) (prev : option char) (s : jsstring)
    : option (list jsstring * jsstring) :=
  match p with
  | [] => Some ([], s)
  | LineStart :: p' =>
      if at_line_start prev then match_nodes p' prev s else None
  | LineEnd :: p' =>
      if at_line_end s then match_nodes p' prev s else None
  | Lit c :: p' =>
      match s with
      | d :: s' => if char_eqb c d then match_nodes p' (Some d) s' else None
      | [] => None
      end
  | CaptureDotPlus :: p' =>
      dot_plus
        (fun acc prev' rest =>
           match match_nodes p' prev' rest with
           | Some (caps, rest') => Some (rev acc :: caps, rest')
           | None => None
           end)
        s
  end.


(** [exec_from p before prev s] tries the pattern at every position of
    [s] from left to right ([before] is the text already skipped, in
    reverse); this is [RegExp.prototype.exec] for a pattern without the
    [g] and [y] flags. *)
Fixpoint exec_from (p : Pattern) (before : jsstring) (prev : option char)
    (s : jsstring) : option Match :=
  match match_nodes p prev s with
  | Some (caps, rest) =>
      Some {| m_before := rev before;
              m_matched := firstn (length s - length rest) s;
              m_captures := caps;
              m_after := rest |}
  | None =>
      match s with
      | [] => None
      | c :: s' => exec_from p (c :: before) (Some c) s'
      end
  end.

Definition exec (p : Pattern) (s : jsstring) : option Match :=
  exec_from p [] None s.

(* ================================================================= *)
(** * [String.prototype.replace] with a string replacement *)

Definition is_digit (c : char) : bool := (48 <=? c)%N && (c <=? 57)%N.
Definition digit_value (c : char) : N := (c - 48)%N.

(** The capture with 1-based index [i], when there is one. *)
Definition capture_at (caps : list jsstring) (i : N) : option jsstring :=
  if (1 <=? i)%N && (i <=? N.of_nat (length caps))%N
  then nth_error caps (N.to_nat i - 1)
  else None.

(** ECMAScript GetSubstitution (no named groups): expands [$$], [$&],
    [$`], [$'], [$n] and [$nn] in the replacement template; every other
    character, and every [$] that starts none of these, is copied. *)
Fixpoint GetSubstitution (m : Match) (template : jsstring) : jsstring :=
  match template with
  | [] => []
  | c :: t1 =>
      if negb (char_eqb c DOLLAR) then c :: GetSubstitution m t1
      else
        match t1 with
        | [] => [c]
        | d :: t2 =>
            if char_eqb d 36%N then DOLLAR :: GetSubstitution m t2
            else if char_eqb d 38%N then m_matched m ++ GetSubstitution m t2
            else if char_eqb d 96%N then m_before m ++ GetSubstitution m t2
            else if char_eqb d 39%N then m_after m ++ GetSubstitution m t2
            else if is_digit d then
              let one_digit :=
                match capture_at (m_captures m) (digit_value d) with
                | Some cap => cap ++ GetSubstitution m t2
                | None => c :: d :: GetSubstitution m t2
                end in
              match t2 with
              | d2 :: t3 =>
                  if is_digit d2 then
                    let index := (10 * digit_value d + digit_value d2)%N in
                    if (N.of_nat (length (m_captures m)) <? index)%N
                    then one_digit
                    else
                      match capture_at (m_captures m) index with
                      | Some cap => cap ++ GetSubstitution m t3
                      | None => c :: d :: d2 :: GetSubstitution m t3
                      end
                  else one_digit
              | [] => one_digit
              end
            else c :: GetSubstitution m t1
        end
  end.

(** [str.replace(pattern, template)] for a pattern without the [g] flag:
    only the first match is replaced; without a match the string is
    returned as it is. *)
Definition replace (s : jsstring) (p : Pattern) (template : jsstring)
    : jsstring :=
  match exec p s with
  | None => s
  | Some m => m_before m ++ GetSubstitution m template ++ m_after m
  end.

(* ================================================================= *)
(** * [src/types.ts] *)

Record TocFile := {
  path : jsstring;
  content : jsstring;
  version : jsstring;
  addonName : jsstring
}.

(** ["major" | "minor" | "patch"] *)
Inductive BumpType := Major | Minor | Patch.

(** An optional argument or property ([undefined] when absent). *)
Definition optional := option jsstring.

Record VersionBumpOptions := {
  newVersion : jsstring;
  dryRun : bool;
  targetAddon : optional;
  bumpType : BumpType;
  commitMessage : jsstring;
  verbose : bool
}.

Record Config := {
  whitelistedAddons : list jsstring;
  addonsDirectory : jsstring
}.

(** What [JSON.parse] returns for [config.json], as the program uses it.
    The value is cast to [Config] without a check.  It conforms when
    [whitelistedAddons] can be spread into an array (whose strings are
    the whitelist) and [addonsDirectory] is a string.  Otherwise the
    first of [this.config.addonsDirectory] (on [null]), the spread
    [[...this.config.whitelistedAddons]] (on a value that is not
    iterable) and [Deno.readDirSync(addonsDirectory)] (on a value that
    is not a path) throws a [TypeError], with the message given. *)
Inductive ConfigValue :=
| Conforming (config : Config)
| NonConforming (message : jsstring).

(** Truthiness of a string-or-undefined value: [undefined] and the empty
    string are falsy. *)
Definition truthy (o : optional) : bool :=
  match o with
  | Some (_ :: _) => true
  | _ => false
  end.

(* ================================================================= *)
(** * [src/toc-manager.ts]: the pure part *)

(** [public updateVersionInContent(content, newVersion)]:
    [content.replace(this.tocPattern, `## Version: ${newVersion}`)]. *)
Definition updateVersionInContent (content newVersion : jsstring)
    : jsstring :=
  replace content tocPattern (tocPrefix ++ newVersion).

(** [match[1]] of a match: the text of the first capture group. *)
Definition capture1 (m : Match) : jsstring := nth 0 (m_captures m) [].

(* ================================================================= *)
(** * JavaScript numbers

    A Number is an IEEE 754 binary64 value, here a [spec_float] of the
    standard library with precision 53 and maximal exponent 1024. *)

Definition number := spec_float.

Definition prec : Z := 53.
Definition emax : Z := 1024.

(** The number [+0], the literal [0] of the source. *)
Definition zero : number := S754_zero false.

(** The binary64 value nearest to an integer (ties to even). *)
Definition number_of_Z (n : Z) : number :=
  binary_normalize prec emax n 0 false.

(** The binary64 value nearest to [(-1)^neg * m * 10^e]. *)
Definition round_decimal (neg : bool) (m : N) (e : Z) : number :=
  match m with
  | N0 => S754_zero neg
  | Npos p =>
      if (0 <=? e)%Z
      then number_of_Z ((if neg then Zneg p else Zpos p) * 10 ^ e)
      else SFdiv prec emax (S754_finite neg p 0)
                           (S754_finite false (Z.to_pos (10 ^ (- e))) 0)
  end.

(** The relational operators [<] and [>] on numbers; both are false when
    an operand is NaN. *)
Definition num_lt (a b : number) : bool := SFltb a b.
Definition num_gt (a b : number) : bool := SFltb b a.

(** A number is falsy when it is NaN, [+0] or [-0]. *)
Definition falsy (x : number) : bool :=
  match x with
  | S754_nan | S754_zero _ => true
  | _ => false
  end.

(** [x || 0] for [x] a number or [undefined]. *)
Definition or_zero (x : option number) : number :=
  match x with
  | Some v => if falsy v then zero else v
  | None => zero
  end.

(** ** [Number(string)]: ECMAScript StringToNumber *)

(** StrWhiteSpaceChar: WhiteSpace (TAB, VT, FF, ZWNBSP and the Unicode
    space separators) and LineTerminator. *)
Definition is_white_space (c : char) : bool :=
  ((9 <=? c) && (c <=? 13))%N || (c =? 32)%N || (c =? 160)%N ||
  (c =? 5760)%N || ((8192 <=? c) && (c <=? 8202))%N ||
  (c =? 8232)%N || (c =? 8233)%N || (c =? 8239)%N || (c =? 8287)%N ||
  (c =? 12288)%N || (c =? 65279)%N.

Fixpoint trim_start (s : jsstring) : jsstring :=
  match s with
  | c :: s' => if is_white_space c then trim_start s' else s
  | [] => []
  end.

Definition trim (s : jsstring) : jsstring :=
  rev (trim_start (rev (trim_start s))).

Definition is_empty (s : jsstring) : bool :=
  match s with [] => true | _ => false end.

(** [a.length === 0] *)
Definition is_empty_list {A : Type} (l : list A) : bool :=
  match l with [] => true | _ => false end.

(** The value of a digit sequence in a base. *)
Definition digits_value (base : N) (digit : char -> N) (ds : jsstring) : N :=
  fold_left (fun acc c => (base * acc + digit c)%N) ds 0%N.

Definition decimal_value : jsstring -> N := digits_value 10 digit_value.

Definition is_hex_digit (c : char) : bool :=
  is_digit c || ((97 <=? c) && (c <=? 102))%N || ((65 <=? c) && (c <=? 70))%N.
Definition hex_value (c : char) : N :=
  if is_digit c then (c - 48)%N
  else if (97 <=? c)%N then (c - 87)%N else (c - 55)%N.
Definition is_octal_digit (c : char) : bool := ((48 <=? c) && (c <=? 55))%N.
Definition is_binary_digit (c : char) : bool := ((c =? 48) || (c =? 49))%N.

(** NonDecimalIntegerLiteral: [0x], [0o], [0b] (either case) followed by
    at least one digit of the base. *)
Definition NonDecimalIntegerLiteral (s : jsstring) : option N :=
  match s with
  | zero_digit :: x :: ds =>
      let lit (ok : char -> bool) (base : N) (digit : char -> N) :=
        if negb (is_empty ds) && forallb ok ds
        then Some (digits_value base digit ds) else None in
      if negb (zero_digit =? 48)%N then None
      else if ((x =? 120) || (x =? 88))%N then lit is_hex_digit 16%N hex_value
      else if ((x =? 111) || (x =? 79))%N
           then lit is_octal_digit 8%N digit_value
      else if ((x =? 98) || (x =? 66))%N
           then lit is_binary_digit 2%N digit_value
      else None
  | _ => None
  end.

(** ExponentPart, up to the end of the literal: nothing, or [e]/[E], an
    optional sign, and at least one decimal digit. *)
Definition ExponentPart (s : jsstring) : option Z :=
  match s with
  | [] => Some 0%Z
  | c :: s1 =>
      if ((c =? 101) || (c =? 69))%N then
        let '(neg, ds) :=
          match s1 with
          | d :: s2 =>
              if (d =? 43)%N then (false, s2)
              else if (d =? 45)%N then (true, s2)
              else (false, s1)
          | [] => (false, s1)
          end in
        if negb (is_empty ds) && forallb is_digit ds
        then Some (if neg then (- Z.of_N (decimal_value ds))%Z
                   else Z.of_N (decimal_value ds))
        else None
      else None
  end.

(** The mathematical value of a StrUnsignedDecimalLiteral. *)
Inductive MV :=
| MV_infinity
| MV_decimal (m : N) (e : Z).    (* m * 10^e *)

Definition StrUnsignedDecimalLiteral (s : jsstring) : option MV :=
  if str_eqb s (js "Infinity") then Some MV_infinity
  else
    let (ip, r1) := span is_digit s in
    let integer_only :=
      if is_empty ip then None
      else
        match ExponentPart r1 with
        | Some e => Some (MV_decimal (decimal_value ip) e)
        | None => None
        end in
    match r1 with
    | point :: r2 =>
        if char_eqb point DOT then
          let (fp, r3) := span is_digit r2 in
          if is_empty ip && is_empty fp then None
          else
            match ExponentPart r3 with
            | Some e =>
                Some (MV_decimal (decimal_value (ip ++ fp))
                                 (e - Z.of_nat (length fp)))
            | None => None
            end
        else integer_only
    | [] => integer_only
    end.

(** [Number(s)]: white space is trimmed; the empty string is [+0]; a
    string that is no StringNumericLiteral is NaN. *)
Definition Number (s : jsstring) : number :=
  match trim s with
  | [] => zero
  | t =>
      match NonDecimalIntegerLiteral t with
      | Some n => number_of_Z (Z.of_N n)
      | None =>
          let '(neg, u) :=
            match t with
            | c :: t' =>
                if (c =? 43)%N then (false, t')
                else if (c =? 45)%N then (true, t')
                else (false, t)
            | [] => (false, t)
            end in
          match StrUnsignedDecimalLiteral u with
          | Some MV_infinity => S754_infinity neg
          | Some (MV_decimal m e) => round_decimal neg m e
          | None => S754_nan
          end
      end
  end.

(** [s.split(sep)] for a one-character separator: the pieces of [s]
    between the separators; never empty. *)
Fixpoint split_on (sep : char) (s : jsstring) : list jsstring :=
  match s with
  | [] => [[]]
  | c :: s' =>
      if char_eqb c sep then [] :: split_on sep s'
      else
        match split_on sep s' with
        | h :: t => (c :: h) :: t
        | [] => [[c]]
        end
  end.

(** [s.split(".")] *)
Definition split_dot : jsstring -> list jsstring := split_on DOT.

(** The decimal digits of a natural number ([Number.prototype.toString]
    and [toFixed(0)] on a non-negative integer below [10^21]). *)
Fixpoint uint_chars (u : Decimal.uint) : jsstring :=
  match u with
  | Decimal.Nil => []
  | Decimal.D0 u' => 48%N :: uint_chars u'
  | Decimal.D1 u' => 49%N :: uint_chars u'
  | Decimal.D2 u' => 50%N :: uint_chars u'
  | Decimal.D3 u' => 51%N :: uint_chars u'
  | Decimal.D4 u' => 52%N :: uint_chars u'
  | Decimal.D5 u' => 53%N :: uint_chars u'
  | Decimal.D6 u' => 54%N :: uint_chars u'
  | Decimal.D7 u' => 55%N :: uint_chars u'
  | Decimal.D8 u' => 56%N :: uint_chars u'
  | Decimal.D9 u' => 57%N :: uint_chars u'
  end.

Definition decimal_string (n : N) : jsstring := uint_chars (N.to_uint n).

(** [a.join(sep)] *)
Fixpoint join (sep : jsstring) (l : list jsstring) : jsstring :=
  match l with
  | [] => []
  | [x] => x
  | x :: l' => x ++ sep ++ join sep l'
  end.

(** [Array.prototype.includes] on strings. *)
Definition includes (l : list jsstring) (x : jsstring) : bool :=
  existsb (str_eqb x) l.

Definition endsWith (s suffix : jsstring) : bool :=
  startsWith (rev s) (rev suffix).

(** [s.replace(pattern, "")] for a string pattern: the first occurrence of
    [pattern] is removed. *)
Fixpoint remove_first (pattern s : jsstring) : jsstring :=
  match strip_prefix pattern s with
  | Some rest => rest
  | None =>
      match s with
      | [] => []
      | c :: s' => c :: remove_first pattern s'
      end
  end.

(* ================================================================= *)
(** * The [@std/semver] library

    [parse], [increment] and [format] are imported from the external
    package [@std/semver]; they are modelled here after the package:
    [parse] accepts exactly the strings of the SemVer 2.0.0 grammar (with
    an optional leading [v], surrounding white space trimmed, at most 256
    characters, numbers up to [Number.MAX_SAFE_INTEGER]) and throws a
    [TypeError] on every other string. *)
Module Semver.

Record SemVer := {
  major : N;
  minor : N;
  patch : N;
  prerelease : list jsstring;
  build : list jsstring
}.

Definition MAX_LENGTH : nat := 256.
Definition MAX_SAFE_INTEGER : N := 9007199254740991.

(** [0|[1-9]\d*] with a value that is a safe integer. *)
Definition numeric_identifier (s : jsstring) : option N :=
  match s with
  | [] => None
  | c :: rest =>
      if forallb is_digit s && ((negb (c =? 48)%N) || is_empty rest)
      then
        let n := decimal_value s in
        if (n <=? MAX_SAFE_INTEGER)%N then Some n else None
      else None
  end.

Definition is_identifier_char (c : char) : bool :=
  is_digit c || ((97 <=? c) && (c <=? 122))%N ||
  ((65 <=? c) && (c <=? 90))%N || (c =? 45)%N.

(** A build identifier: [[0-9A-Za-z-]+]. *)
Definition build_identifier (s : jsstring) : bool :=
  negb (is_empty s) && forallb is_identifier_char s.

(** A prerelease identifier: a numeric identifier without leading
    zeros, or an identifier with a letter or hyphen. *)
Definition prerelease_identifier (s : jsstring) : bool :=
  build_identifier s &&
  (negb (forallb is_digit s) ||
   match s with
   | c :: rest => negb (c =? 48)%N || is_empty rest
   | [] => false
   end).

(** [cut c s] splits [s] at the first [c], if there is one. *)
Fixpoint cut (c : char) (s : jsstring) : jsstring * option jsstring :=
  match s with
  | [] => ([], None)
  | x :: s' =>
      if char_eqb x c then ([], Some s')
      else let (a, b) := cut c s' in (x :: a, b)
  end.

Definition identifiers (ok : jsstring -> bool) (part : option jsstring)
    : option (list jsstring) :=
  match part with
  | None => Some []
  | Some s =>
      let ids := split_dot s in
      if forallb ok ids then Some ids else None
  end.

(** [parse(value)]; [None] stands for the [TypeError]. *)
Definition parse (value : jsstring) : option SemVer :=
  if (MAX_LENGTH <? length value)%nat then None
  else
    let t := trim value in
    let t := match t with
             | c :: t' => if (c =? 118)%N then t' else t     (* v? *)
             | [] => t
             end in
    let (main, build_part) := cut 43%N t in
    let (core, pre_part) := cut 45%N main in
    match split_dot core with
    | [a; b; c] =>
        match numeric_identifier a, numeric_identifier b,
              numeric_identifier c,
              identifiers prerelease_identifier pre_part,
              identifiers build_identifier build_part with
        | Some ma, Some mi, Some pa, Some pre, Some bld =>
            Some {| major := ma; minor := mi; patch := pa;
                    prerelease := pre; build := bld |}
        | _, _, _, _, _ => None
        end
    | _ => None
    end.

(** [increment(version, release)] for the three release types the
    program uses; a prerelease version is bumped to its own release. *)
Definition increment (v : SemVer) (release : BumpType) : SemVer :=
  let has_pre := negb (match prerelease v with [] => true | _ => false end) in
  match release with
  | Major =>
      {| major := if negb (minor v =? 0)%N || negb (patch v =? 0)%N
                     || negb has_pre
                  then (major v + 1)%N else major v;
         minor := 0; patch := 0; prerelease := []; build := build v |}
  | Minor =>
      {| major := major v;
         minor := if negb (patch v =? 0)%N || negb has_pre
                  then (minor v + 1)%N else minor v;
         patch := 0; prerelease := []; build := build v |}
  | Patch =>
      {| major := major v; minor := minor v;
         patch := if negb has_pre then (patch v + 1)%N else patch v;
         prerelease := []; build := build v |}
  end.

(** [format(version)] *)
Definition format (v : SemVer) : jsstring :=
  let primary :=
    decimal_string (major v) ++ [DOT] ++ decimal_string (minor v)
      ++ [DOT] ++ decimal_string (patch v) in
  let pre := join [DOT] (prerelease v) in
  let bld := join [DOT] (build v) in
  let release := if is_empty pre then primary else primary ++ [45%N] ++ pre in
  if is_empty bld then release else release ++ [43%N] ++ bld.

End Semver.

(* ================================================================= *)
(** * Effects

    The program prints to the console, reads and writes files, spawns
    [git] and may end the process; all of it is explicit here. *)

(** The errors the program can see, with what their [message] is. *)
Inductive Error :=
| SystemError (message : jsstring)
    (* thrown by the runtime: file system, process spawning, and the
       type errors of values that are not what the code takes them for *)
| CommandFailed (command stderr : jsstring)
    (* `Command failed: ${command}\nError: ${error}` *)
| InvalidVersion (value : jsstring)
    (* the TypeError of @std/semver's parse *)
| CouldNotDetermineVersion
    (* "Could not determine current version to increment" *)
| InvalidBumpArguments.
    (* "Invalid bump command arguments" *)

(** How a computation ends. *)
Inductive Outcome (A : Type) :=
| Returned (a : A)          (* normal completion *)
| Thrown (e : Error)        (* an exception that was not caught *)
| Exited (code : Z).        (* Deno.exit(code) *)
Arguments Returned {A} a.
Arguments Thrown {A} e.
Arguments Exited {A} code.

(** The result of a call into the runtime that may throw. *)
Inductive Try (A : Type) :=
| Ok (a : A)
| Err (message : jsstring).
Arguments Ok {A} a.
Arguments Err {A} message.

Inductive Channel := log | warn | error.

(** The lines the program prints, one constructor for each [console]
    call of the source (the text of the call is given with it). *)
Inductive Line :=
(* version-manager.ts, getNextVersion *)
| NoTocFilesFor (addon : jsstring)
    (* `No .toc files found for addon: ${targetAddon}` *)
| CurrentHighest (addon : optional) (original : jsstring)
    (* `Current highest version [for ${targetAddon}]: ${highest.original}` *)
| NextVersionWillBe (addon : optional) (next : jsstring) (bump : BumpType)
    (* `Next version [for ${targetAddon}] will be: ${nextVersion} (${bumpType} bump)` *)
(* version-bumper.ts, bumpVersion *)
| BumpingAddon (addon version : jsstring)
    (* `\nBumping ${options.targetAddon} to version: ${options.newVersion}` *)
| Rule (width : nat)
    (* "=".repeat(width) *)
| BumpingAll (version : jsstring)
    (* `\nBumping all addons to version: ${options.newVersion}` *)
| BumpingIndividually
    (* `\nBumping all addons to individual versions:` *)
| AddonHeader (addon : jsstring)
    (* `\n<package> ${addonName}:` *)
| TagsForAll (dry : bool)
    (* "Would create git tags for all addons..." when dry, else
       "Creating git tags for all addons..." *)
| TagFor (dry : bool) (addon : jsstring)
    (* `${dry ? "Would create tag for" : "Creating tag for"} ${addonName}:` *)
(* version-bumper.ts, updateFiles *)
| DryRunMode
    (* "DRY RUN MODE - No files will be modified" *)
| WouldUpdate (relativePath old new : jsstring)
    (* `  ${relativePath}: ${file.version} -> ${options.newVersion}` *)
| Updated (relativePath old new : jsstring)
    (* `  Updated ${relativePath}: ${file.version} -> ${options.newVersion}` *)
| FailedToUpdate (relativePath : jsstring) (e : Error)
    (* `  Failed to update ${relativePath}: ${error.message}` *)
(* git-manager.ts, createGitTag *)
| WouldCreateTag (tagName : jsstring)
    (* `\nWould create tag: ${tagName}` *)
| WouldCommit (message : jsstring)
    (* `Would commit with message: ${...}` *)
| WouldPush
    (* `Would push changes and tag to remote` *)
| Committing
    (* "\nCommitting changes..." *)
| CreatingTag (tagName : jsstring)
    (* `\nCreating tag: ${tagName}` *)
| Pushing
    (* "Pushing changes and tag..." *)
| Completed
    (* "Version bump completed and pushed!" *)
| ReleaseNotice (version : jsstring)
    (* `\nGitHub Actions will now create a release for version ${version}` *)
| GitFailed (e : Error)
    (* `Git operations failed: ${error.message}` *)
(* config.ts and toc-manager.ts, start-up *)
| LoadedConfiguration
    (* `Loaded configuration` *)
| ConfigDefaults (e : Error)
    (* `Could not load config.json, using defaults: ${error.message}` *)
| WhitelistedAddons (dirs : list jsstring)
    (* `Whitelisted addons: ${addonDirs.join(", ")}` *)
| ExcludedAddons (count : nat)
    (* `Found ${excludedDirs.length} excluded addons (not shown)` *)
| FoundTocFiles (addonDir : jsstring) (files : list jsstring)
    (* `Found .toc files in ${addonDir}: ${tocFiles.join(", ")}` *)
| NoVersionFound (filePath : jsstring)
    (* `Warning: No version found in ${filePath}` *)
| CouldNotRead (filePath : jsstring) (e : Error)
    (* `Warning: Could not read ${filePath}: ${error.message}` *)
| CouldNotReadDirectory (addonPath : jsstring) (e : Error)
    (* `Warning: Could not read directory ${addonPath}: ${error.message}` *)
| ErrorReadingAddons (e : Error)
    (* `Error reading addons directory: ${error.message}` *)
(* cli.ts *)
| NoVersionProvided
    (* "No version provided, auto-incrementing highest version..." *)
| NoVersionForAddon
    (* "No version provided for specific addon, auto-incrementing..." *)
| CouldNotDetermine
    (* "Could not determine current version to increment" *)
| AutoIncrementing (version : jsstring)
    (* `Auto-incrementing to: ${newVersion}` *)
| BumpingAllAddons
    (* "Bumping all addons to individual versions..." *)
| NoAddonSpecified
    (* "Error: No addon specified. Use 'all' to bump all addons or
       specify an addon name." *)
| Text (line : jsstring)
    (* a literal line *)
| UnknownCommand
    (* "Unknown command. Use 'show', 'list', 'whitelist', 'config', or
       'bump'" *)
| ErrorLine (e : Error)
    (* `Error: ${error.message}` *)
(* the read-only reports: each stands for the block of console.log calls
   of the method, which reads the catalogue and the configuration only *)
| HelpScreen                                   (* CLI.showHelp *)
| VersionsReport (addon : optional)            (* showCurrentVersions *)
| AddonsReport                                 (* listAddons *)
| WhitelistReport                              (* showWhitelist *)
| ConfigReport.                                (* showConfig *)

(** A spawned process: [new Deno.Command(program, { args, cwd })]. *)
Record Command := {
  program : jsstring;
  args : list jsstring;
  cwd : jsstring
}.

(** What [process.output()] resolves to, with both streams decoded. *)
Record CommandOutput := {
  code : Z;
  stdout : jsstring;
  stderr : jsstring
}.

Record DirEntry := {
  name : jsstring;
  isFile : bool;
  isDirectory : bool
}.

(** The part of the world the program changes or appends to. *)
Record World := {
  console : list (Channel * Line);        (* oldest line first *)
  files : jsstring -> option jsstring;    (* the text of the files on disk *)
  writes : list (jsstring * jsstring);    (* completed writeTextFileSync calls *)
  spawned : list Command                  (* processes run, oldest first *)
}.

(** The part of the world the program only observes. *)
Record Env := {
  config_json : Try ConfigValue;
    (* JSON.parse(Deno.readTextFileSync("config.json")): [Err] when the
       file cannot be read or is not JSON *)
  read_dir : jsstring -> Try (list DirEntry);
    (* Array.from(Deno.readDirSync(path)) *)
  read_error : jsstring -> jsstring;
    (* the message of the error readTextFileSync throws on a path
       without readable text *)
  write_error : list (jsstring * jsstring) -> jsstring -> option jsstring;
    (* the message of the error writeTextFileSync throws on a path, if it
       does, after the writes made so far *)
  current_dir : Try jsstring;
    (* Deno.cwd() *)
  run_process : list Command -> (jsstring -> option jsstring) ->
                Command -> Try CommandOutput
    (* how a spawned process ends, after the processes run so far and with
       the files as they are; [Err] when spawning throws *)
}.

(** Computations: a state and exception monad over [World]. *)
Definition M (A : Type) : Type := World -> Outcome A * World.

Definition ret {A : Type} (a : A) : M A := fun w => (Returned a, w).

Definition bind {A B : Type} (m : M A) (k : A -> M B) : M B :=
  fun w =>
    match m w with
    | (Returned a, w') => k a w'
    | (Thrown e, w') => (Thrown e, w')
    | (Exited c, w') => (Exited c, w')
    end.

Definition throw {A : Type} (e : Error) : M A := fun w => (Thrown e, w).

(** [Deno.exit(code)]: nothing after it runs, no handler catches it. *)
Definition exit {A : Type} (c : Z) : M A := fun w => (Exited c, w).

(** [try { body } catch (error) { handler }] *)
Definition try_catch {A : Type} (body : M A) (handler : Error -> M A)
    : M A :=
  fun w =>
    match body w with
    | (Thrown e, w') => handler e w'
    | r => r
    end.

Declare Scope prog_scope.
Delimit Scope prog_scope with prog.
Notation "x <- m ;; k" := (bind m (fun x => k))
  (at level 61, m at next level, right associativity) : prog_scope.
Notation "m ;; k" := (bind m (fun _ => k))
  (at level 61, right associativity) : prog_scope.
Open Scope prog_scope.

Definition print (ch : Channel) (l : Line) : M unit :=
  fun w =>
    (Returned tt,
     {| console := console w ++ [(ch, l)]; files := files w;
        writes := writes w; spawned := spawned w |}).

(** Turns a runtime call that may throw into a computation. *)
Definition lift {A : Type} (t : Try A) : M A :=
  match t with
  | Ok a => ret a
  | Err msg => throw (SystemError msg)
  end.

(** [for (const x of l) body(x)] *)
Fixpoint for_each {A : Type} (l : list A) (body : A -> M unit) : M unit :=
  match l with
  | [] => ret tt
  | x :: l' => body x ;; for_each l' body
  end.

Definition when (b : bool) (m : M unit) : M unit :=
  if b then m else ret tt.

(* ================================================================= *)
(** * [src/version-manager.ts]: the comparison of [getNextVersion] *)

(** The objects built by [filesToCheck.map(...)]. *)
Module Parsed.
Record t := {
  major : number;
  minor : number;
  patch : number;
  original : jsstring;
  addonName : jsstring
}.
End Parsed.

(** [(file) => { const parts = file.version.split(".").map(Number);
                 return { major: parts[0] || 0, ... }; }] *)
Definition parse_parts (file : TocFile) : Parsed.t :=
  let parts := map Number (split_dot (version file)) in
  {| Parsed.major := or_zero (nth_error parts 0);
     Parsed.minor := or_zero (nth_error parts 1);
     Parsed.patch := or_zero (nth_error parts 2);
     Parsed.original := version file;
     Parsed.addonName := addonName file |}.

(** The callback of [versions.reduce]. *)
Definition higher (max current : Parsed.t) : Parsed.t :=
  if num_gt (Parsed.major current) (Parsed.major max) then current
  else if num_lt (Parsed.major current) (Parsed.major max) then max
  else if num_gt (Parsed.minor current) (Parsed.minor max) then current
  else if num_lt (Parsed.minor current) (Parsed.minor max) then max
  else if num_gt (Parsed.patch current) (Parsed.patch max) then current
  else max.

(** [a.reduce(f)] without an initial value; [None] on the empty array
    (where JavaScript throws a TypeError). *)
Definition reduce {A : Type} (f : A -> A -> A) (l : list A) : option A :=
  match l with
  | [] => None
  | x :: l' => Some (fold_left f l' x)
  end.

(** [const highest = versions.reduce(...)] over
    [versions = filesToCheck.map(...)]. *)
Definition highest (filesToCheck : list TocFile) : option Parsed.t :=
  reduce higher (map parse_parts filesToCheck).

(** [this.tocManager.getTocFilesForAddon(addonName)] *)
Definition getTocFilesForAddon (tocFiles : list TocFile)
    (addon : jsstring) : list TocFile :=
  filter (fun file => str_eqb (addonName file) addon) tocFiles.

(** [targetAddon ? getTocFilesForAddon(targetAddon) : allTocFiles] *)
Definition filesToCheck (tocFiles : list TocFile) (target : optional)
    : list TocFile :=
  match target with
  | Some (c :: a) => getTocFilesForAddon tocFiles (c :: a)
  | _ => tocFiles
  end.

(** [`Bump ${addonName} version to ${version}`] *)
Definition addon_bump_message (addon v : jsstring) : jsstring :=
  js "Bump " ++ addon ++ js " version to " ++ v.

(** [targetAddon ? `Bump ${targetAddon} version to ${version}`
                 : `Bump version to ${version}`] *)
Definition bump_message (target : optional) (v : jsstring) : jsstring :=
  match target with
  | Some (c :: a) => addon_bump_message (c :: a) v
  | _ => js "Bump version to " ++ v
  end.

(** [/^\d+\.\d+\.\d+$/.test(s)] *)
Definition is_explicit_version (s : jsstring) : bool :=
  match split_dot s with
  | [a; b; c] =>
      forallb (fun d => negb (is_empty d) && forallb is_digit d) [a; b; c]
  | _ => false
  end.

(** [parts.findIndex((arg) => arg === x)] *)
Fixpoint findIndex (x : jsstring) (l : list jsstring) : option nat :=
  match l with
  | [] => None
  | y :: l' =>
      if str_eqb y x then Some 0
      else match findIndex x l' with Some i => Some (S i) | None => None end
  end.

(** The groups of [bumpVersion]: a [Map] from addon name to its files, in
    insertion order. *)
Fixpoint group_add (groups : list (jsstring * list TocFile))
    (file : TocFile) : list (jsstring * list TocFile) :=
  match groups with
  | [] => [(addonName file, [file])]
  | (n, fs) :: g =>
      if str_eqb n (addonName file) then (n, fs ++ [file]) :: g
      else (n, fs) :: group_add g file
  end.

Definition addonGroups (allTocFiles : list TocFile)
    : list (jsstring * list TocFile) :=
  fold_left group_add allTocFiles [].

(** The exit status of the process for the outcome of [main]. *)
Definition exit_status (A : Type) (o : Outcome A) : Z :=
  match o with
  | Returned _ => 0
  | Thrown _ => 1
  | Exited c => c
  end.

(* ================================================================= *)
(** * The program *)

Section Program.

Variable env : Env.

(** ** The runtime *)

(** [Deno.readTextFileSync(path)] *)
Definition readTextFileSync (p : jsstring) : M jsstring :=
  fun w =>
    match files w p with
    | Some text => (Returned text, w)
    | None => (Thrown (SystemError (read_error env p)), w)
    end.

(** [Deno.writeTextFileSync(path, text)]: the call is recorded; the
    file has the new text unless the call throws. *)
Definition writeTextFileSync (p text : jsstring) : M unit :=
  fun w =>
    match write_error env (writes w) p with
    | Some msg =>
        (Thrown (SystemError msg),
         {| console := console w; files := files w;
            writes := writes w ++ [(p, text)]; spawned := spawned w |})
    | None =>
        (Returned tt,
         {| console := console w;
            files := fun q => if str_eqb q p then Some text else files w q;
            writes := writes w ++ [(p, text)]; spawned := spawned w |})
    end.

(** [await new Deno.Command(program, { args, cwd, ... }).output()]: the
    command is recorded, then it ends as the environment says. *)
Definition output (c : Command) : M CommandOutput :=
  fun w =>
    let w' := {| console := console w; files := files w;
                 writes := writes w; spawned := spawned w ++ [c] |} in
    match run_process env (spawned w) (files w) c with
    | Ok o => (Returned o, w')
    | Err msg => (Thrown (SystemError msg), w')
    end.

(** [for] loops that collect what each round pushes. *)
Fixpoint collect {A B : Type} (l : list A) (body : A -> M (list B))
    : M (list B) :=
  match l with
  | [] => ret []
  | x :: l' =>
      ys <- body x ;;
      zs <- collect l' body ;;
      ret (ys ++ zs)
  end.

(** ** [src/config.ts] *)

(** [ConfigManager.loadConfig]: the parsed value as it is, or the
    defaults when reading or parsing throws. *)
Definition loadConfig (verbose : bool) : M ConfigValue :=
  match config_json env with
  | Ok config =>
      when verbose (print log LoadedConfiguration) ;;
      ret config
  | Err msg =>
      print warn (ConfigDefaults (SystemError msg)) ;;
      ret (Conforming {| whitelistedAddons := [];
                         addonsDirectory := js "./addons" |})
  end.

(** [getAddonsDirectory()] and [getWhitelistedAddons()] on the value
    the [ConfigManager] holds, as a path and an array: a value that
    does not conform throws. *)
Definition read_config (value : ConfigValue) : M Config :=
  match value with
  | Conforming config => ret config
  | NonConforming message => throw (SystemError message)
  end.

(** ** [src/toc-manager.ts] *)

(** The body of [for (const tocFile of tocFiles)]: zero or one record
    is pushed. *)
Definition load_toc_file (addonDir addonPath tocFile : jsstring)
    : M (list TocFile) :=
  let filePath := addonPath ++ js "/" ++ tocFile in
  try_catch
    (content <- readTextFileSync filePath ;;
     match exec tocPattern content with
     | Some m =>
         ret [ {| path := filePath; content := content;
                  version := capture1 m; addonName := addonDir |} ]
     | None =>
         print warn (NoVersionFound filePath) ;;
         ret []
     end)
    (fun e => print warn (CouldNotRead filePath e) ;; ret []).

(** The body of [for (const addonDir of addonDirs)]. *)
Definition load_addon (addonsDirectory : jsstring) (verbose : bool)
    (addonDir : jsstring) : M (list TocFile) :=
  let addonPath := addonsDirectory ++ js "/" ++ addonDir in
  try_catch
    (entries <- lift (read_dir env addonPath) ;;
     let tocFiles :=
       map name
         (filter (fun e => isFile e && endsWith (name e) (js ".toc"))
                 entries) in
     when verbose (print log (FoundTocFiles addonDir tocFiles)) ;;
     collect tocFiles (load_toc_file addonDir addonPath))
    (fun e => print warn (CouldNotReadDirectory addonPath e) ;; ret []).

(** [TocManager.loadAllTocFiles] with the value its [configManager]
    holds: the records of [this.tocFiles]. *)
Definition loadAllTocFiles (value : ConfigValue) (verbose : bool)
    : M (list TocFile) :=
  try_catch
    (config <- read_config value ;;
     let addonsDirectory := addonsDirectory config in
     let whitelisted := whitelistedAddons config in
     entries <- lift (read_dir env addonsDirectory) ;;
     let allAddonDirs := map name (filter isDirectory entries) in
     let addonDirs := filter (includes whitelisted) allAddonDirs in
     let excludedDirs :=
       filter (fun dir => negb (includes whitelisted dir)) allAddonDirs in
     when verbose
       (print log (WhitelistedAddons addonDirs) ;;
        when (0 <? length excludedDirs)
          (print log (ExcludedAddons (length excludedDirs)))) ;;
     collect addonDirs (load_addon addonsDirectory verbose))
    (fun e => print error (ErrorReadingAddons e) ;; exit 1).

(** ** [src/version-manager.ts] *)

(** [VersionManager.getNextVersion(targetAddon, bumpType)] on the
    catalogue [tocFiles]; the result is the next version or [null]. *)
Definition getNextVersion (tocFiles : list TocFile)
    (target : optional) (bump : BumpType) : M optional :=
  let allTocFiles := tocFiles in
  if is_empty_list allTocFiles then ret None
  else
    let filesToCheck := filesToCheck tocFiles target in
    if is_empty_list filesToCheck then
      print error (NoTocFilesFor (match target with
                                  | Some a => a | None => [] end)) ;;
      ret None
    else
      match highest filesToCheck with
      | None =>
          (* reduce on an empty array *)
          throw (SystemError
                   (js "Reduce of empty array with no initial value"))
      | Some highest =>
          match Semver.parse (Parsed.original highest) with
          | None => throw (InvalidVersion (Parsed.original highest))
          | Some currentSemver =>
              let nextSemver := Semver.increment currentSemver bump in
              let nextVersion := Semver.format nextSemver in
              let shown := if truthy target then target else None in
              print log (CurrentHighest shown (Parsed.original highest)) ;;
              print log (NextVersionWillBe shown nextVersion bump) ;;
              ret (Some nextVersion)
          end
      end.

(** ** [src/git-manager.ts] *)

Definition nonzero (c : Z) : bool := negb (c =? 0)%Z.

(** [GitManager.runCommandInDir(command, workingDir)] *)
Definition runCommandInDir (command workingDir : jsstring) : M jsstring :=
  let plain :=
    let cmd := split_on SPACE command in
    o <- output {| program := hd [] cmd; args := tl cmd;
                   cwd := workingDir |} ;;
    if nonzero (code o)
    then throw (CommandFailed command (stderr o))
    else ret (stdout o) in
  if startsWith command (js "git commit") then
    let parts := split_on SPACE command in
    match findIndex (js "-m") parts with
    | Some messageIndex =>
        if messageIndex + 1 <? length parts then
          let message := join [SPACE] (skipn (messageIndex + 1) parts) in
          o <- output {| program := js "git";
                         args := [js "commit"; js "-m"; message];
                         cwd := workingDir |} ;;
          if nonzero (code o)
          then throw (CommandFailed command (stderr o))
          else ret (stdout o)
        else plain
    | None => plain
    end
  else plain.

(** [commitMessage || (targetAddon ? `Bump ${targetAddon} version to
    ${version}` : `Bump version to ${version}`)] *)
Definition commit_message (commitMessage target : optional)
    (version : jsstring) : jsstring :=
  match commitMessage with
  | Some (c :: m) => c :: m
  | _ => bump_message target version
  end.

(** [GitManager.createGitTag(version, commitMessage, targetAddon,
    dryRun)], with the configuration of its [configManager]. *)
Definition createGitTag (config : Config) (version : jsstring)
    (commitMessage target : optional) (dryRun : bool) : M unit :=
  let tagName := version in
  if dryRun then
    print log (WouldCreateTag tagName) ;;
    print log (WouldCommit (commit_message commitMessage target version)) ;;
    print log WouldPush
  else
    try_catch
      (workingDir <-
         match target with
         | Some (c :: a) => ret (addonsDirectory config ++ js "/" ++ c :: a)
         | _ => lift (current_dir env)
         end ;;
       status <- runCommandInDir (js "git status --porcelain") workingDir ;;
       when (negb (is_empty (trim status)))
         (print log Committing ;;
          runCommandInDir (js "git add .") workingDir ;;
          let message := commit_message commitMessage target version in
          runCommandInDir (js "git commit -m " ++ message) workingDir ;;
          ret tt) ;;
       print log (CreatingTag tagName) ;;
       runCommandInDir (js "git tag " ++ tagName) workingDir ;;
       print log Pushing ;;
       runCommandInDir (js "git push origin HEAD " ++ tagName) workingDir ;;
       print log Completed ;;
       print log (ReleaseNotice version))
      (fun e => print error (GitFailed e)).

(** ** [src/version-bumper.ts] *)

(** The state of a [VersionBumper] once it is constructed: the
    configuration of its [ConfigManager] (which conforms, or
    [loadAllTocFiles] would have ended the process), the catalogue of
    its [TocManager], and its [verbose] flag. *)
Record Bumper := {
  b_config : Config;
  b_tocFiles : list TocFile;
  b_verbose : bool
}.

(** [new VersionBumper(verbose)] *)
Definition new_VersionBumper (verbose : bool) : M Bumper :=
  value <- loadConfig verbose ;;
  tocFiles <- loadAllTocFiles value verbose ;;
  config <- read_config value ;;
  ret {| b_config := config; b_tocFiles := tocFiles;
         b_verbose := verbose |}.

(** [{ ...options, newVersion: v }] *)
Definition with_newVersion (options : VersionBumpOptions) (v : jsstring)
    : VersionBumpOptions :=
  {| newVersion := v; dryRun := dryRun options;
     targetAddon := targetAddon options; bumpType := bumpType options;
     commitMessage := commitMessage options; verbose := verbose options |}.

(** [VersionBumper.updateFiles(files, options)] *)
Definition updateFiles (files : list TocFile)
    (options : VersionBumpOptions) : M unit :=
  when (dryRun options) (print log DryRunMode) ;;
  for_each files (fun file =>
    let newContent :=
      updateVersionInContent (content file) (newVersion options) in
    let relativePath := remove_first (js "./addons/") (path file) in
    if dryRun options then
      print log (WouldUpdate relativePath (version file)
                             (newVersion options))
    else
      try_catch
        (writeTextFileSync (path file) newContent ;;
         print log (Updated relativePath (version file)
                            (newVersion options)))
        (fun e => print error (FailedToUpdate relativePath e))).

(** [VersionBumper.bumpVersion(options)] *)
Definition bumpVersion (b : Bumper) (options : VersionBumpOptions)
    : M unit :=
  match targetAddon options with
  | Some (c :: a) =>
      let target := c :: a in
      let filesToUpdate := getTocFilesForAddon (b_tocFiles b) target in
      if is_empty_list filesToUpdate then
        print error (NoTocFilesFor target)
      else
        print log (BumpingAddon target (newVersion options)) ;;
        print log (Rule 60) ;;
        updateFiles filesToUpdate options ;;
        createGitTag (b_config b) (newVersion options)
          (Some (commitMessage options)) (targetAddon options)
          (dryRun options)
  | _ =>
      let allTocFiles := b_tocFiles b in
      let addonGroups := addonGroups allTocFiles in
      if negb (is_empty (newVersion options)) then
        print log (BumpingAll (newVersion options)) ;;
        print log (Rule 60) ;;
        for_each addonGroups (fun '(addonName, files) =>
          print log (AddonHeader addonName) ;;
          updateFiles files options) ;;
        print log (TagsForAll (dryRun options)) ;;
        for_each addonGroups (fun '(addonName, _) =>
          print log (TagFor (dryRun options) addonName) ;;
          createGitTag (b_config b) (newVersion options)
            (Some (addon_bump_message addonName (newVersion options)))
            (Some addonName) (dryRun options))
      else
        print log BumpingIndividually ;;
        print log (Rule 60) ;;
        for_each addonGroups (fun '(addonName, files) =>
          addonNextVersion <-
            getNextVersion (b_tocFiles b) (Some addonName)
                           (bumpType options) ;;
          match addonNextVersion with
          | Some (c :: v) =>
              print log (AddonHeader addonName) ;;
              updateFiles files (with_newVersion options (c :: v))
          | _ => ret tt
          end) ;;
        print log (TagsForAll (dryRun options)) ;;
        for_each addonGroups (fun '(addonName, _) =>
          addonNextVersion <-
            getNextVersion (b_tocFiles b) (Some addonName)
                           (bumpType options) ;;
          match addonNextVersion with
          | Some (c :: v) =>
              print log (TagFor (dryRun options) addonName) ;;
              createGitTag (b_config b) (c :: v)
                (Some (addon_bump_message addonName (c :: v)))
                (Some addonName) (dryRun options)
          | _ => ret tt
          end)
  end.

(** ** [src/cli.ts] *)

(** The throwing branches of [parseBumpArgs] that follow a failed
    auto-increment. *)
Definition auto_increment (b : Bumper) (target : optional)
    (bump : BumpType) : M jsstring :=
  nextVersion <- getNextVersion (b_tocFiles b) target bump ;;
  match nextVersion with
  | Some (c :: v) =>
      print log (AutoIncrementing (c :: v)) ;;
      ret (c :: v)
  | _ =>
      print error CouldNotDetermine ;;
      throw CouldNotDetermineVersion
  end.

(** [CLI.parseBumpArgs(args)] *)
Definition parseBumpArgs (b : Bumper) (args : list jsstring)
    : M VersionBumpOptions :=
  let bumpType :=
    if includes args (js "--major") then Major
    else if includes args (js "--minor") then Minor
    else Patch in
  parsed <-
    match args with
    | [] =>
        print log NoVersionProvided ;;
        newVersion <- auto_increment b None bumpType ;;
        ret (newVersion, None)
    | arg0 :: rest =>
        if is_explicit_version arg0 then
          ret (arg0,
               match rest with
               | (c :: a) :: _ =>
                   if negb (startsWith (c :: a) (js "--"))
                   then Some (c :: a) else None
               | _ => None
               end)
        else if str_eqb arg0 (js "all") then
          print log BumpingAllAddons ;;
          ret (js "auto", None)
        else if startsWith arg0 (js "--") then
          print error NoAddonSpecified ;;
          print log (Text (LF :: js "Examples:")) ;;
          print log (Text (js "  deno run main.ts bump all --major")) ;;
          print log
            (Text (js "  deno run main.ts bump Broker_TinyFriends --major")) ;;
          print log
            (Text (js "  deno run main.ts bump --major Broker_TinyFriends")) ;;
          throw InvalidBumpArguments
        else
          let targetAddon := Some arg0 in
          match rest with
          | arg1 :: _ =>
              if is_explicit_version arg1 then ret (arg1, targetAddon)
              else
                print log NoVersionForAddon ;;
                newVersion <- auto_increment b targetAddon bumpType ;;
                ret (newVersion, targetAddon)
          | [] =>
              print log NoVersionForAddon ;;
              newVersion <- auto_increment b targetAddon bumpType ;;
              ret (newVersion, targetAddon)
          end
    end ;;
  let '(newVersion, targetAddon) := parsed in
  ret {| newVersion :=
           if str_eqb newVersion (js "auto") then [] else newVersion;
         dryRun := includes args (js "--dry");
         targetAddon := targetAddon;
         bumpType := bumpType;
         commitMessage := bump_message targetAddon newVersion;
         verbose := includes args (js "--verbose") |}.

(** [CLI.run(args)], with the [VersionBumper] the [CLI] holds. *)
Definition run (bumper : Bumper) (args : list jsstring) : M unit :=
  match args with
  | [] => print log HelpScreen
  | command :: rest =>
      try_catch
        (if str_eqb command (js "show") then
           print log (VersionsReport (hd_error rest))
         else if str_eqb command (js "list") then
           print log AddonsReport
         else if str_eqb command (js "whitelist") then
           print log WhitelistReport
         else if str_eqb command (js "config") then
           print log ConfigReport
         else if str_eqb command (js "bump") then
           options <- parseBumpArgs bumper rest ;;
           bumper' <- (if verbose options then new_VersionBumper true
                       else ret bumper) ;;
           bumpVersion bumper' options
         else
           print error UnknownCommand)
        (fun e => print error (ErrorLine e) ;; exit 1)
  end.

(** [main()] of [main.ts] on [Deno.args]. *)
Definition main (args : list jsstring) : M unit :=
  let verbose := includes args (js "--verbose") in
  bumper <- new_VersionBumper verbose ;;
  run bumper args.

End Program.
(* ================================================================= *)
(** * The read-only reports

    [TocManager.listAddons] and [VersionManager.showCurrentVersions]
    read the catalogue and call [console.log], nothing else; each is
    given here by the lines it prints, oldest first. *)

(** [[...new Set(xs)]]: a [Set] keeps the first occurrence of every
    string, in insertion order. *)
Definition set_add (seen : list jsstring) (x : jsstring) : list jsstring :=
  if includes seen x then seen else seen ++ [x].

Definition unique (xs : list jsstring) : list jsstring :=
  fold_left set_add xs [].

(** The lines of the two reports, one constructor for each
    [console.log] call. *)
Inductive Report :=
(* toc-manager.ts, listAddons *)
| AvailableAddons
    (* "Available addons:" *)
| Underline (width : nat)
    (* "=".repeat(width) *)
| AddonCount (addon : jsstring) (count : nat)
    (* `<package> ${addon} (${files.length} .toc files)` *)
(* version-manager.ts, showCurrentVersions *)
| CurrentVersions
    (* "Current versions across .toc files:" *)
| NoFilesForAddon (addon : jsstring)
    (* `No .toc files found for addon: ${targetAddon}` *)
| NoFilesAnywhere
    (* "No .toc files found in any addon directories" *)
| AddonHeading (addon : jsstring)
    (* `\n<package> ${addonName}:` *)
| FileVersion (relativePath version : jsstring)
    (* `  ${relativePath}: ${file.version}` *)
| InconsistentVersions (addon : jsstring)
    (* `  WARNING: Inconsistent versions in ${addonName}!` *)
| VersionsFound (versions : list jsstring)
    (* `     Versions found: ${versions.join(", ")}` *)
| ConsistentVersion (version : optional).
    (* `  All files have consistent version: ${versions[0]}`, where
       [None] is [undefined] *)

(** [TocManager.listAddons()] on the catalogue [tocFiles]. *)
Definition listAddons (tocFiles : list TocFile) : list Report :=
  let addons := unique (map addonName tocFiles) in
  [AvailableAddons; Underline 30] ++
  map (fun addon =>
         let files :=
           filter (fun f => str_eqb (addonName f) addon) tocFiles in
         AddonCount addon (length files))
      addons.

(** The body of [for (const [addonName, files] of addonGroups)] in
    [showCurrentVersions]. *)
Definition show_group (group : jsstring * list TocFile) : list Report :=
  let '(addonName, files) := group in
  let versions := unique (map version files) in
  AddonHeading addonName
    :: map (fun file =>
              FileVersion (remove_first (js "./addons/") (path file))
                          (version file))
           files
    ++ (if 1 <? length versions
        then [InconsistentVersions addonName; VersionsFound versions]
        else [ConsistentVersion (hd_error versions)]).

(** [VersionManager.showCurrentVersions(targetAddon)] on the catalogue
    [tocFiles]; the groups are built as in [bumpVersion]. *)
Definition showCurrentVersions (tocFiles : list TocFile)
    (targetAddon : optional) : list Report :=
  let filesToShow := filesToCheck tocFiles targetAddon in
  [CurrentVersions; Underline 60] ++
  if is_empty_list filesToShow then
    match targetAddon with
    | Some (c :: a) => [NoFilesForAddon (c :: a)]
    | _ => [NoFilesAnywhere]
    end
  else concat (map show_group (addonGroups filesToShow)).

(* ================================================================= *)
(** * Vocabulary of the statements *)

(** ** Version lines *)

Definition not_terminator (c : char) : bool := negb (is_line_terminator c).

(** [line_text v]: no line terminator occurs in [v]. *)
Definition line_text (v : jsstring) : Prop :=
  forallb not_terminator v = true.

Definition last_char (s : jsstring) : option char :=
  match rev s with
  | [] => None
  | c :: _ => Some c
  end.

(** [pre] ends where a line starts; [post] starts where a line ends. *)
Definition line_start (pre : jsstring) : Prop :=
  at_line_start (last_char pre) = true.
Definition line_end (post : jsstring) : Prop :=
  at_line_end post = true.

(** [version_line content pre v post]: [content] has, right after [pre],
    a whole line [## Version: v] with a non-empty [v], followed by
    [post]. *)
Definition version_line (content pre v post : jsstring) : Prop :=
  content = pre ++ tocPrefix ++ v ++ post /\
  line_start pre /\ v <> [] /\ line_text v /\ line_end post.

(** The first such line of [content]. *)
Definition first_version_line (content pre v post : jsstring) : Prop :=
  version_line content pre v post /\
  forall pre' v' post',
    version_line content pre' v' post' -> length pre <= length pre'.

(** One attempt of [tocPattern] at a position, written directly. *)
Definition match_here (prev : option char) (s : jsstring)
    : option (jsstring * jsstring) :=
  if at_line_start prev then
    match strip_prefix tocPrefix s with
    | Some t =>
        match span not_terminator t with
        | ([], _) => None
        | (v, rest) => Some (v, rest)
        end
    | None => None
    end
  else None.

(** [dollar_free t]: the character [$] does not occur in [t]. *)
Definition dollar_free (t : jsstring) : Prop :=
  forallb (fun c => negb (char_eqb c DOLLAR)) t = true.

(** A version text: what may stand after [## Version: ] on its line and
    is copied literally by a replacement. *)
Definition version_text (v : jsstring) : Prop :=
  v <> [] /\ line_text v /\ dollar_free v.

(** [loaded r]: the version of the record is the text of the first
    version line of its content. *)
Definition loaded (r : TocFile) : Prop :=
  exists pre post, first_version_line (content r) pre (version r) post.

(** [stored disk r]: the record holds the text of its file, and its
    version is the text of the first version line of it. *)
Definition stored (disk : jsstring -> option jsstring) (r : TocFile)
    : Prop :=
  disk (path r) = Some (content r) /\ loaded r.

(** ** The order of version tuples *)

(** The IEEE comparison of two numbers that are not NaN. *)
Definition num_cmp (a b : number) : comparison :=
  match SFcompare a b with
  | Some c => c
  | None => Eq
  end.

Definition is_nan (x : number) : bool :=
  match x with S754_nan => true | _ => false end.

(** Numeric comparison on (major, minor, patch), in that priority. *)
Definition tuple_cmp (a b : Parsed.t) : comparison :=
  match num_cmp (Parsed.major a) (Parsed.major b) with
  | Eq =>
      match num_cmp (Parsed.minor a) (Parsed.minor b) with
      | Eq => num_cmp (Parsed.patch a) (Parsed.patch b)
      | c => c
      end
  | c => c
  end.

(** The tuple of a record is lower than, or not higher than, another's. *)
Definition lower (f h : TocFile) : Prop :=
  tuple_cmp (parse_parts f) (parse_parts h) = Lt.
Definition not_higher (f h : TocFile) : Prop :=
  tuple_cmp (parse_parts f) (parse_parts h) <> Gt.

(** A position of a number in a lexicographic order of integers, used to
    reason about the comparison: class, then exponent, then mantissa. *)
Definition num_key (x : number) : list Z :=
  match x with
  | S754_infinity true => [-2; 0; 0]%Z
  | S754_finite true m e => [-1; - e; Zneg m]%Z
  | S754_zero _ | S754_nan => [0; 0; 0]%Z
  | S754_finite false m e => [1; e; Zpos m]%Z
  | S754_infinity false => [2; 0; 0]%Z
  end.

Fixpoint key_cmp (a b : list Z) : comparison :=
  match a, b with
  | [], [] => Eq
  | [], _ :: _ => Lt
  | _ :: _, [] => Gt
  | x :: a', y :: b' =>
      match (x ?= y)%Z with
      | Eq => key_cmp a' b'
      | c => c
      end
  end.

Definition tuple_key (t : Parsed.t) : list Z :=
  num_key (Parsed.major t) ++ num_key (Parsed.minor t)
    ++ num_key (Parsed.patch t).

(** No component of the tuple is NaN. *)
Definition numeric (t : Parsed.t) : Prop :=
  is_nan (Parsed.major t) = false /\ is_nan (Parsed.minor t) = false /\
  is_nan (Parsed.patch t) = false.

(** The value a dot-separated field contributes to the tuple: the number
    it parses to, and [0] when the field is absent or is not a number. *)
Definition field_value (field : option jsstring) : number :=
  match field with
  | None => zero
  | Some s =>
      match Number s with
      | S754_nan => zero
      | S754_zero _ => zero
      | x => x
      end
  end.

(** A record with a given version text. *)
Definition toc (p c v a : jsstring) : TocFile :=
  {| path := p; content := c; version := v; addonName := a |}.

(** The text [M.m.p] of three natural numbers in decimal. *)
Definition version_string (M m p : N) : jsstring :=
  decimal_string M ++ [DOT] ++ decimal_string m ++ [DOT] ++ decimal_string p.

(** The characters of [M.m.p]: digits and dots. *)
Definition version_char (c : char) : bool := is_digit c || char_eqb c DOT.

(** The version that follows [M.m.p] under a bump type. *)
Definition bumped (bump : BumpType) (M m p : N) : jsstring :=
  match bump with
  | Major => version_string (M + 1) 0 0
  | Minor => version_string M (m + 1) 0
  | Patch => version_string M m (p + 1)
  end.

(** [has_tuple h M m p]: the numbers of the tuple [h] are the integers
    [M], [m] and [p]. *)
Definition has_tuple (h : Parsed.t) (M m p : N) : Prop :=
  Parsed.major h = number_of_Z (Z.of_N M) /\
  Parsed.minor h = number_of_Z (Z.of_N m) /\
  Parsed.patch h = number_of_Z (Z.of_N p).

(** A catalogue of one record of the addon [Alpha] with the version
    text [v]. *)
Definition single_version (v : jsstring) : list TocFile :=
  [ {| path := js "./addons/Alpha/Alpha.toc";
       content := js "## Version: " ++ v;
       version := v; addonName := js "Alpha" |} ].

(** The binary64 value of a positive integer with at most 53 binary
    digits: the integer itself, with its mantissa shifted to 53 digits. *)
Definition exact_number (p : positive) : number :=
  S754_finite false
    match (Zpos (digits2_pos p) - 53)%Z with
    | Zneg k => Pos.iter xO p k
    | _ => p
    end
    (Zpos (digits2_pos p) - 53).

(** The numbers below [2^53] are the safe integers. *)
Definition safe (n : N) : Prop := (n <= Semver.MAX_SAFE_INTEGER)%N.

(** Lexicographic comparison of three natural numbers. *)
Definition triple_cmp (a b : N * N * N) : comparison :=
  let '(a1, a2, a3) := a in
  let '(b1, b2, b3) := b in
  match (a1 ?= b1)%N with
  | Eq => match (a2 ?= b2)%N with Eq => (a3 ?= b3)%N | c => c end
  | c => c
  end.

(** ** Effects *)

(** [unchanged w w']: from [w] to [w'] no file was written, no command
    was spawned and the files are as they were; only the console may
    differ. *)
Definition unchanged (w w' : World) : Prop :=
  files w' = files w /\ writes w' = writes w /\ spawned w' = spawned w.

(** [quiet Q m]: the computation [m] leaves every world unchanged but for
    the console, and what it returns satisfies [Q]. *)
Definition quiet {A : Type} (Q : A -> Prop) (m : M A) : Prop :=
  forall w,
    unchanged w (snd (m w)) /\
    forall a, fst (m w) = Returned a -> Q a.

Definition any {A : Type} (_ : A) : Prop := True.

(** [quiet_on Q m]: as [quiet], for a property [Q] of the result that
    refers to the files on disk. *)
Definition quiet_on {A : Type}
    (Q : (jsstring -> option jsstring) -> A -> Prop) (m : M A) : Prop :=
  forall w,
    unchanged w (snd (m w)) /\
    forall a, fst (m w) = Returned a -> Q (files w) a.

(** A computation that returns normally and spawns nothing. *)
Definition harmless (m : M unit) : Prop :=
  forall w, fst (m w) = Returned tt /\ spawned (snd (m w)) = spawned w.

(** [n] runs of a process, one after the other. *)
Fixpoint repeat_run (n : nat) (process : M unit) (w : World) : World :=
  match n with
  | O => w
  | S n' => repeat_run n' process (snd (process w))
  end.

Definition empty_world : World :=
  {| console := []; files := fun _ => None; writes := []; spawned := [] |}.

(** ** The release sequence *)

Inductive Action := CommitAction | TagAction | PushAction.

(** The action a dry-run line announces. *)
Definition announced (l : Channel * Line) : option Action :=
  match snd l with
  | WouldCommit _ => Some CommitAction
  | WouldCreateTag _ => Some TagAction
  | WouldPush => Some PushAction
  | _ => None
  end.

(** The action a spawned [git] command performs. *)
Definition performed (c : Command) : option Action :=
  match args c with
  | sub :: _ =>
      if str_eqb sub (js "commit") then Some CommitAction
      else if str_eqb sub (js "tag") then Some TagAction
      else if str_eqb sub (js "push") then Some PushAction
      else None
  | [] => None
  end.

Fixpoint choose {A B : Type} (f : A -> option B) (l : list A) : list B :=
  match l with
  | [] => []
  | x :: l' =>
      match f x with
      | Some y => y :: choose f l'
      | None => choose f l'
      end
  end.

Definition announced_actions (w : World) : list Action :=
  choose announced (console w).
Definition performed_actions (w : World) : list Action :=
  choose performed (spawned w).

(** The commands [createGitTag] spawns in a working directory. *)
Definition git (dir : jsstring) (arguments : list jsstring) : Command :=
  {| program := js "git"; args := arguments; cwd := dir |}.

Definition git_status (dir : jsstring) : Command :=
  git dir [js "status"; js "--porcelain"].
Definition git_add (dir : jsstring) : Command :=
  git dir [js "add"; js "."].
Definition git_commit (dir message : jsstring) : Command :=
  git dir [js "commit"; js "-m"; message].
Definition git_tag (dir tag : jsstring) : Command :=
  git dir (js "tag" :: split_on SPACE tag).
Definition git_push (dir tag : jsstring) : Command :=
  git dir (js "push" :: js "origin" :: js "HEAD" :: split_on SPACE tag).

(** The whole sequence of one call: the status query, the commit when
    the working tree has changes, the tag, the push. *)
Definition release_sequence (dir : jsstring) (dirty : bool)
    (message tag : jsstring) : list Command :=
  git_status dir
    :: (if dirty then [git_add dir; git_commit dir message] else [])
    ++ [git_tag dir tag; git_push dir tag].

(** The working directory of a call. *)
Definition working_dir (env : Env) (config : Config) (target : optional)
    : Try jsstring :=
  match target with
  | Some (c :: a) => Ok (addonsDirectory config ++ js "/" ++ c :: a)
  | _ => current_dir env
  end.

(** A command fails when it ends with a non-zero status, or cannot be
    spawned. *)
Definition failed (env : Env) (history : list Command)
    (disk : jsstring -> option jsstring) (c : Command) : bool :=
  match run_process env history disk c with
  | Ok o => nonzero (code o)
  | Err _ => true
  end.

Definition is_failure_report (l : Channel * Line) : bool :=
  match l with
  | (error, GitFailed _) => true
  | _ => false
  end.

Definition failure_reports (lines : list (Channel * Line)) : nat :=
  length (filter is_failure_report lines).

Definition is_prefix {A : Type} (a b : list A) : Prop :=
  exists rest, b = a ++ rest.

(** One spawned command, as [runCommandInDir] handles it. *)
Definition run_one (env : Env) (c : Command) (command : jsstring)
    : M jsstring :=
  o <- output env c ;;
  if nonzero (code o) then throw (CommandFailed command (stderr o))
  else ret (stdout o).

(** What one real call of [createGitTag] did, from world [w] to the
    result [r]: the commands [ex] it spawned and the lines it printed. *)
Definition release_run (env : Env) (config : Config) (version : jsstring)
    (message target : optional) (w : World) (r : Outcome unit * World)
    : Prop :=
  let msg := commit_message message target version in
  fst r = Returned tt /\
  files (snd r) = files w /\ writes (snd r) = writes w /\
  exists ex lines,
    spawned (snd r) = spawned w ++ ex /\
    console (snd r) = console w ++ lines /\
    (* the commands are an initial part of the release sequence, from its
       first command on *)
    match working_dir env config target with
    | Ok dir =>
        exists dirty,
          is_prefix ex (release_sequence dir dirty msg version) /\
          is_prefix [git_status dir] ex
    | Err _ => ex = []
    end /\
    (* a command that failed is the last command of the call *)
    (forall k c,
        nth_error ex k = Some c ->
        failed env (spawned w ++ firstn k ex) (files w) c = true ->
        length ex = S k) /\
    (* a failure is reported once, and the run is not reported complete *)
    failure_reports lines <= 1 /\
    ((exists k c,
         nth_error ex k = Some c /\
         failed env (spawned w ++ firstn k ex) (files w) c = true) ->
     failure_reports lines = 1 /\ ~ In (log, Completed) lines) /\
    (* without a report the whole sequence ran *)
    (failure_reports lines = 0 ->
     (exists dir dirty, ex = release_sequence dir dirty msg version) /\
     In (log, Completed) lines).

(** The first command of the release sequence of an addon. *)
Definition first_command (config : Config) (addon : jsstring) : Command :=
  git_status (addonsDirectory config ++ js "/" ++ addon).

(** The outcome of [getNextVersion]; it does not depend on the world. *)
Definition next_outcome (tocFiles : list TocFile) (target : optional)
    (bump : BumpType) : Outcome optional :=
  fst (getNextVersion tocFiles target bump empty_world).

(** The command wanted of the round of a group in the tag loops: the
    first command of the release sequence of the addon. *)
Definition wanted_of (config : Config) (group : jsstring * list TocFile)
    : option Command :=
  if is_empty (fst group) then None
  else Some (first_command config (fst group)).

(** [rejected tocFiles bump v]: the next version of some addon of the
    catalogue cannot be computed, because [parse] rejects the text [v] of
    its highest version. *)
Definition rejected (tocFiles : list TocFile) (bump : BumpType)
    (v : jsstring) : Prop :=
  exists n fs,
    In (n, fs) (addonGroups tocFiles) /\
    next_outcome tocFiles (Some n) bump = Thrown (InvalidVersion v).

(** What a bump of all addons did, from world [w] to the result [r]: it
    returned, and the release sequence of every addon was started. *)
Definition all_attempted (b_config : Config) (tocFiles : list TocFile)
    (w : World) (r : Outcome unit * World) : Prop :=
  fst r = Returned tt /\
  exists added,
    spawned (snd r) = spawned w ++ added /\
    forall n fs,
      In (n, fs) (addonGroups tocFiles) -> n <> [] ->
      In (first_command b_config n) added.

(** The bump ended on a rejected version, before any command was
    spawned. *)
Definition ended_early (tocFiles : list TocFile) (bump : BumpType)
    (w : World) (r : Outcome unit * World) : Prop :=
  exists v,
    rejected tocFiles bump v /\
    fst r = Thrown (InvalidVersion v) /\
    spawned (snd r) = spawned w.

(** ** The command line *)

(** The top-level commands of [run]. *)
Definition known_command (c : jsstring) : bool :=
  includes [js "show"; js "list"; js "whitelist"; js "config"; js "bump"] c.

(** ** A sample installation *)

(** An environment whose [git] always succeeds and reports a modified
    file, with one addon directory [Alpha] holding [Alpha.toc]. *)
Definition sample_config : Config :=
  {| whitelistedAddons := [js "Alpha"]; addonsDirectory := js "./addons" |}.

Definition sample_env : Env :=
  {| config_json := Ok (Conforming sample_config);
     read_dir := fun p =>
       if str_eqb p (js "./addons")
       then Ok [ {| name := js "Alpha"; isFile := false;
                    isDirectory := true |} ]
       else if str_eqb p (js "./addons/Alpha")
       then Ok [ {| name := js "Alpha.toc"; isFile := true;
                    isDirectory := false |} ]
       else Err (js "No such file or directory");
     read_error := fun _ => js "No such file or directory";
     write_error := fun _ _ => None;
     current_dir := Ok (js "/repo");
     run_process := fun _ _ c =>
       Ok {| code := 0;
             stdout := if includes (args c) (js "status")
                       then js " M Alpha.toc" else [];
             stderr := [] |} |}.

(** A disk with [./addons/Alpha/Alpha.toc], written with CRLF line
    endings. *)
Definition sample_toc : jsstring :=
  js "## Interface: 110000" ++ [CR; LF] ++
  js "## Version: 1.4.2" ++ [CR; LF] ++
  js "## Title: Alpha" ++ [CR; LF].

Definition sample_world : World :=
  {| console := [];
     files := fun p =>
       if str_eqb p (js "./addons/Alpha/Alpha.toc") then Some sample_toc
       else None;
     writes := []; spawned := [] |}.

Definition sample_record : TocFile :=
  toc (js "./addons/Alpha/Alpha.toc") sample_toc (js "1.4.2") (js "Alpha").

Definition sample_bumper : Bumper :=
  {| b_config := sample_config; b_tocFiles := [sample_record];
     b_verbose := false |}.

Definition sample_options (dry : bool) : VersionBumpOptions :=
  {| newVersion := []; dryRun := dry; targetAddon := None;
     bumpType := Major; commitMessage := js "Bump version to auto";
     verbose := false |}.

(** ** A release that fails for one addon *)

(** Two addons, [Alpha] and [Beta], with one TOC file each. *)
Definition two_config : Config :=
  {| whitelistedAddons := [js "Alpha"; js "Beta"];
     addonsDirectory := js "./addons" |}.

Definition beta_toc : jsstring :=
  js "## Interface: 110000" ++ [LF] ++
  js "## Version: 0.9.0" ++ [LF].

Definition beta_record : TocFile :=
  toc (js "./addons/Beta/Beta.toc") beta_toc (js "0.9.0") (js "Beta").

Definition two_bumper : Bumper :=
  {| b_config := two_config; b_tocFiles := [sample_record; beta_record];
     b_verbose := false |}.

(** An environment as the sample one, but for [git tag], which ends with
    status 128 in the directory of [Alpha]. *)
Definition failing_env : Env :=
  {| config_json := Ok (Conforming two_config);
     read_dir := fun p =>
       if str_eqb p (js "./addons")
       then Ok [ {| name := js "Alpha"; isFile := false;
                    isDirectory := true |};
                 {| name := js "Beta"; isFile := false;
                    isDirectory := true |} ]
       else if str_eqb p (js "./addons/Alpha")
       then Ok [ {| name := js "Alpha.toc"; isFile := true;
                    isDirectory := false |} ]
       else if str_eqb p (js "./addons/Beta")
       then Ok [ {| name := js "Beta.toc"; isFile := true;
                    isDirectory := false |} ]
       else Err (js "No such file or directory");
     read_error := read_error sample_env;
     write_error := write_error sample_env;
     current_dir := current_dir sample_env;
     run_process := fun _ _ c =>
       if includes (args c) (js "tag") && str_eqb (cwd c) (js "./addons/Alpha")
       then Ok {| code := 128; stdout := [];
                  stderr := js "fatal: tag already exists" |}
       else Ok {| code := 0;
                  stdout := if includes (args c) (js "status")
                            then js " M changed.toc" else [];
                  stderr := [] |} |}.

Definition two_world : World :=
  {| console := [];
     files := fun p =>
       if str_eqb p (js "./addons/Alpha/Alpha.toc") then Some sample_toc
       else if str_eqb p (js "./addons/Beta/Beta.toc") then Some beta_toc
       else None;
     writes := []; spawned := [] |}.
(* ================================================================= *)
(** * Vocabulary of the further properties *)

(** ** The reports *)

(** The number of records a line of [listAddons] counts. *)
Definition counted (r : Report) : nat :=
  match r with
  | AddonCount _ count => count
  | _ => 0
  end.

(** ** The command line *)

(** A non-empty run of the digits [0] to [9]. *)
Definition digits (d : jsstring) : Prop :=
  d <> [] /\ forallb is_digit d = true.

(** ** The catalogue as a function of the disk *)

(** [reads disk m o]: from every world whose files are [disk], the
    computation [m] ends as [o] and leaves the world unchanged but for
    the console. *)
Definition reads {A : Type} (disk : jsstring -> option jsstring)
    (m : M A) (o : Outcome A) : Prop :=
  forall w, files w = disk ->
            fst (m w) = o /\ unchanged w (snd (m w)).

(** The record of one file name of an addon directory, if its text can
    be read and has a version line. *)
Definition toc_record (disk : jsstring -> option jsstring)
    (addonDir addonPath tocFile : jsstring) : list TocFile :=
  let filePath := addonPath ++ js "/" ++ tocFile in
  match disk filePath with
  | Some text =>
      match exec tocPattern text with
      | Some m => [ {| path := filePath; content := text;
                       version := capture1 m; addonName := addonDir |} ]
      | None => []
      end
  | None => []
  end.

(** The [.toc] files listed in a directory. *)
Definition toc_names (entries : list DirEntry) : list jsstring :=
  map name (filter (fun e => isFile e && endsWith (name e) (js ".toc"))
                   entries).

(** The records of one addon directory. *)
Definition addon_records (env : Env) (disk : jsstring -> option jsstring)
    (addonsDirectory addonDir : jsstring) : list TocFile :=
  let addonPath := addonsDirectory ++ js "/" ++ addonDir in
  match read_dir env addonPath with
  | Ok entries =>
      flat_map (toc_record disk addonDir addonPath) (toc_names entries)
  | Err _ => []
  end.

(** The whitelisted directories among the entries of the addons
    directory. *)
Definition addon_dirs (config : Config) (entries : list DirEntry)
    : list jsstring :=
  filter (includes (whitelistedAddons config))
         (map name (filter isDirectory entries)).

(** The listing of the addons directory of a configuration value: an
    error when the value does not conform, or when the directory cannot
    be listed. *)
Definition listing (env : Env) (value : ConfigValue)
    : Try (list DirEntry) :=
  match value with
  | Conforming config => read_dir env (addonsDirectory config)
  | NonConforming message => Err message
  end.

(** The catalogue of a disk; [None] when there is no listing of the
    addons directory. *)
Definition catalogue (env : Env) (value : ConfigValue)
    (disk : jsstring -> option jsstring) : option (list TocFile) :=
  match value with
  | Conforming config =>
      match read_dir env (addonsDirectory config) with
      | Ok entries =>
          Some (flat_map (addon_records env disk (addonsDirectory config))
                         (addon_dirs config entries))
      | Err _ => None
      end
  | NonConforming _ => None
  end.

(** The configuration value the program works with: that of
    [config.json], or the defaults when it cannot be loaded. *)
Definition effective_value (env : Env) : ConfigValue :=
  match config_json env with
  | Ok value => value
  | Err _ => Conforming {| whitelistedAddons := [];
                           addonsDirectory := js "./addons" |}
  end.

(** The listing the program starts with. *)
Definition startup_listing (env : Env) : Try (list DirEntry) :=
  listing env (effective_value env).

(** ** Writing the files *)

(** The body of the loop of [updateFiles] outside a dry run. *)
Definition write_record (env : Env) (options : VersionBumpOptions)
    (file : TocFile) : M unit :=
  let relativePath := remove_first (js "./addons/") (path file) in
  try_catch
    (writeTextFileSync env (path file)
       (updateVersionInContent (content file) (newVersion options)) ;;
     print log (Updated relativePath (version file) (newVersion options)))
    (fun e => print error (FailedToUpdate relativePath e)).

(** The write [updateFiles] makes for a record. *)
Definition write_of (V : jsstring) (file : TocFile) : jsstring * jsstring :=
  (path file, updateVersionInContent (content file) V).

(** No [writeTextFileSync] call fails. *)
Definition writes_succeed (env : Env) : Prop :=
  forall done p, write_error env done p = None.

(** A record after a bump to [V]: the rewritten text and the new
    version. *)
Definition rewritten (V : jsstring) (r : TocFile) : TocFile :=
  {| path := path r;
     content := updateVersionInContent (content r) V;
     version := V;
     addonName := addonName r |}.

(** A text that starts with a digit. *)
Definition starts_with_digit (v : jsstring) : Prop :=
  exists c rest, v = c :: rest /\ is_digit c = true.

(** The bump type the flags of an argument list select. *)
Definition selected_bump (args : list jsstring) : BumpType :=
  if includes args (js "--major") then Major
  else if includes args (js "--minor") then Minor
  else Patch.

(** ** The release recorder *)

(** Every spawned command ends with status 0. *)
Definition commands_succeed (env : Env) : Prop :=
  forall history disk c,
    exists o, run_process env history disk c = Ok o /\ code o = 0%Z.

(** How a spawned command ends for [runCommandInDir]: its output when
    the status is 0, an error that carries the command text and the
    error output otherwise. *)
Definition command_result (env : Env) (w : World) (c : Command)
    (command : jsstring) : Outcome jsstring :=
  match run_process env (spawned w) (files w) c with
  | Ok o =>
      if (code o =? 0)%Z then Returned (stdout o)
      else Thrown (CommandFailed command (stderr o))
  | Err msg => Thrown (SystemError msg)
  end.

(** The world after a command was spawned. *)
Definition after_command (w : World) (c : Command) : World :=
  {| console := console w; files := files w; writes := writes w;
     spawned := spawned w ++ [c] |}.

(** ** Further sample installations *)

(** The sample installation with an addons directory that cannot be
    listed. *)
Definition offline_env : Env :=
  {| config_json := config_json sample_env;
     read_dir := fun _ => Err (js "No such file or directory");
     read_error := read_error sample_env;
     write_error := write_error sample_env;
     current_dir := current_dir sample_env;
     run_process := run_process sample_env |}.

(** The sample installation with a [config.json] that has no
    [whitelistedAddons]. *)
Definition partial_env : Env :=
  {| config_json :=
       Ok (NonConforming
             (js "this.config.whitelistedAddons is not iterable"));
     read_dir := read_dir sample_env;
     read_error := read_error sample_env;
     write_error := write_error sample_env;
     current_dir := current_dir sample_env;
     run_process := run_process sample_env |}.

(** The sample installation without a [config.json]. *)
Definition unconfigured_env : Env :=
  {| config_json := Err (js "No such file or directory");
     read_dir := read_dir sample_env;
     read_error := read_error sample_env;
     write_error := write_error sample_env;
     current_dir := current_dir sample_env;
     run_process := run_process sample_env |}.

(** The options of a real bump to [2.0.0], of one addon or of all. *)
Definition release_options (target : optional) : VersionBumpOptions :=
  {| newVersion := js "2.0.0"; dryRun := false; targetAddon := target;
     bumpType := Patch; commitMessage := bump_message target (js "2.0.0");
     verbose := false |}.

(** A catalogue whose only version has two fields. *)
Definition short_bumper : Bumper :=
  {| b_config := sample_config;
     b_tocFiles := [toc (js "./addons/Alpha/Alpha.toc")
                        (js "## Version: 1.2") (js "1.2") (js "Alpha")];
     b_verbose := false |}.

(** ** Plain versions *)

(** A record whose version is [M.m.p] for three safe integers. *)
Definition plain (f : TocFile) : Prop :=
  exists M m p,
    version f = version_string M m p /\ safe M /\ safe m /\ safe p.

(** ** Individual versions *)

(** The next version of an addon, for a catalogue and a bump type; the
    empty text when there is none. *)
Definition next_of (tocFiles : list TocFile) (bump : BumpType)
    (addon : jsstring) : jsstring :=
  match next_outcome tocFiles (Some addon) bump with
  | Returned (Some v) => v
  | _ => []
  end.

(** The addon directory a release of an addon works in. *)
Definition addon_dir (config : Config) (addon : jsstring) : jsstring :=
  addonsDirectory config ++ js "/" ++ addon.


(* ================================================================= *)
(** * Strings *)

Lemma char_eqb_eq (a b : char) : char_eqb a b = true <-> a = b.
Proof. apply N.eqb_eq. Qed.

Lemma char_eqb_refl (a : char) : char_eqb a a = true.
Proof. apply N.eqb_refl. Qed.

Lemma str_eqb_eq (a b : jsstring) : str_eqb a b = true <-> a = b.
Proof.
  revert b; induction a as [|x a IH]; intros [|y b]; simpl;
    try (split; [discriminate | discriminate]); try tauto.
  rewrite andb_true_iff, char_eqb_eq, IH.
  split; [intros [-> ->]; reflexivity | intros H; inversion H; auto].
Qed.

Lemma strip_prefix_Some (p s t : jsstring) :
  strip_prefix p s = Some t <-> s = p ++ t.
Proof.
  revert s; induction p as [|x p IH]; intros s; simpl.
  - split; [intros [= ->]; reflexivity | intros ->; reflexivity].
  - destruct s as [|y s]; [split; discriminate|].
    destruct (char_eqb x y) eqn:E.
    + apply char_eqb_eq in E; subst y. rewrite IH.
      split; [intros ->; reflexivity | intros [= ->]; reflexivity].
    + split; [discriminate|]. intros [= -> _].
      rewrite char_eqb_refl in E; discriminate.
Qed.

Lemma strip_prefix_app (p t : jsstring) : strip_prefix p (p ++ t) = Some t.
Proof. apply strip_prefix_Some; reflexivity. Qed.

Lemma span_app (f : char -> bool) (s : jsstring) :
  fst (span f s) ++ snd (span f s) = s.
Proof.
  induction s as [|c s IH]; simpl; [reflexivity|].
  destruct (f c); [|reflexivity].
  destruct (span f s) as [a b]; simpl in *. now rewrite IH.
Qed.

Lemma span_forallb (f : char -> bool) (s : jsstring) :
  forallb f (fst (span f s)) = true.
Proof.
  induction s as [|c s IH]; simpl; [reflexivity|].
  destruct (f c) eqn:E; [|reflexivity].
  destruct (span f s) as [a b]; simpl in *. now rewrite E.
Qed.

Lemma span_rest (f : char -> bool) (s : jsstring) :
  match snd (span f s) with
  | [] => True
  | c :: _ => f c = false
  end.
Proof.
  induction s as [|c s IH]; simpl; [exact I|].
  destruct (f c) eqn:E; [|simpl; exact E].
  destruct (span f s) as [a b]; simpl in *. exact IH.
Qed.

(** [span] is determined by a maximal prefix. *)
Lemma span_unique (f : char -> bool) (v rest : jsstring) :
  forallb f v = true ->
  match rest with [] => True | c :: _ => f c = false end ->
  span f (v ++ rest) = (v, rest).
Proof.
  intros Hv Hr. induction v as [|c v IH]; simpl in *.
  - destruct rest as [|c r]; [reflexivity|]. simpl. now rewrite Hr.
  - apply andb_true_iff in Hv as [Hc Hv]. rewrite Hc, (IH Hv). reflexivity.
Qed.

Lemma split_on_nonempty (sep : char) (s : jsstring) : split_on sep s <> [].
Proof.
  destruct s as [|c s]; simpl; [discriminate|].
  destruct (char_eqb c sep); [discriminate|].
  destruct (split_on sep s); discriminate.
Qed.

Lemma join_split (sep : char) (s : jsstring) :
  join [sep] (split_on sep s) = s.
Proof.
  induction s as [|c s IH]; [reflexivity|].
  cbn [split_on]. pose proof (split_on_nonempty sep s) as NE.
  destruct (split_on sep s) as [|h t]; [contradiction|].
  destruct (char_eqb c sep) eqn:E.
  - apply char_eqb_eq in E. subst c.
    change (join [sep] ([] :: h :: t)) with (sep :: join [sep] (h :: t)).
    now rewrite IH.
  - destruct t as [|h' t]; simpl in *; now rewrite <- IH.
Qed.

(* ================================================================= *)
(** * The matcher on [tocPattern] *)

Lemma at_line_end_span (s : jsstring) :
  at_line_end (snd (span not_terminator s)) = true.
Proof.
  pose proof (span_rest not_terminator s) as H.
  destruct (snd (span not_terminator s)) as [|c r]; [reflexivity|].
  simpl. unfold not_terminator in H. now apply negb_false_iff in H.
Qed.

(** Greedy [.*] before [$]: backtracking never gives back a character,
    so the capture is the longest run of non-terminators. *)
Lemma dot_star_line_end (s acc : jsstring) (prev : option char) :
  dot_star
    (fun acc prev' rest =>
       match match_nodes [LineEnd] prev' rest with
       | Some (caps, rest') => Some (rev acc :: caps, rest')
       | None => None
       end) acc prev s
  = Some ([rev acc ++ fst (span not_terminator s)],
          snd (span not_terminator s)).
Proof.
  revert acc prev; induction s as [|c s IH]; intros acc prev; simpl.
  - now rewrite app_nil_r.
  - change (not_terminator c) with (negb (is_line_terminator c)).
    destruct (is_line_terminator c) eqn:E; simpl.
    + now rewrite app_nil_r.
    + rewrite IH. simpl. rewrite <- app_assoc. simpl.
      destruct (span not_terminator s) as [a b]; reflexivity.
Qed.

Lemma match_nodes_tail (prev : option char) (s : jsstring) :
  match_nodes [CaptureDotPlus; LineEnd] prev s =
  match span not_terminator s with
  | ([], _) => None
  | (v, rest) => Some ([v], rest)
  end.
Proof.
  simpl. unfold dot_plus. destruct s as [|c s]; simpl; [reflexivity|].
  change (not_terminator c) with (negb (is_line_terminator c)).
  destruct (is_line_terminator c); simpl; [reflexivity|].
  rewrite dot_star_line_end. simpl.
  destruct (span not_terminator s) as [a b]; reflexivity.
Qed.

Lemma match_nodes_lits (pre : jsstring) (q : Pattern)
    (prev : option char) (s : jsstring) :
  (forall prev1 prev2 t, match_nodes q prev1 t = match_nodes q prev2 t) ->
  match_nodes (map Lit pre ++ q) prev s =
  match strip_prefix pre s with
  | Some t => match_nodes q prev t
  | None => None
  end.
Proof.
  intros Hq. revert prev s; induction pre as [|x pre IH]; intros prev s.
  - reflexivity.
  - simpl. destruct s as [|y s]; [reflexivity|].
    destruct (char_eqb x y); [|reflexivity].
    rewrite IH. destruct (strip_prefix pre s); [apply Hq | reflexivity].
Qed.

Lemma match_nodes_toc (prev : option char) (s : jsstring) :
  match_nodes tocPattern prev s =
  match match_here prev s with
  | Some (v, rest) => Some ([v], rest)
  | None => None
  end.
Proof.
  unfold tocPattern, match_here.
  change (match_nodes (LineStart :: ?p) prev s)
    with (if at_line_start prev then match_nodes p prev s else None).
  destruct (at_line_start prev); [|reflexivity].
  rewrite match_nodes_lits
    by (intros; rewrite !match_nodes_tail; reflexivity).
  destruct (strip_prefix tocPrefix s) as [t|]; [|reflexivity].
  rewrite match_nodes_tail.
  destruct (span not_terminator t) as [[|c v] rest]; reflexivity.
Qed.

Lemma line_end_head (rest : jsstring) :
  line_end rest ->
  match rest with [] => True | c :: _ => not_terminator c = false end.
Proof.
  unfold line_end, not_terminator. destruct rest as [|c r]; simpl; [trivial|].
  intros ->. reflexivity.
Qed.

Lemma match_here_spec (prev : option char) (s v rest : jsstring) :
  match_here prev s = Some (v, rest) <->
  at_line_start prev = true /\ s = tocPrefix ++ v ++ rest /\
  v <> [] /\ line_text v /\ line_end rest.
Proof.
  unfold match_here. split.
  - destruct (at_line_start prev); [|discriminate].
    destruct (strip_prefix tocPrefix s) as [t|] eqn:E; [|discriminate].
    apply strip_prefix_Some in E. subst s.
    pose proof (span_app not_terminator t) as Ha.
    pose proof (span_forallb not_terminator t) as Hf.
    pose proof (at_line_end_span t) as He.
    destruct (span not_terminator t) as [[|c a] b]; [discriminate|].
    intros [= <- <-]. simpl in *. subst t.
    repeat split; auto. discriminate.
  - intros (-> & -> & Hv & Ht & He).
    rewrite strip_prefix_app.
    rewrite (span_unique not_terminator v rest Ht (line_end_head He)).
    destruct v; [contradiction|reflexivity].
Qed.

Lemma last_char_snoc (s : jsstring) (c : char) :
  last_char (s ++ [c]) = Some c.
Proof. unfold last_char. rewrite rev_app_distr. reflexivity. Qed.

Lemma firstn_matched (a b : jsstring) :
  firstn (length (a ++ b) - length b) (a ++ b) = a.
Proof.
  rewrite length_app.
  replace (length a + length b - length b) with (length a + 0) by lia.
  rewrite firstn_app_2. simpl. apply app_nil_r.
Qed.

(** What [exec_from] finds, relative to the text already skipped. *)
Lemma exec_from_toc (s before : jsstring) :
  match exec_from tocPattern before (last_char (rev before)) s with
  | Some m =>
      exists skipped v,
        m_before m = rev before ++ skipped /\
        s = skipped ++ tocPrefix ++ v ++ m_after m /\
        line_start (rev before ++ skipped) /\
        v <> [] /\ line_text v /\ line_end (m_after m) /\
        m_captures m = [v] /\ m_matched m = tocPrefix ++ v /\
        forall skipped' v' post',
          s = skipped' ++ tocPrefix ++ v' ++ post' ->
          line_start (rev before ++ skipped') ->
          v' <> [] -> line_text v' -> line_end post' ->
          length skipped <= length skipped'
  | None =>
      forall skipped' v' post',
        s = skipped' ++ tocPrefix ++ v' ++ post' ->
        line_start (rev before ++ skipped') ->
        v' <> [] -> line_text v' -> line_end post' -> False
  end.
Proof.
  revert before; induction s as [|c s IH]; intros before.
  - cbn [exec_from]. rewrite match_nodes_toc.
    destruct (match_here (last_char (rev before)) []) as [[v rest]|] eqn:E.
    + apply match_here_spec in E as (_ & E & _). discriminate.
    + intros [|x sk] v' post' E1; discriminate.
  - cbn [exec_from]. rewrite match_nodes_toc.
    destruct (match_here (last_char (rev before)) (c :: s))
      as [[v rest]|] eqn:E.
    + apply match_here_spec in E as (Hs & E & Hv & Ht & He).
      exists [], v. cbn [m_before m_after m_captures m_matched].
      rewrite app_nil_r. repeat split; auto.
      * rewrite E, app_assoc. rewrite firstn_matched. reflexivity.
      * simpl; lia.
    + specialize (IH (c :: before)).
      assert (Hp : last_char (rev (c :: before)) = Some c)
        by (simpl; apply last_char_snoc).
      rewrite Hp in IH.
      assert (Hhead : forall v' post',
                 c :: s = tocPrefix ++ v' ++ post' ->
                 line_start (rev before) ->
                 v' <> [] -> line_text v' -> line_end post' -> False).
      { intros v' post' E1 H1 H2 H3 H4.
        assert (match_here (last_char (rev before)) (c :: s) = Some (v', post'))
          by (apply match_here_spec; auto).
        congruence. }
      destruct (exec_from tocPattern (c :: before) (Some c) s) as [m|].
      * destruct IH as (sk & v & Hb & Hs & Hl & Hv & Ht & He & Hc & Hm & Hmin).
        exists (c :: sk), v. simpl in Hb, Hl. rewrite <- app_assoc in Hb, Hl.
        repeat split; auto.
        -- rewrite Hs at 1. reflexivity.
        -- intros [|x sk'] v' post' E1 H1 H2 H3 H4.
           ++ exfalso. rewrite app_nil_r in H1. eapply Hhead; eauto.
           ++ simpl in E1. injection E1 as <- E1. simpl.
              apply le_n_S. apply (Hmin sk' v' post'); auto.
              simpl. now rewrite <- app_assoc.
      * intros [|x sk'] v' post' E1 H1 H2 H3 H4.
        -- rewrite app_nil_r in H1. eapply Hhead; eauto.
        -- simpl in E1. injection E1 as <- E1.
           apply (IH sk' v' post'); auto.
           simpl. now rewrite <- app_assoc.
Qed.

Lemma exec_toc_Some (content : jsstring) (m : Match) :
  exec tocPattern content = Some m ->
  exists v,
    first_version_line content (m_before m) v (m_after m) /\
    m_captures m = [v] /\ m_matched m = tocPrefix ++ v.
Proof.
  intros E. pose proof (exec_from_toc content []) as H.
  unfold exec in E. cbn [rev app] in H.
  change (last_char []) with (@None char) in H.
  rewrite E in H.
  destruct H as (sk & v & Hb & Hs & Hl & Hv & Ht & He & Hc & Hm & Hmin).
  cbn [rev app] in Hb, Hl. exists v. unfold first_version_line, version_line.
  rewrite Hb. repeat split; auto.
  intros pre' v' post' (E1 & H1 & H2 & H3 & H4).
  exact (Hmin pre' v' post' E1 H1 H2 H3 H4).
Qed.

Lemma exec_toc_None (content : jsstring) :
  exec tocPattern content = None ->
  forall pre v post, ~ version_line content pre v post.
Proof.
  intros E pre v post (E1 & H1 & H2 & H3 & H4).
  pose proof (exec_from_toc content []) as H.
  unfold exec in E. cbn [rev app] in H.
  change (last_char []) with (@None char) in H.
  rewrite E in H. exact (H pre v post E1 H1 H2 H3 H4).
Qed.

Lemma app_eq_length (A : Type) (a a' b b' : list A) :
  a ++ b = a' ++ b' -> length a = length a' -> a = a' /\ b = b'.
Proof.
  revert a'; induction a as [|x a IH]; intros [|y a']; simpl;
    try discriminate; auto.
  intros [= -> E] [= L]. destruct (IH a' E L) as [-> ->]. auto.
Qed.

Lemma version_line_tail_unique (v post v' post' : jsstring) :
  line_text v -> line_end post -> line_text v' -> line_end post' ->
  v ++ post = v' ++ post' -> v = v' /\ post = post'.
Proof.
  intros Hv Hp Hv' Hp' E.
  pose proof (span_unique not_terminator v post Hv (line_end_head Hp)) as S1.
  pose proof (span_unique not_terminator v' post' Hv' (line_end_head Hp'))
    as S2.
  rewrite E, S2 in S1. injection S1 as -> ->. auto.
Qed.

Lemma first_version_line_unique (c pre v post pre' v' post' : jsstring) :
  first_version_line c pre v post ->
  first_version_line c pre' v' post' ->
  pre = pre' /\ v = v' /\ post = post'.
Proof.
  intros [V1 M1] [V2 M2].
  pose proof (M1 _ _ _ V2). pose proof (M2 _ _ _ V1).
  destruct V1 as (E1 & _ & _ & T1 & L1), V2 as (E2 & _ & _ & T2 & L2).
  rewrite E1 in E2. apply app_eq_length in E2 as [-> E2]; [|lia].
  apply app_inv_head in E2.
  destruct (version_line_tail_unique T1 L1 T2 L2 E2) as [-> ->]. auto.
Qed.

Lemma exec_toc_first (c pre v post : jsstring) :
  first_version_line c pre v post ->
  exec tocPattern c =
  Some {| m_before := pre; m_matched := tocPrefix ++ v;
          m_captures := [v]; m_after := post |}.
Proof.
  intros F. destruct (exec tocPattern c) as [m|] eqn:E.
  - destruct (exec_toc_Some _ E) as (v0 & F0 & Hc & Hm).
    destruct (first_version_line_unique F0 F) as (Hb & -> & Ha).
    destruct m; simpl in *; subst; reflexivity.
  - exfalso. destruct F as [V _]. exact (exec_toc_None E V).
Qed.

(** A template without [$] is inserted as it is. *)
Lemma GetSubstitution_dollar_free (m : Match) (t : jsstring) :
  dollar_free t -> GetSubstitution m t = t.
Proof.
  unfold dollar_free. induction t as [|c t IH]; [reflexivity|].
  cbn [forallb]. intros H. apply andb_true_iff in H as [Hc Ht].
  cbn [GetSubstitution]. rewrite Hc. now rewrite IH.
Qed.

Lemma dollar_free_app (a b : jsstring) :
  dollar_free a -> dollar_free b -> dollar_free (a ++ b).
Proof.
  unfold dollar_free. intros Ha Hb. rewrite forallb_app, Ha, Hb. reflexivity.
Qed.

Lemma tocPrefix_dollar_free : dollar_free tocPrefix.
Proof. reflexivity. Qed.

Lemma tocPrefix_line_text : line_text tocPrefix.
Proof. reflexivity. Qed.

Lemma line_text_app (a b : jsstring) :
  line_text a -> line_text b -> line_text (a ++ b).
Proof.
  unfold line_text. intros Ha Hb. rewrite forallb_app, Ha, Hb. reflexivity.
Qed.

(** What [updateVersionInContent] does on a content with a version line,
    and on one without. *)
Lemma update_on_first_line (c pre v post V : jsstring) :
  first_version_line c pre v post -> dollar_free V ->
  updateVersionInContent c V = pre ++ tocPrefix ++ V ++ post.
Proof.
  intros F HV. unfold updateVersionInContent, replace.
  rewrite (exec_toc_first F). cbn [m_before m_after].
  rewrite GetSubstitution_dollar_free
    by (apply dollar_free_app; [apply tocPrefix_dollar_free | exact HV]).
  now rewrite <- app_assoc.
Qed.

Lemma update_without_line (c V : jsstring) :
  (forall pre v post, ~ version_line c pre v post) ->
  updateVersionInContent c V = c.
Proof.
  intros H. unfold updateVersionInContent, replace.
  destruct (exec tocPattern c) as [m|] eqn:E; [|reflexivity].
  destruct (exec_toc_Some _ E) as (v & [F _] & _). exfalso. exact (H _ _ _ F).
Qed.

(* ================================================================= *)
(** * Rewriting twice *)

Lemma last_char_cons (c : char) (s : jsstring) :
  s <> [] -> last_char (c :: s) = last_char s.
Proof.
  unfold last_char. simpl. intros H.
  destruct (rev s) as [|x r] eqn:E; [|reflexivity].
  apply (f_equal (@rev char)) in E. rewrite rev_involutive in E.
  contradiction.
Qed.

Lemma last_char_app (a b : jsstring) :
  b <> [] -> last_char (a ++ b) = last_char b.
Proof.
  intros Hb. induction a as [|c a IH]; [reflexivity|].
  simpl. rewrite last_char_cons; [exact IH|].
  destruct a; [exact Hb | discriminate].
Qed.

Lemma prefix_split (A : Type) (p q x z : list A) :
  p ++ x = q ++ z -> length q < length p ->
  exists mid, mid <> [] /\ p = q ++ mid /\ z = mid ++ x.
Proof.
  revert p; induction q as [|y q IH]; intros p E L.
  - exists p. simpl in *. destruct p; [simpl in L; lia|].
    repeat split; auto. discriminate.
  - destruct p as [|y' p]; [simpl in L; lia|].
    simpl in E, L. injection E as -> E.
    destruct (IH p E) as (mid & Hm & -> & ->); [lia|].
    exists mid. auto.
Qed.

Lemma span_app_rest (f : char -> bool) (s y : jsstring) :
  snd (span f s) <> [] ->
  span f (s ++ y) = (fst (span f s), snd (span f s) ++ y).
Proof.
  induction s as [|c s IH]; simpl; [contradiction|].
  destruct (f c); [|reflexivity].
  destruct (span f s) as [a b]; simpl in *. intros H.
  rewrite (IH H). reflexivity.
Qed.

(** A text that ends with a line terminator contains one. *)
Lemma span_reaches_terminator (mid : jsstring) :
  mid <> [] -> line_start mid -> snd (span not_terminator mid) <> [].
Proof.
  unfold line_start. induction mid as [|c m IH]; [contradiction|].
  intros _ H. simpl.
  destruct (not_terminator c) eqn:E; [|discriminate].
  destruct m as [|d m].
  - exfalso. unfold last_char in H. simpl in H.
    unfold not_terminator in E. rewrite H in E. discriminate.
  - rewrite last_char_cons in H by discriminate.
    specialize (IH ltac:(discriminate) H).
    destruct (span not_terminator (d :: m)) as [a b]. exact IH.
Qed.

(** A version line that starts before [pre] lies within [pre] when [pre]
    ends a line: it does not depend on what follows [pre]. *)
Lemma version_line_transfer (pre x y pre' v' post' : jsstring) :
  line_start pre -> length pre' < length pre ->
  version_line (pre ++ x) pre' v' post' ->
  exists post3, version_line (pre ++ y) pre' v' post3.
Proof.
  intros Hs L (E & H1 & H2 & H3 & H4).
  destruct (prefix_split _ _ _ _ E L) as (mid & Hm & -> & Ez).
  assert (Hl : line_start mid)
    by (unfold line_start in *; now rewrite last_char_app in Hs).
  pose proof (span_reaches_terminator Hm Hl) as Hne.
  pose proof (span_app_rest not_terminator mid x Hne) as Sx.
  assert (Ht : line_text (tocPrefix ++ v'))
    by (apply line_text_app; [apply tocPrefix_line_text | exact H3]).
  rewrite <- Ez, app_assoc in Sx.
  rewrite (span_unique not_terminator _ _ Ht (line_end_head H4)) in Sx.
  injection Sx as Ea Eb.
  pose proof (span_app not_terminator mid) as Hmid.
  pose proof (span_rest not_terminator mid) as Hr.
  destruct (snd (span not_terminator mid)) as [|t b] eqn:Eb'; [contradiction|].
  exists ((t :: b) ++ y). repeat split; auto.
  - rewrite <- Hmid, <- Ea, <- !app_assoc. reflexivity.
  - unfold line_end. simpl. unfold not_terminator in Hr.
    now apply negb_false_iff in Hr.
Qed.

Lemma first_version_line_update (c pre v post V : jsstring) :
  first_version_line c pre v post ->
  V <> [] -> line_text V ->
  first_version_line (pre ++ tocPrefix ++ V ++ post) pre V post.
Proof.
  intros [(E & H1 & H2 & H3 & H4) Hmin] HV HT. split.
  - repeat split; auto.
  - intros pre' v' post' VL.
    destruct (le_lt_dec (length pre) (length pre')) as [|L]; [assumption|].
    destruct (@version_line_transfer pre (tocPrefix ++ V ++ post)
                (tocPrefix ++ v ++ post) pre' v' post' H1 L VL)
      as (post3 & VL3).
    rewrite <- E in VL3. exact (Hmin _ _ _ VL3).
Qed.

Lemma version_line_dec (c : jsstring) :
  (exists pre v post, first_version_line c pre v post) \/
  (forall pre v post, ~ version_line c pre v post).
Proof.
  destruct (exec tocPattern c) as [m|] eqn:E.
  - left. destruct (exec_toc_Some _ E) as (v & F & _). eauto.
  - right. intros pre v post. exact (@exec_toc_None c E pre v post).
Qed.

Lemma line_text_no_CR (v : jsstring) :
  line_text v -> ~ In CR v /\ ~ In LF v.
Proof.
  unfold line_text. rewrite forallb_forall. intros H.
  split; intros Hin; apply H in Hin; discriminate.
Qed.

(** C2. [updateVersionInContent] replaces the first line of the form
    [## Version: <anything>] by [## Version: <newVersion>] and keeps the
    text before and after that line as it is; rewriting the result again
    touches the same line only, so that two rewrites differ from the
    original content in that one line; and a content without such a line
    is returned unchanged.  Versions are non-empty texts without line
    terminators and without the replacement character [$]. *)
Theorem updateVersionInContent_rewrites_one_line
    (content V1 V2 : jsstring) :
  version_text V1 -> version_text V2 ->
  (exists pre v post,
      first_version_line content pre v post /\
      updateVersionInContent content V1 = pre ++ tocPrefix ++ V1 ++ post /\
      updateVersionInContent (updateVersionInContent content V1) V2
        = pre ++ tocPrefix ++ V2 ++ post)
  \/
  ((forall pre v post, ~ version_line content pre v post) /\
   forall V, updateVersionInContent content V = content).
Proof.
  intros (N1 & T1 & D1) (N2 & T2 & D2).
  destruct (version_line_dec content) as [(pre & v & post & F)|No].
  - left. exists pre, v, post.
    pose proof (update_on_first_line F D1) as U1.
    split; [exact F|]. split; [exact U1|].
    rewrite U1.
    apply (@update_on_first_line _ pre V1 post V2); [|exact D2].
    apply (first_version_line_update F N1 T1).
  - right. split; [exact No|]. intros V. now apply update_without_line.
Qed.

(* ================================================================= *)
(** * Numbers: the comparison is a total preorder away from NaN *)

Lemma num_cmp_key (a b : number) :
  is_nan a = false -> is_nan b = false ->
  num_cmp a b = key_cmp (num_key a) (num_key b).
Proof.
  unfold num_cmp.
  destruct a as [sa|sa| |sa ma ea], b as [sb|sb| |sb mb eb];
    try discriminate; intros _ _;
    try destruct sa; try destruct sb; try reflexivity.
  - simpl. rewrite Z.compare_opp.
    destruct (Z.compare_spec ea eb) as [->|L|L].
    + rewrite Z.compare_refl.
      change (Zneg ma ?= Zneg mb)%Z with (CompOpp (Pos.compare ma mb)).
      unfold Pos.compare. destruct (Pos.compare_cont Eq ma mb); reflexivity.
    + apply Z.compare_gt_iff in L. rewrite L. reflexivity.
    + apply Z.compare_lt_iff in L. rewrite L. reflexivity.
  - simpl. destruct (ea ?= eb)%Z; try reflexivity.
    change (Zpos ma ?= Zpos mb)%Z with (Pos.compare ma mb).
    unfold Pos.compare. destruct (Pos.compare_cont Eq ma mb); reflexivity.
Qed.

Lemma key_cmp_eq (a b : list Z) : key_cmp a b = Eq <-> a = b.
Proof.
  revert b; induction a as [|x a IH]; intros [|y b]; simpl;
    try (split; discriminate); [tauto|].
  destruct (Z.compare_spec x y) as [->|L|L].
  - rewrite IH. split; [intros ->; reflexivity | intros [= ->]; reflexivity].
  - split; [discriminate | intros [= -> _]; lia].
  - split; [discriminate | intros [= -> _]; lia].
Qed.

Lemma key_cmp_opp (a b : list Z) : key_cmp b a = CompOpp (key_cmp a b).
Proof.
  revert b; induction a as [|x a IH]; intros [|y b]; simpl; try reflexivity.
  rewrite (Z.compare_antisym x y).
  destruct (x ?= y)%Z; simpl; auto.
Qed.

Lemma key_cmp_lt_trans (a b c : list Z) :
  key_cmp a b = Lt -> key_cmp b c = Lt -> key_cmp a c = Lt.
Proof.
  revert b c; induction a as [|x a IH]; intros [|y b] [|z c]; simpl;
    try discriminate; auto.
  destruct (Z.compare_spec x y) as [->|L|L]; try discriminate.
  - destruct (Z.compare_spec y z) as [->|L'|L']; try discriminate; auto.
    apply IH.
  - intros _. destruct (Z.compare_spec y z) as [->|L'|L']; try discriminate;
      intros _.
    + destruct (Z.compare_spec x z); auto; lia.
    + destruct (Z.compare_spec x z); auto; lia.
Qed.

Lemma key_cmp_app (a a' b b' : list Z) :
  length a = length b ->
  key_cmp (a ++ a') (b ++ b') =
  match key_cmp a b with Eq => key_cmp a' b' | c => c end.
Proof.
  revert b; induction a as [|x a IH]; intros [|y b]; simpl;
    try discriminate; auto.
  intros [= L]. destruct (x ?= y)%Z; auto.
Qed.

Lemma num_key_length (x : number) : length (num_key x) = 3.
Proof. destruct x as [s|s| |s m e]; try destruct s; reflexivity. Qed.

Lemma tuple_cmp_key (a b : Parsed.t) :
  numeric a -> numeric b ->
  tuple_cmp a b = key_cmp (tuple_key a) (tuple_key b).
Proof.
  intros (A1 & A2 & A3) (B1 & B2 & B3). unfold tuple_cmp, tuple_key.
  rewrite !key_cmp_app by (rewrite !num_key_length; reflexivity).
  rewrite <- !num_cmp_key by assumption. reflexivity.
Qed.

Lemma tuple_cmp_opp (a b : Parsed.t) :
  numeric a -> numeric b -> tuple_cmp b a = CompOpp (tuple_cmp a b).
Proof.
  intros A B. rewrite !tuple_cmp_key by assumption. apply key_cmp_opp.
Qed.

Lemma tuple_cmp_lt_trans (a b c : Parsed.t) :
  numeric a -> numeric b -> numeric c ->
  tuple_cmp a b = Lt -> tuple_cmp b c = Lt -> tuple_cmp a c = Lt.
Proof.
  intros A B C. rewrite !tuple_cmp_key by assumption.
  apply key_cmp_lt_trans.
Qed.

Lemma tuple_cmp_le_lt (a b c : Parsed.t) :
  numeric a -> numeric b -> numeric c ->
  tuple_cmp a b <> Gt -> tuple_cmp b c = Lt -> tuple_cmp a c = Lt.
Proof.
  intros A B C. rewrite !tuple_cmp_key by assumption. intros H1 H2.
  destruct (key_cmp (tuple_key a) (tuple_key b)) eqn:E.
  - apply key_cmp_eq in E. now rewrite E.
  - eapply key_cmp_lt_trans; eauto.
  - contradiction.
Qed.

(** ** The tuples built by [parse_parts] *)

Lemma or_zero_not_nan (x : option number) : is_nan (or_zero x) = false.
Proof. destruct x as [[s|s| |s m e]|]; reflexivity. Qed.

Lemma parse_parts_numeric (file : TocFile) : numeric (parse_parts file).
Proof. repeat split; apply or_zero_not_nan. Qed.

Lemma SFcompare_num_cmp (a b : number) :
  is_nan a = false -> is_nan b = false ->
  SFcompare a b = Some (num_cmp a b).
Proof.
  unfold num_cmp.
  destruct a as [sa|sa| |sa ma ea], b as [sb|sb| |sb mb eb];
    try discriminate; reflexivity.
Qed.

Lemma num_cmp_opp (a b : number) :
  is_nan a = false -> is_nan b = false ->
  num_cmp b a = CompOpp (num_cmp a b).
Proof.
  intros A B. rewrite !num_cmp_key by assumption. apply key_cmp_opp.
Qed.

(** On numbers that are not NaN, [>] and [<] are the two strict cases of
    the comparison. *)
Lemma num_gt_cmp (a b : number) :
  is_nan a = false -> is_nan b = false ->
  num_gt a b = match num_cmp a b with Gt => true | _ => false end.
Proof.
  intros A B. unfold num_gt, SFltb.
  rewrite (SFcompare_num_cmp b a B A), (num_cmp_opp a b A B).
  destruct (num_cmp a b); reflexivity.
Qed.

Lemma num_lt_cmp (a b : number) :
  is_nan a = false -> is_nan b = false ->
  num_lt a b = match num_cmp a b with Lt => true | _ => false end.
Proof.
  intros A B. unfold num_lt, SFltb.
  rewrite (SFcompare_num_cmp a b A B). reflexivity.
Qed.

(** The callback of [reduce] keeps the accumulator unless the current
    tuple is strictly higher. *)
Lemma higher_cmp (max current : Parsed.t) :
  numeric max -> numeric current ->
  higher max current =
  match tuple_cmp current max with Gt => current | _ => max end.
Proof.
  intros (A1 & A2 & A3) (B1 & B2 & B3). unfold higher, tuple_cmp.
  rewrite !num_gt_cmp, !num_lt_cmp by assumption.
  destruct (num_cmp (Parsed.major current) (Parsed.major max));
    destruct (num_cmp (Parsed.minor current) (Parsed.minor max));
    destruct (num_cmp (Parsed.patch current) (Parsed.patch max));
    reflexivity.
Qed.

(* ================================================================= *)
(** * Decimal numerals *)

(** Boolean tests on characters, turned into arithmetic. *)
Ltac char_cases :=
  simpl; try reflexivity; try discriminate; try lia;
  match goal with
  | |- context [(?a <=? ?b)%N] => destruct (N.leb_spec a b); char_cases
  | |- context [(?a =? ?b)%N] => destruct (N.eqb_spec a b); char_cases
  end.

Ltac char_arith :=
  unfold is_digit, is_white_space, is_line_terminator, char_eqb, DOT,
    DOLLAR, SPACE in *;
  repeat match goal with
         | H : _ && _ = true |- _ => apply andb_true_iff in H as [? ?]
         | H : (_ <=? _)%N = true |- _ => apply N.leb_le in H
         | H : (_ =? _)%N = true |- _ => apply N.eqb_eq in H
         | H : (_ =? _)%N = false |- _ => apply N.eqb_neq in H
         | H : negb _ = true |- _ => apply negb_true_iff in H
         end;
  char_cases.

Lemma uint_chars_digits (u : Decimal.uint) :
  forallb is_digit (uint_chars u) = true.
Proof. induction u; simpl; auto. Qed.

Lemma digits_value_acc (ds : jsstring) (acc : positive) (u : Decimal.uint) :
  ds = uint_chars u ->
  fold_left (fun a c => (10 * a + digit_value c)%N) ds (Npos acc)
  = Npos (Pos.of_uint_acc u acc).
Proof.
  intros ->. revert acc; induction u; intros acc;
    cbn [uint_chars fold_left Pos.of_uint_acc]; auto;
    rewrite <- IHu; f_equal; unfold digit_value; lia.
Qed.

Lemma decimal_value_uint (u : Decimal.uint) :
  decimal_value (uint_chars u) = N.of_uint u.
Proof.
  unfold decimal_value, digits_value, N.of_uint.
  induction u; cbn [uint_chars fold_left Pos.of_uint]; auto;
    match goal with
    | |- fold_left _ _ ?a = _ =>
        let p := eval vm_compute in a in
        change a with p
    end;
    apply digits_value_acc; reflexivity.
Qed.

Lemma decimal_value_string (n : N) : decimal_value (decimal_string n) = n.
Proof.
  unfold decimal_string. rewrite decimal_value_uint.
  apply DecimalN.Unsigned.of_to.
Qed.

Lemma decimal_string_digits (n : N) :
  forallb is_digit (decimal_string n) = true.
Proof. apply uint_chars_digits. Qed.

(** A numeral has no leading zero, except [0] itself. *)
Lemma decimal_string_canonical (n : N) :
  exists c rest,
    decimal_string n = c :: rest /\
    (negb (c =? 48)%N || is_empty rest) = true.
Proof.
  unfold decimal_string.
  assert (E : N.to_uint n = Decimal.unorm (N.to_uint n)).
  { rewrite <- (DecimalN.Unsigned.of_to n) at 1.
    apply DecimalN.Unsigned.to_of. }
  rewrite E. unfold Decimal.unorm.
  pose proof (@DecimalFacts.nzhead_nonzero (N.to_uint n)) as NZ.
  destruct (Decimal.nzhead (N.to_uint n)) as [|u|u|u|u|u|u|u|u|u|u];
    simpl; eauto.
  exfalso. exact (NZ u eq_refl).
Qed.

Lemma digits_value_lower_bound (ds : jsstring) (acc : N) :
  (acc * 10 ^ N.of_nat (length ds)
   <= fold_left (fun a c => 10 * a + digit_value c) ds acc)%N.
Proof.
  revert acc; induction ds as [|c ds IH]; intros acc.
  - simpl. lia.
  - cbn [fold_left length]. rewrite Nat2N.inj_succ, N.pow_succ_r'.
    etransitivity; [|apply IH]. nia.
Qed.

Lemma decimal_string_length (n : N) :
  (n < 10 ^ 16)%N -> length (decimal_string n) <= 16.
Proof.
  intros Hn.
  destruct (decimal_string_canonical n) as (c & rest & E & Hc).
  pose proof (decimal_string_digits n) as Hd.
  pose proof (decimal_value_string n) as Hv.
  rewrite E in *. cbn [forallb] in Hd. apply andb_true_iff in Hd as [Hd _].
  apply orb_true_iff in Hc as [Hc|Hc].
  - unfold decimal_value, digits_value in Hv. cbn [fold_left] in Hv.
    pose proof (digits_value_lower_bound rest (10 * 0 + digit_value c)) as B.
    rewrite Hv in B.
    assert (1 <= digit_value c)%N
      by (unfold digit_value; char_arith).
    assert (L : (10 ^ N.of_nat (length rest) < 10 ^ 16)%N) by nia.
    apply N.pow_lt_mono_r_iff in L; [|lia]. simpl. lia.
  - destruct rest; [simpl; lia | discriminate].
Qed.

(* ================================================================= *)
(** * [@std/semver] on the text of three numbers *)

Lemma digit_not_white_space (c : char) :
  is_digit c = true -> is_white_space c = false.
Proof. intros H. char_arith. Qed.

Lemma cut_absent (c : char) (s : jsstring) :
  forallb (fun x => negb (char_eqb x c)) s = true ->
  Semver.cut c s = (s, None).
Proof.
  induction s as [|x s IH]; simpl; [reflexivity|].
  intros H. apply andb_true_iff in H as [Hx Hs].
  apply negb_true_iff in Hx. rewrite Hx, (IH Hs). reflexivity.
Qed.

Lemma split_on_absent (sep : char) (s : jsstring) :
  forallb (fun x => negb (char_eqb x sep)) s = true ->
  split_on sep s = [s].
Proof.
  induction s as [|x s IH]; simpl; [reflexivity|].
  intros H. apply andb_true_iff in H as [Hx Hs].
  apply negb_true_iff in Hx. rewrite Hx, (IH Hs). reflexivity.
Qed.

Lemma split_on_app (sep : char) (a r : jsstring) :
  forallb (fun x => negb (char_eqb x sep)) a = true ->
  split_on sep (a ++ sep :: r) = a :: split_on sep r.
Proof.
  induction a as [|x a IH]; simpl.
  - intros _. now rewrite char_eqb_refl.
  - intros H. apply andb_true_iff in H as [Hx Hs].
    apply negb_true_iff in Hx. rewrite Hx, (IH Hs). reflexivity.
Qed.

Lemma forallb_impl (f g : char -> bool) (s : jsstring) :
  (forall c, f c = true -> g c = true) ->
  forallb f s = true -> forallb g s = true.
Proof.
  intros H. induction s as [|c s IH]; simpl; auto.
  intros E. apply andb_true_iff in E as [E1 E2].
  now rewrite (H c E1), (IH E2).
Qed.

Lemma version_string_chars (M m p : N) :
  forallb version_char (version_string M m p) = true.
Proof.
  unfold version_string. rewrite !forallb_app. cbn [forallb].
  rewrite !(forallb_impl is_digit version_char _ (fun c H =>
             eq_trans (f_equal (fun b => b || char_eqb c DOT) H) eq_refl)
             (decimal_string_digits _)).
  reflexivity.
Qed.

Lemma digits_without (c : char) (s : jsstring) :
  is_digit c = false ->
  forallb is_digit s = true ->
  forallb (fun x => negb (char_eqb x c)) s = true.
Proof.
  intros Hc. apply forallb_impl. intros x Hx.
  apply negb_true_iff. apply N.eqb_neq. intros ->. congruence.
Qed.

Lemma version_chars_without (c : char) (s : jsstring) :
  version_char c = false ->
  forallb version_char s = true ->
  forallb (fun x => negb (char_eqb x c)) s = true.
Proof.
  intros Hc. apply forallb_impl. intros x Hx.
  apply negb_true_iff. apply N.eqb_neq. intros ->. congruence.
Qed.

Lemma split_dot_version_string (M m p : N) :
  split_dot (version_string M m p)
  = [decimal_string M; decimal_string m; decimal_string p].
Proof.
  unfold split_dot, version_string. cbn [app].
  rewrite !split_on_app, split_on_absent;
    auto using digits_without, decimal_string_digits.
Qed.

Lemma numeric_identifier_decimal (n : N) :
  (n <= Semver.MAX_SAFE_INTEGER)%N ->
  Semver.numeric_identifier (decimal_string n) = Some n.
Proof.
  intros Hn. destruct (decimal_string_canonical n) as (c & rest & E & Hc).
  unfold Semver.numeric_identifier.
  pose proof (decimal_string_digits n) as Hd.
  pose proof (decimal_value_string n) as Hv.
  rewrite E in *. rewrite Hd, Hc, Hv. simpl.
  apply N.leb_le in Hn. now rewrite Hn.
Qed.

Lemma trim_id (s : jsstring) :
  match s with c :: _ => is_white_space c = false | [] => True end ->
  match rev s with d :: _ => is_white_space d = false | [] => True end ->
  trim s = s.
Proof.
  intros H1 H2. unfold trim.
  assert (E1 : trim_start s = s) by (destruct s; simpl; [|rewrite H1]; auto).
  rewrite E1.
  assert (E2 : trim_start (rev s) = rev s)
    by (destruct (rev s); simpl; [|rewrite H2]; auto).
  rewrite E2. apply rev_involutive.
Qed.

Lemma version_string_head (M m p : N) :
  exists c rest, version_string M m p = c :: rest /\ is_digit c = true.
Proof.
  unfold version_string.
  destruct (decimal_string_canonical M) as (c & rest & E & _).
  pose proof (decimal_string_digits M) as Hd. rewrite E in *.
  apply andb_true_iff in Hd as [Hd _]. simpl. eauto.
Qed.

Lemma version_string_last (M m p : N) :
  exists d rest, rev (version_string M m p) = d :: rest /\ is_digit d = true.
Proof.
  unfold version_string. rewrite !rev_app_distr.
  destruct (decimal_string_canonical p) as (c & rest & E & _).
  pose proof (decimal_string_digits p) as Hd.
  destruct (rev (decimal_string p)) as [|d r] eqn:Er.
  - apply (f_equal (@rev char)) in Er. rewrite rev_involutive, E in Er.
    discriminate.
  - exists d. eexists. split; [rewrite <- !app_assoc; reflexivity|].
    rewrite forallb_forall in Hd. apply Hd, in_rev. rewrite Er. left; auto.
Qed.

Lemma version_string_length (M m p : N) :
  (M <= Semver.MAX_SAFE_INTEGER)%N -> (m <= Semver.MAX_SAFE_INTEGER)%N ->
  (p <= Semver.MAX_SAFE_INTEGER)%N ->
  length (version_string M m p) <= 50.
Proof.
  unfold Semver.MAX_SAFE_INTEGER. intros HM Hm Hp.
  unfold version_string. rewrite !length_app. simpl.
  assert (B : (9007199254740991 < 10 ^ 16)%N) by reflexivity.
  pose proof (@decimal_string_length M ltac:(lia)).
  pose proof (@decimal_string_length m ltac:(lia)).
  pose proof (@decimal_string_length p ltac:(lia)). lia.
Qed.

(** [parse] accepts the text of three safe integers. *)
Lemma parse_version_string (M m p : N) :
  (M <= Semver.MAX_SAFE_INTEGER)%N -> (m <= Semver.MAX_SAFE_INTEGER)%N ->
  (p <= Semver.MAX_SAFE_INTEGER)%N ->
  Semver.parse (version_string M m p)
  = Some {| Semver.major := M; Semver.minor := m; Semver.patch := p;
            Semver.prerelease := []; Semver.build := [] |}.
Proof.
  intros HM Hm Hp. unfold Semver.parse.
  pose proof (version_string_length HM Hm Hp) as L.
  destruct (Nat.ltb_spec Semver.MAX_LENGTH (length (version_string M m p)))
    as [L'|_]; [unfold Semver.MAX_LENGTH in L'; lia|].
  destruct (version_string_head M m p) as (c & rest & E & Hc).
  destruct (version_string_last M m p) as (d & rest' & E' & Hd).
  rewrite trim_id;
    [ | rewrite E; now apply digit_not_white_space
      | rewrite E'; now apply digit_not_white_space ].
  pose proof (version_string_chars M m p) as Hv.
  assert (Hnv : match version_string M m p with
                | c :: t' => if (c =? 118)%N then t' else version_string M m p
                | [] => version_string M m p
                end = version_string M m p).
  { rewrite E. destruct (N.eqb_spec c 118) as [->|]; [discriminate|].
    reflexivity. }
  rewrite Hnv.
  rewrite (cut_absent 43%N) by (now apply version_chars_without).
  rewrite (cut_absent 45%N) by (now apply version_chars_without).
  rewrite split_dot_version_string.
  rewrite !numeric_identifier_decimal by assumption. reflexivity.
Qed.

Lemma format_increment (bump : BumpType) (M m p : N) :
  Semver.format
    (Semver.increment
       {| Semver.major := M; Semver.minor := m; Semver.patch := p;
          Semver.prerelease := []; Semver.build := [] |} bump)
  = bumped bump M m p.
Proof.
  destruct bump; unfold Semver.format, Semver.increment, bumped;
    cbn [Semver.major Semver.minor Semver.patch Semver.prerelease
         Semver.build join is_empty negb];
    rewrite ?orb_true_r; reflexivity.
Qed.

(* ================================================================= *)
(** * Safe integers as numbers *)

Lemma digits2_pos_bounds (p : positive) :
  (2 ^ (Zpos (digits2_pos p) - 1) <= Zpos p < 2 ^ Zpos (digits2_pos p))%Z.
Proof.
  induction p as [p IH|p IH|]; cbn [digits2_pos].
  - rewrite Pos2Z.inj_succ.
    replace (Z.succ (Zpos (digits2_pos p)) - 1)%Z
      with (Z.succ (Zpos (digits2_pos p) - 1)) by lia.
    rewrite !Z.pow_succ_r by lia. lia.
  - rewrite Pos2Z.inj_succ.
    replace (Z.succ (Zpos (digits2_pos p)) - 1)%Z
      with (Z.succ (Zpos (digits2_pos p) - 1)) by lia.
    rewrite !Z.pow_succ_r by lia. lia.
  - simpl. lia.
Qed.

Lemma iter_xO_value (p k : positive) :
  Zpos (Pos.iter xO p k) = (Zpos p * 2 ^ Zpos k)%Z.
Proof.
  induction k as [|k IH] using Pos.peano_ind.
  - simpl. lia.
  - rewrite Pos.iter_succ, Pos2Z.inj_succ, Z.pow_succ_r by lia.
    rewrite Pos2Z.inj_xO, IH. lia.
Qed.

Lemma iter_xO_digits (p k : positive) :
  digits2_pos (Pos.iter xO p k) = (digits2_pos p + k)%positive.
Proof.
  induction k as [|k IH] using Pos.peano_ind.
  - simpl. lia.
  - rewrite Pos.iter_succ. cbn [digits2_pos]. rewrite IH. lia.
Qed.

(** A mantissa of 53 digits with an exponent in range is not rounded. *)
Lemma binary_round_aux_exact (m : positive) (e : Z) :
  Zpos (digits2_pos m) = 53%Z -> (-1074 <= e <= 971)%Z ->
  binary_round_aux prec emax false (Zpos m) e loc_Exact
  = S754_finite false m e.
Proof.
  intros Hm He. unfold binary_round_aux.
  assert (S : shr_fexp prec emax (Zpos m) e loc_Exact
              = ({| shr_m := Zpos m; shr_r := false; shr_s := false |}, e)).
  { unfold shr_fexp. cbn [Zdigits2]. rewrite Hm.
    replace (fexp prec emax (53 + e) - e)%Z with 0%Z
      by (unfold fexp, emin, prec, emax; lia).
    reflexivity. }
  rewrite S. cbn [shr_m loc_of_shr_record round_nearest_even]. rewrite S.
  cbn [shr_m].
  destruct (Z.leb_spec e (emax - prec)) as [_|L];
    [reflexivity | unfold emax, prec in L; lia].
Qed.

Lemma number_of_Z_exact (p : positive) :
  (Zpos (digits2_pos p) <= 53)%Z ->
  number_of_Z (Zpos p) = exact_number p.
Proof.
  intros Hd. unfold number_of_Z, binary_normalize, binary_round, exact_number.
  set (d := digits2_pos p) in *.
  assert (F : fexp prec emax (Zpos d + 0) = (Zpos d - 53)%Z)
    by (unfold fexp, emin, prec, emax; lia).
  rewrite F. unfold shl_align. rewrite Z.sub_0_r.
  destruct (Zpos d - 53)%Z as [|q|k] eqn:E; [| lia |].
  - apply binary_round_aux_exact; [fold d; lia | lia].
  - apply binary_round_aux_exact; [|lia].
    rewrite iter_xO_digits. fold d. lia.
Qed.

Lemma digits2_pos_safe (p : positive) :
  (Zpos p < 2 ^ 53)%Z -> (Zpos (digits2_pos p) <= 53)%Z.
Proof.
  intros H. destruct (Z.le_gt_cases (Zpos (digits2_pos p)) 53) as [L|L];
    [exact L|exfalso].
  pose proof (digits2_pos_bounds p) as [B _].
  assert (2 ^ 53 <= 2 ^ (Zpos (digits2_pos p) - 1))%Z
    by (apply Z.pow_le_mono_r; lia).
  lia.
Qed.

(** On positive integers below [2^53] the comparison of the numbers is
    the comparison of the integers. *)
Lemma exact_number_cmp (p q : positive) :
  (Zpos (digits2_pos p) <= 53)%Z -> (Zpos (digits2_pos q) <= 53)%Z ->
  num_cmp (exact_number p) (exact_number q) = Pos.compare p q.
Proof.
  intros Hp Hq. unfold num_cmp, exact_number. cbn [SFcompare].
  pose proof (digits2_pos_bounds p) as [Lp Up].
  pose proof (digits2_pos_bounds q) as [Lq Uq].
  remember (digits2_pos p) as dp eqn:Edp.
  remember (digits2_pos q) as dq eqn:Edq.
  destruct (Z.compare_spec (Zpos dp - 53) (Zpos dq - 53)) as [E|L|L].
  - assert (E' : dq = dp) by lia. rewrite E' in *. clear E E'.
    change (Pos.compare_cont Eq ?a ?b) with (Pos.compare a b).
    destruct (Zpos dp - 53)%Z as [|k|k]; try reflexivity.
    rewrite !Pos2Z.inj_compare, !iter_xO_value.
    symmetry. apply Zmult_compare_compat_r.
    apply Z.lt_gt, Z.pow_pos_nonneg; lia.
  - symmetry. apply Pos.compare_lt_iff.
    assert (2 ^ Zpos dp <= 2 ^ (Zpos dq - 1))%Z
      by (apply Z.pow_le_mono_r; lia).
    lia.
  - symmetry. apply Pos.compare_gt_iff.
    assert (2 ^ Zpos dq <= 2 ^ (Zpos dp - 1))%Z
      by (apply Z.pow_le_mono_r; lia).
    lia.
Qed.

Lemma span_all (f : char -> bool) (s : jsstring) :
  forallb f s = true -> span f s = (s, []).
Proof.
  intros H. rewrite <- (app_nil_r s) at 1. now apply span_unique.
Qed.

Lemma decimal_string_ends (n : N) :
  (exists c rest, decimal_string n = c :: rest /\ is_digit c = true) /\
  (exists d rest, rev (decimal_string n) = d :: rest /\ is_digit d = true).
Proof.
  destruct (decimal_string_canonical n) as (c & rest & E & _).
  pose proof (decimal_string_digits n) as Hd. split.
  - exists c, rest. split; [exact E|]. rewrite E in Hd.
    now apply andb_true_iff in Hd as [Hd _].
  - destruct (rev (decimal_string n)) as [|d r] eqn:Er.
    + apply (f_equal (@rev char)) in Er. rewrite rev_involutive, E in Er.
      discriminate.
    + exists d, r. split; [reflexivity|].
      rewrite forallb_forall in Hd. apply Hd, in_rev. rewrite Er. now left.
Qed.

(** [Number] of a decimal numeral is the number nearest to its value. *)
Lemma Number_decimal_string (n : N) :
  Number (decimal_string n) = number_of_Z (Z.of_N n).
Proof.
  unfold Number.
  destruct (decimal_string_ends n) as [(c & rest & E & Hc) (d & r & E' & Hd)].
  destruct (decimal_string_canonical n) as (c0 & rest0 & E0 & Hcan).
  rewrite E in E0. injection E0 as <- <-.
  rewrite trim_id;
    [ | rewrite E; now apply digit_not_white_space
      | rewrite E'; now apply digit_not_white_space ].
  pose proof (decimal_string_digits n) as Hds.
  pose proof (decimal_value_string n) as Hv.
  rewrite E in *.
  assert (HN : NonDecimalIntegerLiteral (c :: rest) = None).
  { unfold NonDecimalIntegerLiteral. destruct rest as [|x ds]; [reflexivity|].
    apply orb_true_iff in Hcan as [Hcan|Hcan]; [|discriminate].
    now rewrite Hcan. }
  rewrite HN.
  assert (Hp : (c =? 43)%N = false) by char_arith.
  assert (Hm : (c =? 45)%N = false) by char_arith.
  rewrite Hp, Hm.
  unfold StrUnsignedDecimalLiteral.
  assert (HI : str_eqb (c :: rest) (js "Infinity") = false).
  { change (js "Infinity") with (73%N :: js "nfinity"). cbn [str_eqb].
    replace (char_eqb c 73%N) with false; [reflexivity|].
    symmetry. char_arith. }
  rewrite HI, (span_all is_digit _ Hds). cbn [is_empty ExponentPart].
  rewrite Hv. unfold round_decimal.
  destruct n as [|p]; [reflexivity|].
  cbn [Z.leb Z.compare]. cbv iota. now rewrite Z.pow_0_r, Z.mul_1_r.
Qed.

Lemma safe_digits (p : positive) :
  safe (Npos p) -> (Zpos (digits2_pos p) <= 53)%Z.
Proof.
  unfold safe, Semver.MAX_SAFE_INTEGER. intros H.
  apply digits2_pos_safe.
  change (2 ^ 53)%Z with 9007199254740992%Z. lia.
Qed.

Lemma or_zero_safe (n : N) :
  safe n ->
  or_zero (Some (number_of_Z (Z.of_N n))) = number_of_Z (Z.of_N n).
Proof.
  intros H. destruct n as [|p]; [reflexivity|].
  cbn [Z.of_N]. rewrite (number_of_Z_exact p (safe_digits H)). reflexivity.
Qed.

Lemma number_of_N_cmp (a b : N) :
  safe a -> safe b ->
  num_cmp (number_of_Z (Z.of_N a)) (number_of_Z (Z.of_N b)) = (a ?= b)%N.
Proof.
  intros Ha Hb. destruct a as [|p], b as [|q]; cbn [Z.of_N];
    rewrite ?(number_of_Z_exact _ (safe_digits Ha)),
            ?(number_of_Z_exact _ (safe_digits Hb));
    try reflexivity.
  apply exact_number_cmp; now apply safe_digits.
Qed.

(** The tuple of a record whose version is [M.m.p]. *)
Lemma parse_parts_version_string (file : TocFile) (M m p : N) :
  version file = version_string M m p -> safe M -> safe m -> safe p ->
  Parsed.major (parse_parts file) = number_of_Z (Z.of_N M) /\
  Parsed.minor (parse_parts file) = number_of_Z (Z.of_N m) /\
  Parsed.patch (parse_parts file) = number_of_Z (Z.of_N p).
Proof.
  intros E HM Hm Hp. unfold parse_parts.
  cbn [Parsed.major Parsed.minor Parsed.patch].
  rewrite E, split_dot_version_string. cbn [map nth_error].
  rewrite !Number_decimal_string, !or_zero_safe by assumption. auto.
Qed.

(** On versions [M.m.p] of safe integers the order of the tuples is the
    lexicographic order of the integers. *)
Lemma tuple_cmp_version_string (f g : TocFile) (M m p M' m' p' : N) :
  version f = version_string M m p ->
  version g = version_string M' m' p' ->
  safe M -> safe m -> safe p -> safe M' -> safe m' -> safe p' ->
  tuple_cmp (parse_parts f) (parse_parts g)
  = triple_cmp (M, m, p) (M', m', p').
Proof.
  intros Ef Eg HM Hm Hp HM' Hm' Hp'.
  destruct (parse_parts_version_string f Ef HM Hm Hp) as (A1 & A2 & A3).
  destruct (parse_parts_version_string g Eg HM' Hm' Hp') as (B1 & B2 & B3).
  unfold tuple_cmp, triple_cmp. rewrite A1, A2, A3, B1, B2, B3.
  rewrite !number_of_N_cmp by assumption. reflexivity.
Qed.

(* ================================================================= *)
(** * [getNextVersion]: the highest version *)

Lemma fold_higher_first_max (l : list TocFile) :
  forall (x : TocFile) (pre mid : list TocFile),
    (forall f, In f pre -> lower f x) ->
    (forall f, In f mid -> not_higher f x) ->
    exists before h after,
      pre ++ x :: mid ++ l = before ++ h :: after /\
      fold_left higher (map parse_parts l) (parse_parts x) = parse_parts h /\
      (forall f, In f before -> lower f h) /\
      (forall f, In f after -> not_higher f h).
Proof.
  induction l as [|y l IH]; intros x pre mid Hpre Hmid.
  - exists pre, x, mid. rewrite app_nil_r. auto.
  - cbn [map fold_left].
    rewrite higher_cmp by apply parse_parts_numeric.
    destruct (tuple_cmp (parse_parts y) (parse_parts x)) eqn:E.
    + destruct (IH x pre (mid ++ [y])) as (b & h & a & E1 & E2 & H1 & H2);
        auto.
      * intros f Hf. apply in_app_or in Hf as [Hf|[<-|[]]]; auto.
        unfold not_higher. rewrite E. discriminate.
      * exists b, h, a. rewrite <- app_assoc in E1. auto.
    + destruct (IH x pre (mid ++ [y])) as (b & h & a & E1 & E2 & H1 & H2);
        auto.
      * intros f Hf. apply in_app_or in Hf as [Hf|[<-|[]]]; auto.
        unfold not_higher. rewrite E. discriminate.
      * exists b, h, a. rewrite <- app_assoc in E1. auto.
    + assert (Hxy : lower x y).
      { unfold lower.
        rewrite tuple_cmp_opp, E by apply parse_parts_numeric. reflexivity. }
      destruct (IH y (pre ++ x :: mid) [])
        as (b & h & a & E1 & E2 & H1 & H2).
      * intros f Hf. apply in_app_or in Hf as [Hf|[<-|Hf]]; auto.
        -- eapply tuple_cmp_lt_trans; try apply parse_parts_numeric.
           ++ apply Hpre, Hf.
           ++ exact Hxy.
        -- eapply tuple_cmp_le_lt; try apply parse_parts_numeric.
           ++ apply Hmid, Hf.
           ++ exact Hxy.
      * intros f [].
      * exists b, h, a. rewrite <- app_assoc in E1. auto.
Qed.

(** C1. On a non-empty record set, the highest record is a record of the
    set whose (major, minor, patch) tuple no other record exceeds in the
    numeric order of the components, taken in that priority; every record
    scanned before it is strictly lower, so that among the records that
    share the maximal tuple the first one is returned.  The order is the
    order of numbers, not of strings: on versions [M.m.p] it is the
    lexicographic order of the integers, and with the versions 1.2.3 and
    1.10.0, in either order, 1.10.0 is selected. *)
Theorem highest_is_first_numeric_maximum :
  (forall (first : TocFile) (others : list TocFile),
      exists before h after,
        first :: others = before ++ h :: after /\
        highest (first :: others) = Some (parse_parts h) /\
        (forall f, In f before -> lower f h) /\
        (forall f, In f after -> not_higher f h)) /\
  (forall (f g : TocFile) (M m p M' m' p' : N),
      version f = version_string M m p ->
      version g = version_string M' m' p' ->
      safe M -> safe m -> safe p -> safe M' -> safe m' -> safe p' ->
      tuple_cmp (parse_parts f) (parse_parts g)
      = triple_cmp (M, m, p) (M', m', p')) /\
  (forall p1 c1 a1 p2 c2 a2,
      let low := toc p1 c1 (js "1.2.3") a1 in
      let high := toc p2 c2 (js "1.10.0") a2 in
      highest [low; high] = Some (parse_parts high) /\
      highest [high; low] = Some (parse_parts high) /\
      lower low high).
Proof.
  split; [|split].
  - intros first others.
    destruct (@fold_higher_first_max others first [] [])
      as (b & h & a & E1 & E2 & H1 & H2); try (intros f []).
    exists b, h, a. repeat split; auto.
    unfold highest, reduce. cbn [map]. now rewrite E2.
  - intros. now apply tuple_cmp_version_string.
  - intros. repeat split; vm_compute; reflexivity.
Qed.

(** C10. Each component of the tuple of a record is the number its
    dot-separated field parses to, and [0] when the field is absent or is
    not a number; so 1.2 compares as (1, 2, 0) and a version without any
    numeric field as (0, 0, 0); and the comparison yields a highest record
    for every non-empty record set. *)
Theorem parse_parts_fields :
  (forall file : TocFile,
      let fields := split_dot (version file) in
      Parsed.major (parse_parts file) = field_value (nth_error fields 0) /\
      Parsed.minor (parse_parts file) = field_value (nth_error fields 1) /\
      Parsed.patch (parse_parts file) = field_value (nth_error fields 2) /\
      Parsed.original (parse_parts file) = version file) /\
  (forall p c a,
      let t := parse_parts (toc p c (js "1.2") a) in
      Parsed.major t = number_of_Z 1 /\ Parsed.minor t = number_of_Z 2 /\
      Parsed.patch t = zero) /\
  (forall p c a,
      let t := parse_parts (toc p c (js "alpha.beta-1.x") a) in
      Parsed.major t = zero /\ Parsed.minor t = zero /\
      Parsed.patch t = zero) /\
  (forall (first : TocFile) (others : list TocFile),
      exists h, In h (first :: others) /\
                highest (first :: others) = Some (parse_parts h)).
Proof.
  split; [|split; [|split]].
  - intros file fields. subst fields. unfold parse_parts.
    cbn [Parsed.major Parsed.minor Parsed.patch Parsed.original].
    rewrite !nth_error_map. unfold field_value, or_zero.
    repeat split;
      match goal with
      | |- context [nth_error ?l ?i] =>
          destruct (nth_error l i) as [s|]; simpl; auto;
          destruct (Number s) as [x|x| |x m e]; reflexivity
      end.
  - intros. repeat split; vm_compute; reflexivity.
  - intros. repeat split; vm_compute; reflexivity.
  - intros first others.
    destruct (@fold_higher_first_max others first [] [])
      as (b & h & a & E1 & E2 & H1 & H2); try (intros f []).
    exists h. split.
    + simpl in E1. rewrite E1. apply in_elt.
    + unfold highest, reduce. cbn [map]. now rewrite E2.
Qed.

(* ================================================================= *)
(** * [getNextVersion] *)

Lemma filesToCheck_nil (target : optional) : filesToCheck [] target = [].
Proof. destruct target as [[|c a]|]; reflexivity. Qed.

(** C5. When the record set to consider is empty, because there are no
    TOC files at all or none for the requested addon, [getNextVersion]
    returns [null] for every bump type: nothing is thrown and the process
    is not ended; nothing is written and no command is run. *)
Theorem getNextVersion_empty (tocFiles : list TocFile)
    (target : optional) (bump : BumpType) (w : World) :
  filesToCheck tocFiles target = [] ->
  fst (getNextVersion tocFiles target bump w) = Returned None /\
  files (snd (getNextVersion tocFiles target bump w)) = files w /\
  writes (snd (getNextVersion tocFiles target bump w)) = writes w /\
  spawned (snd (getNextVersion tocFiles target bump w)) = spawned w.
Proof.
  intros E. unfold getNextVersion.
  destruct tocFiles as [|f fs]; [repeat split|].
  cbn [is_empty_list]. rewrite E. repeat split.
Qed.

(** The highest tuple is the tuple of a record of the set. *)
Lemma highest_of_record (l : list TocFile) (h : Parsed.t) :
  highest l = Some h -> exists f, In f l /\ h = parse_parts f.
Proof.
  destruct l as [|x l]; [discriminate|].
  intros [= <-].
  destruct (@fold_higher_first_max l x [] [])
    as (before & f & after & E & F & _); [intros ? [] | intros ? [] |].
  exists f. split; [|exact F].
  change (x :: l) with ([] ++ x :: [] ++ l). rewrite E.
  apply in_or_app. right. left. reflexivity.
Qed.

(** C4. When the highest version of the records considered is written
    [M.m.p], in decimal without leading zeros and with components that
    are safe integers, its tuple is [(M, m, p)] and the next version is
    [(M+1).0.0] for a major bump, [M.(m+1).0] for a minor bump and
    [M.m.(p+1)] for a patch bump. *)
Theorem getNextVersion_bumps (tocFiles : list TocFile)
    (target : optional) (bump : BumpType) (w : World)
    (h : Parsed.t) (M m p : N) :
  highest (filesToCheck tocFiles target) = Some h ->
  Parsed.original h = version_string M m p ->
  safe M -> safe m -> safe p ->
  has_tuple h M m p /\
  fst (getNextVersion tocFiles target bump w)
  = Returned (Some (bumped bump M m p)).
Proof.
  intros Hh Ho HM Hm Hp. split.
  - destruct (highest_of_record _ Hh) as (f & _ & ->).
    now apply parse_parts_version_string.
  - unfold getNextVersion.
    destruct tocFiles as [|f fs];
      [rewrite filesToCheck_nil in Hh; discriminate|].
    cbn [is_empty_list].
    destruct (filesToCheck (f :: fs) target) as [|g gs] eqn:E;
      [discriminate|].
    cbn [is_empty_list]. rewrite Hh, Ho, parse_version_string by assumption.
    rewrite format_increment. reflexivity.
Qed.

(* ================================================================= *)
(** * Versions are version texts *)

Lemma version_chars_text (v : jsstring) :
  forallb version_char v = true -> line_text v /\ dollar_free v.
Proof.
  intros H. split.
  - unfold line_text. revert H. apply forallb_impl. intros c Hc.
    unfold version_char, not_terminator in *.
    apply orb_true_iff in Hc as [Hc|Hc]; char_arith.
  - unfold dollar_free. revert H. apply forallb_impl. intros c Hc.
    unfold version_char in *.
    apply orb_true_iff in Hc as [Hc|Hc]; char_arith.
Qed.

(** The next versions of [getNextVersion] on [M.m.p]. *)
Lemma version_string_text (M m p : N) : version_text (version_string M m p).
Proof.
  split.
  - destruct (version_string_head M m p) as (c & rest & E & _).
    rewrite E. discriminate.
  - apply version_chars_text, version_string_chars.
Qed.

(** The explicit versions [parseBumpArgs] accepts. *)
Lemma explicit_version_text (v : jsstring) :
  is_explicit_version v = true -> version_text v.
Proof.
  unfold is_explicit_version. intros H.
  pose proof (join_split DOT v) as J. unfold split_dot in H.
  destruct (split_on DOT v) as [|a [|b [|c [|d l]]]]; try discriminate.
  cbn [forallb] in H.
  repeat (apply andb_true_iff in H as [? H]).
  apply andb_true_iff in H0 as [Na Da].
  apply andb_true_iff in H1 as [Nb Db].
  apply andb_true_iff in H2 as [Nc Dc].
  cbn [join] in J. subst v. split.
  - destruct a; [discriminate|discriminate].
  - apply version_chars_text. rewrite !forallb_app. cbn [forallb].
    assert (D : forall s, forallb is_digit s = true ->
                          forallb version_char s = true).
    { intros s. apply forallb_impl. intros x Hx. unfold version_char.
      now rewrite Hx. }
    rewrite !D by assumption. reflexivity.
Qed.

(* ================================================================= *)
(** * Computations that only print *)

Lemma unchanged_refl (w : World) : unchanged w w.
Proof. repeat split. Qed.

Lemma unchanged_trans (w1 w2 w3 : World) :
  unchanged w1 w2 -> unchanged w2 w3 -> unchanged w1 w3.
Proof.
  intros (A1 & A2 & A3) (B1 & B2 & B3).
  repeat split; congruence.
Qed.


Lemma quiet_ret (A : Type) (Q : A -> Prop) (a : A) : Q a -> quiet Q (ret a).
Proof.
  intros H w. split; [apply unchanged_refl|].
  simpl. intros a' [= <-]. exact H.
Qed.

Lemma quiet_throw (A : Type) (Q : A -> Prop) (e : Error) : quiet Q (throw e).
Proof. intros w. split; [apply unchanged_refl | discriminate]. Qed.

Lemma quiet_exit (A : Type) (Q : A -> Prop) (c : Z) : quiet Q (exit c).
Proof. intros w. split; [apply unchanged_refl | discriminate]. Qed.

Lemma quiet_weaken (A : Type) (P Q : A -> Prop) (m : M A) :
  quiet P m -> (forall a, P a -> Q a) -> quiet Q m.
Proof.
  intros H HPQ w. destruct (H w) as [U R]. split; auto.
Qed.

Lemma quiet_bind (A B : Type) (P : A -> Prop) (Q : B -> Prop) (m : M A)
    (k : A -> M B) :
  quiet P m -> (forall a, P a -> quiet Q (k a)) -> quiet Q (bind m k).
Proof.
  intros Hm Hk w. unfold bind.
  destruct (Hm w) as [U R]. destruct (m w) as [[a|e|c] w']; simpl in *.
  - destruct (Hk a (R a eq_refl) w') as [U' R'].
    split; [eapply unchanged_trans; eauto | exact R'].
  - split; [exact U | discriminate].
  - split; [exact U | discriminate].
Qed.

Lemma quiet_try_catch (A : Type) (Q : A -> Prop) (body : M A)
    (handler : Error -> M A) :
  quiet Q body -> (forall e, quiet Q (handler e)) ->
  quiet Q (try_catch body handler).
Proof.
  intros Hb Hh w. unfold try_catch.
  destruct (Hb w) as [U R]. destruct (body w) as [[a|e|c] w']; simpl in *.
  - split; auto.
  - destruct (Hh e w') as [U' R'].
    split; [eapply unchanged_trans; eauto | exact R'].
  - split; [exact U | discriminate].
Qed.

Lemma quiet_lift (A : Type) (Q : A -> Prop) (t : Try A) :
  (forall a, t = Ok a -> Q a) -> quiet Q (lift t).
Proof.
  intros H. destruct t as [a|msg]; simpl.
  - apply quiet_ret. auto.
  - apply quiet_throw.
Qed.

Lemma quiet_print (Q : unit -> Prop) (ch : Channel) (l : Line) :
  Q tt -> quiet Q (print ch l).
Proof.
  intros H w. split; [repeat split|]. simpl. intros [] _. exact H.
Qed.

Lemma quiet_when (b : bool) (m : M unit) :
  quiet any m -> quiet any (when b m).
Proof.
  intros H. destruct b; simpl; [exact H|]. apply quiet_ret. exact I.
Qed.

Lemma quiet_for_each (A : Type) (l : list A) (body : A -> M unit) :
  (forall x, In x l -> quiet any (body x)) -> quiet any (for_each l body).
Proof.
  induction l as [|x l IH]; intros H; cbn [for_each].
  - apply quiet_ret. exact I.
  - eapply quiet_bind; [apply H; left; reflexivity|].
    intros _ _. apply IH. intros; apply H; now right.
Qed.

Lemma quiet_read (env : Env) (p : jsstring) :
  quiet any (readTextFileSync env p).
Proof.
  intros w. unfold readTextFileSync.
  destruct (files w p); simpl; split; try apply unchanged_refl;
    intros; exact I.
Qed.

(** Steps of a proof that a computation is quiet. *)
Ltac quiet_step :=
  match goal with
  | |- quiet _ (ret _) => apply quiet_ret
  | |- quiet _ (throw _) => apply quiet_throw
  | |- quiet _ (exit _) => apply quiet_exit
  | |- quiet _ (print _ _) => apply quiet_print
  | |- quiet _ (when _ _) => apply quiet_when
  | |- quiet _ (for_each _ _) => apply quiet_for_each; intros
  | |- quiet _ (readTextFileSync _ _) => apply quiet_read
  | |- quiet _ (try_catch _ _) => apply quiet_try_catch; [|intros]
  | |- quiet _ (bind _ _) => apply (@quiet_bind _ _ any); [|intros]
  | |- any _ => exact I
  | |- True => exact I
  end.

Lemma getNextVersion_quiet (tocFiles : list TocFile) (target : optional)
    (bump : BumpType) :
  quiet any (getNextVersion tocFiles target bump).
Proof.
  unfold getNextVersion.
  destruct (is_empty_list tocFiles); [repeat quiet_step|].
  destruct (is_empty_list (filesToCheck tocFiles target));
    [repeat quiet_step|].
  destruct (highest (filesToCheck tocFiles target)); [|repeat quiet_step].
  destruct (Semver.parse (Parsed.original t)); repeat quiet_step.
Qed.

(* ================================================================= *)
(** * Loading the catalogue *)

Lemma quiet_on_of_quiet (A : Type) (Q : A -> Prop)
    (Q' : (jsstring -> option jsstring) -> A -> Prop) (m : M A) :
  quiet Q m -> (forall disk a, Q a -> Q' disk a) -> quiet_on Q' m.
Proof.
  intros H HQ w. destruct (H w) as [U R]. split; auto.
Qed.

Lemma quiet_on_of_on (A : Type)
    (P Q : (jsstring -> option jsstring) -> A -> Prop) (m : M A) :
  quiet_on P m -> (forall disk a, P disk a -> Q disk a) -> quiet_on Q m.
Proof.
  intros H HQ w. destruct (H w) as [U R]. split; auto.
Qed.

Lemma quiet_of_on (A : Type)
    (P : (jsstring -> option jsstring) -> A -> Prop) (m : M A) :
  quiet_on P m -> quiet any m.
Proof.
  intros H w. destruct (H w) as [U _]. split; [exact U|]. intros; exact I.
Qed.

Lemma quiet_on_ret (A : Type)
    (Q : (jsstring -> option jsstring) -> A -> Prop) (a : A) :
  (forall disk, Q disk a) -> quiet_on Q (ret a).
Proof.
  intros H w. split; [apply unchanged_refl|].
  simpl. intros a' [= <-]. apply H.
Qed.

Lemma quiet_on_bind (A B : Type)
    (P : (jsstring -> option jsstring) -> A -> Prop)
    (Q : (jsstring -> option jsstring) -> B -> Prop)
    (m : M A) (k : A -> M B) :
  quiet_on P m ->
  (forall a, quiet_on (fun disk b => P disk a -> Q disk b) (k a)) ->
  quiet_on Q (bind m k).
Proof.
  intros Hm Hk w. unfold bind.
  destruct (Hm w) as [U R]. destruct (m w) as [[a|e|c] w']; simpl in *.
  - destruct (Hk a w') as [U' R'].
    split; [eapply unchanged_trans; eauto|].
    intros b Hb. specialize (R' b Hb).
    destruct U as (E & _). rewrite E in R'. apply R'. now apply R.
  - split; [exact U | discriminate].
  - split; [exact U | discriminate].
Qed.

Lemma quiet_on_try_catch (A : Type)
    (Q : (jsstring -> option jsstring) -> A -> Prop) (body : M A)
    (handler : Error -> M A) :
  quiet_on Q body -> (forall e, quiet_on Q (handler e)) ->
  quiet_on Q (try_catch body handler).
Proof.
  intros Hb Hh w. unfold try_catch.
  destruct (Hb w) as [U R]. destruct (body w) as [[a|e|c] w']; simpl in *.
  - split; auto.
  - destruct (Hh e w') as [U' R'].
    split; [eapply unchanged_trans; eauto|].
    intros a Ha. destruct U as (E & _). rewrite <- E. now apply R'.
  - split; [exact U | discriminate].
Qed.

Lemma quiet_on_collect (A B : Type)
    (P : (jsstring -> option jsstring) -> B -> Prop) (l : list A)
    (body : A -> M (list B)) :
  (forall x, In x l -> quiet_on (fun disk => Forall (P disk)) (body x)) ->
  quiet_on (fun disk => Forall (P disk)) (collect l body).
Proof.
  induction l as [|x l IH]; intros H; cbn [collect].
  - apply quiet_on_ret. constructor.
  - eapply quiet_on_bind; [apply H; left; reflexivity|].
    intros ys. eapply quiet_on_bind; [apply IH; intros; apply H; now right|].
    intros zs. apply quiet_on_ret. intros disk Hzs Hys.
    apply Forall_app. auto.
Qed.

Lemma quiet_on_read (env : Env) (p : jsstring) :
  quiet_on (fun disk text => disk p = Some text) (readTextFileSync env p).
Proof.
  intros w. unfold readTextFileSync.
  destruct (files w p) as [text|] eqn:E; simpl;
    (split; [apply unchanged_refl|]).
  - intros a [= <-]. reflexivity.
  - discriminate.
Qed.

Lemma load_toc_file_stored (env : Env)
    (addonDir addonPath tocFile : jsstring) :
  quiet_on (fun disk => Forall (stored disk))
           (load_toc_file env addonDir addonPath tocFile).
Proof.
  unfold load_toc_file. apply quiet_on_try_catch.
  - eapply quiet_on_bind; [apply quiet_on_read|]. intros text.
    destruct (exec tocPattern text) as [m|] eqn:E.
    + apply quiet_on_ret. intros disk Hd. constructor; [|constructor].
      split; [exact Hd|].
      destruct (exec_toc_Some _ E) as (v & F & Hc & _).
      exists (m_before m), (m_after m). unfold capture1. cbn [content version].
      rewrite Hc. exact F.
    + apply (@quiet_on_of_quiet _ (fun rs => rs = [])).
      * apply (@quiet_bind _ _ any); [repeat quiet_step|].
        intros. now apply quiet_ret.
      * intros disk a -> _. constructor.
  - intros e. apply (@quiet_on_of_quiet _ (fun rs => rs = [])).
    + apply (@quiet_bind _ _ any); [repeat quiet_step|].
      intros. now apply quiet_ret.
    + intros disk a ->. constructor.
Qed.

Lemma load_addon_stored (env : Env) (dir : jsstring) (verbose : bool)
    (addonDir : jsstring) :
  quiet_on (fun disk => Forall (stored disk))
           (load_addon env dir verbose addonDir).
Proof.
  unfold load_addon. apply quiet_on_try_catch.
  - apply (@quiet_on_bind _ _ (fun _ _ => True));
      [apply (@quiet_on_of_quiet _ any);
       [apply quiet_lift; intros; exact I | auto]|].
    intros entries.
    apply (@quiet_on_bind _ _ (fun _ _ => True));
      [apply (@quiet_on_of_quiet _ any); [repeat quiet_step | auto]|].
    intros _.
    eapply quiet_on_of_on; [apply quiet_on_collect|].
    + intros. apply load_toc_file_stored.
    + auto.
  - intros e. apply (@quiet_on_of_quiet _ (fun rs => rs = [])).
    + apply (@quiet_bind _ _ any); [repeat quiet_step|].
      intros. now apply quiet_ret.
    + intros disk a ->. constructor.
Qed.

Lemma read_config_quiet (value : ConfigValue) :
  quiet any (read_config value).
Proof.
  destruct value; [apply quiet_ret; exact I | apply quiet_throw].
Qed.

Lemma loadAllTocFiles_stored (env : Env) (config : ConfigValue)
    (verbose : bool) :
  quiet_on (fun disk => Forall (stored disk))
           (loadAllTocFiles env config verbose).
Proof.
  unfold loadAllTocFiles. apply quiet_on_try_catch.
  - apply (@quiet_on_bind _ _ (fun _ _ => True));
      [apply (@quiet_on_of_quiet _ any);
       [apply read_config_quiet | auto]|].
    intros conforming.
    apply (@quiet_on_of_on _
             (fun disk (rs : list TocFile) => Forall (stored disk) rs));
      [|auto].
    apply (@quiet_on_bind _ _ (fun _ _ => True));
      [apply (@quiet_on_of_quiet _ any);
       [apply quiet_lift; intros; exact I | auto]|].
    intros entries.
    apply (@quiet_on_bind _ _ (fun _ _ => True));
      [apply (@quiet_on_of_quiet _ any); [repeat quiet_step | auto]|].
    intros _.
    eapply quiet_on_of_on; [apply quiet_on_collect|].
    + intros. apply load_addon_stored.
    + auto.
  - intros e. apply (@quiet_on_of_quiet _ (fun _ => False)).
    + apply (@quiet_bind _ _ any); [repeat quiet_step|].
      intros. apply quiet_exit.
    + intros disk a [].
Qed.

(** C9. Every record of the catalogue holds the text of its file, and its
    version is the rest of the first [## Version: ] line of that text, up
    to the end of the line: the line terminator is not part of it, and
    with CRLF line endings the carriage return is not part of it
    either. *)
Theorem loaded_version_is_rest_of_line (env : Env) (config : ConfigValue)
    (verbose : bool) (w : World) (records : list TocFile) (r : TocFile) :
  fst (loadAllTocFiles env config verbose w) = Returned records ->
  In r records ->
  files w (path r) = Some (content r) /\
  (exists pre post,
      content r = pre ++ tocPrefix ++ version r ++ post /\
      line_start pre /\ line_end post /\
      first_version_line (content r) pre (version r) post) /\
  line_text (version r) /\ ~ In CR (version r) /\ ~ In LF (version r).
Proof.
  intros E Hin.
  destruct (loadAllTocFiles_stored env config verbose w) as [_ R].
  specialize (R records E). rewrite Forall_forall in R.
  destruct (R r Hin) as (Hd & pre & post & F).
  pose proof F as [(E1 & H1 & H2 & H3 & H4) _].
  split; [exact Hd|].
  split; [exists pre, post; auto|].
  split; [exact H3|]. now apply line_text_no_CR.
Qed.


Lemma loadConfig_quiet (env : Env) (verbose : bool) :
  quiet any (loadConfig env verbose).
Proof.
  unfold loadConfig. destruct (config_json env); repeat quiet_step.
Qed.

Lemma new_VersionBumper_quiet (env : Env) (verbose : bool) :
  quiet any (new_VersionBumper env verbose).
Proof.
  unfold new_VersionBumper.
  apply (@quiet_bind _ _ any); [apply loadConfig_quiet|]. intros config _.
  apply (@quiet_bind _ _ any);
    [eapply quiet_of_on; apply loadAllTocFiles_stored|].
  intros tocFiles _.
  apply (@quiet_bind _ _ any); [apply read_config_quiet|].
  intros. apply quiet_ret. exact I.
Qed.

(* ================================================================= *)
(** * Dry runs *)

Lemma updateFiles_dry (env : Env) (files : list TocFile)
    (options : VersionBumpOptions) :
  dryRun options = true -> quiet any (updateFiles env files options).
Proof.
  intros D. unfold updateFiles. rewrite D. repeat quiet_step.
Qed.

Lemma createGitTag_dry (env : Env) (config : Config) (version : jsstring)
    (message target : optional) :
  quiet any (createGitTag env config version message target true).
Proof. unfold createGitTag. repeat quiet_step. Qed.

Lemma bumpVersion_dry (env : Env) (b : Bumper)
    (options : VersionBumpOptions) :
  dryRun options = true -> quiet any (bumpVersion env b options).
Proof.
  intros D. unfold bumpVersion.
  assert (U : forall files v,
             quiet any (updateFiles env files (with_newVersion options v)))
    by (intros; apply updateFiles_dry; exact D).
  rewrite D.
  destruct (targetAddon options) as [[|c a]|];
    try destruct (is_empty_list _);
    try destruct (negb (is_empty (newVersion options)));
    repeat first
      [ apply updateFiles_dry; exact D
      | apply createGitTag_dry
      | apply getNextVersion_quiet
      | apply U
      | match goal with
        | |- quiet _ (let '(_, _) := ?x in _) => destruct x
        | |- quiet _ (match ?x with _ => _ end) => destruct x
        end
      | quiet_step ].
Qed.

Lemma auto_increment_quiet (b : Bumper) (target : optional)
    (bump : BumpType) :
  quiet any (auto_increment b target bump).
Proof.
  unfold auto_increment.
  apply (@quiet_bind _ _ any); [apply getNextVersion_quiet|].
  intros [[|c v]|] _; repeat quiet_step.
Qed.

(** The options [parseBumpArgs] returns carry the [--dry] flag. *)
Lemma parseBumpArgs_quiet (b : Bumper) (args : list jsstring) :
  quiet (fun options => dryRun options = includes args (js "--dry"))
        (parseBumpArgs b args).
Proof.
  unfold parseBumpArgs.
  apply (@quiet_bind _ _ any).
  - destruct args as [|arg0 rest].
    + repeat first [apply auto_increment_quiet | quiet_step].
    + destruct (is_explicit_version arg0); [repeat quiet_step|].
      destruct (str_eqb arg0 (js "all")); [repeat quiet_step|].
      destruct (startsWith arg0 (js "--")); [repeat quiet_step|].
      destruct rest as [|arg1 rest];
        [|destruct (is_explicit_version arg1)];
        repeat first [apply auto_increment_quiet | quiet_step].
  - intros [v t] _. apply quiet_ret. reflexivity.
Qed.

Lemma run_bump_dry (env : Env) (bumper : Bumper) (rest : list jsstring) :
  includes rest (js "--dry") = true ->
  quiet any (run env bumper (js "bump" :: rest)).
Proof.
  intros D. unfold run.
  change (str_eqb (js "bump") (js "show")) with false.
  change (str_eqb (js "bump") (js "list")) with false.
  change (str_eqb (js "bump") (js "whitelist")) with false.
  change (str_eqb (js "bump") (js "config")) with false.
  change (str_eqb (js "bump") (js "bump")) with true.
  cbv iota.
  apply quiet_try_catch; [|intros; repeat quiet_step].
  eapply quiet_bind; [apply parseBumpArgs_quiet|].
  intros options Ho. cbv beta in Ho. rewrite D in Ho.
  apply (@quiet_bind _ _ any).
  - destruct (verbose options);
      [apply new_VersionBumper_quiet | repeat quiet_step].
  - intros bumper' _. now apply bumpVersion_dry.
Qed.

Lemma main_bump_dry (env : Env) (rest : list jsstring) :
  includes rest (js "--dry") = true ->
  quiet any (main env (js "bump" :: rest)).
Proof.
  intros D. unfold main.
  apply (@quiet_bind _ _ any); [apply new_VersionBumper_quiet|].
  intros bumper _. now apply run_bump_dry.
Qed.

Lemma repeat_run_unchanged (process : M unit) (n : nat) (w : World) :
  quiet any process -> unchanged w (repeat_run n process w).
Proof.
  intros Q. revert w; induction n as [|n IH]; intros w; simpl.
  - apply unchanged_refl.
  - eapply unchanged_trans; [apply (Q w) | apply IH].
Qed.

(** C3. A bump with the dry-run flag writes no file and runs no command:
    after [bumpVersion] with [dryRun], and after any number of runs of the
    program on [bump ... --dry ...], the files on disk are what they were,
    no [writeTextFileSync] call was made and no process was spawned. *)
Theorem dry_run_changes_nothing (env : Env) (b : Bumper)
    (options : VersionBumpOptions) (rest : list jsstring) (n : nat)
    (w : World) :
  dryRun options = true ->
  includes rest (js "--dry") = true ->
  unchanged w (snd (bumpVersion env b options w)) /\
  unchanged w (repeat_run n (main env (js "bump" :: rest)) w) /\
  (forall p, files (repeat_run n (main env (js "bump" :: rest)) w) p
             = files w p).
Proof.
  intros D1 D2.
  pose proof (repeat_run_unchanged n w (main_bump_dry env rest D2)) as U.
  split; [apply (bumpVersion_dry env b options D1 w)|].
  split; [exact U|]. intros p. destruct U as (-> & _). reflexivity.
Qed.

(* ================================================================= *)
(** * The release recorder: dry run *)

(** C8, as the code has it. Every dry-run call of [createGitTag] prints
    three lines, each announcing a hypothetical action, in the order tag
    creation, commit, push; it runs no command, writes no file and
    returns normally. *)
Theorem createGitTag_dry_report (env : Env) (config : Config)
    (version : jsstring) (message target : optional) (w : World) :
  createGitTag env config version message target true w
  = (Returned tt,
     {| console :=
          console w ++
          [ (log, WouldCreateTag version);
            (log, WouldCommit (commit_message message target version));
            (log, WouldPush) ];
        files := files w; writes := writes w; spawned := spawned w |}).
Proof.
  unfold createGitTag, bind, print. simpl.
  rewrite <- !app_assoc. reflexivity.
Qed.

(** The announced order is not the order of execution: on a modified
    working tree the real run commits, then tags, then pushes, while the
    dry run announces the tag first. *)
Lemma dry_report_order_differs :
  let dry :=
    snd (createGitTag sample_env sample_config (js "2.0.0") None
           (Some (js "Alpha")) true empty_world) in
  let real :=
    snd (createGitTag sample_env sample_config (js "2.0.0") None
           (Some (js "Alpha")) false empty_world) in
  announced_actions dry = [TagAction; CommitAction; PushAction] /\
  performed_actions real = [CommitAction; TagAction; PushAction] /\
  announced_actions dry <> performed_actions real.
Proof.
  vm_compute. repeat split. discriminate.
Qed.

(* ================================================================= *)
(** * The release recorder: the commands it spawns *)

Lemma runCommandInDir_status (env : Env) (dir : jsstring) :
  runCommandInDir env (js "git status --porcelain") dir
  = run_one env (git_status dir) (js "git status --porcelain").
Proof. reflexivity. Qed.

Lemma runCommandInDir_add (env : Env) (dir : jsstring) :
  runCommandInDir env (js "git add .") dir
  = run_one env (git_add dir) (js "git add .").
Proof. reflexivity. Qed.

Lemma runCommandInDir_commit (env : Env) (dir message : jsstring) :
  runCommandInDir env (js "git commit -m " ++ message) dir
  = run_one env (git_commit dir message) (js "git commit -m " ++ message).
Proof.
  unfold runCommandInDir.
  change (startsWith (js "git commit -m " ++ message) (js "git commit"))
    with true. cbv iota.
  change (js "git commit -m " ++ message)
    with (js "git" ++ SPACE :: (js "commit" ++ SPACE
                                  :: (js "-m" ++ SPACE :: message))).
  rewrite !split_on_app by reflexivity.
  change (findIndex (js "-m")
            (js "git" :: js "commit" :: js "-m" :: split_on SPACE message))
    with (Some 2).
  cbv iota. cbn [length Nat.add skipn].
  rewrite join_split. pose proof (split_on_nonempty SPACE message) as NE.
  destruct (split_on SPACE message); [contradiction | reflexivity].
Qed.

Lemma runCommandInDir_tag (env : Env) (dir tag : jsstring) :
  runCommandInDir env (js "git tag " ++ tag) dir
  = run_one env (git_tag dir tag) (js "git tag " ++ tag).
Proof.
  unfold runCommandInDir.
  change (startsWith (js "git tag " ++ tag) (js "git commit")) with false.
  cbv iota.
  change (js "git tag " ++ tag)
    with (js "git" ++ SPACE :: (js "tag" ++ SPACE :: tag)).
  rewrite !split_on_app by reflexivity. reflexivity.
Qed.

Lemma runCommandInDir_push (env : Env) (dir tag : jsstring) :
  runCommandInDir env (js "git push origin HEAD " ++ tag) dir
  = run_one env (git_push dir tag) (js "git push origin HEAD " ++ tag).
Proof.
  unfold runCommandInDir.
  change (startsWith (js "git push origin HEAD " ++ tag) (js "git commit"))
    with false.
  cbv iota.
  change (js "git push origin HEAD " ++ tag)
    with (js "git" ++ SPACE :: (js "push" ++ SPACE
            :: (js "origin" ++ SPACE :: (js "HEAD" ++ SPACE :: tag)))).
  rewrite !split_on_app by reflexivity. reflexivity.
Qed.

(* ================================================================= *)
(** * The release recorder: a real run *)

Arguments runCommandInDir : simpl never.
Arguments js : simpl never.
Arguments trim : simpl never.
Arguments split_on : simpl never.

Ltac run_git Er :=
  first [ rewrite runCommandInDir_status in Er
        | rewrite runCommandInDir_add in Er
        | rewrite runCommandInDir_commit in Er
        | rewrite runCommandInDir_tag in Er
        | rewrite runCommandInDir_push in Er ];
  unfold run_one, output in Er;
  cbv beta iota delta [bind print] in Er;
  cbn [console files writes spawned fst snd] in Er;
  match type of Er with
  | context [run_process ?e ?h ?f ?c] =>
      let o := fresh "o" in
      let E := fresh "E" in
      destruct (run_process e h f c) as [o|?] eqn:E;
      [ let N := fresh "N" in destruct (nonzero (code o)) eqn:N | ]
  end;
  cbv beta iota delta [bind throw ret print when lift try_catch] in Er;
  cbn [console files writes spawned fst snd] in Er.


(** The history of every recorded outcome, written [spawned w ++ [...]]. *)
Ltac normalize_history :=
  repeat match goal with
         | H : run_process _ ((_ ++ _) ++ _) _ _ = _ |- _ =>
             rewrite <- app_assoc in H; cbn [app] in H
         end.

(** A claim that the command at position [k] failed, against the
    recorded outcomes. *)
Ltac check_failure Hk Hf k :=
  do 6 (try (destruct k as [|k]; cbn [nth_error] in Hk;
             [ injection Hk as <-; unfold failed in Hf;
               cbn [firstn app] in Hf; rewrite ?app_nil_r in Hf;
               repeat match goal with
                      | E : run_process _ _ _ _ = _ |- _ =>
                          rewrite E in Hf
                      end;
               try reflexivity; try congruence
             | ]));
  try discriminate Hk; try (destruct k; discriminate Hk).

Ltac finish_release_run Er :=
  subst; cbn [fst snd files writes spawned console];
  rewrite <- ?app_assoc; cbn [app];
  normalize_history;
  split; [reflexivity|]; split; [reflexivity|]; split; [reflexivity|];
  eexists; eexists; split; [reflexivity|]; split; [reflexivity|];
  split;
  [ first [ exists true; split; unfold release_sequence; cbn [app];
            eexists; reflexivity
          | exists false; split; unfold release_sequence; cbn [app];
            eexists; reflexivity ]
  | split;
    [ let k := fresh "k" in
      let c := fresh "c" in
      let Hk := fresh "Hk" in
      let Hf := fresh "Hf" in
      intros k c Hk Hf; check_failure Hk Hf k
    | split;
      [ unfold failure_reports; cbn; lia
      | split;
        [ let k := fresh "k" in
          let c := fresh "c" in
          let Hk := fresh "Hk" in
          let Hf := fresh "Hf" in
          intros (k & c & Hk & Hf);
          first [ split;
                  [ reflexivity
                  | let H := fresh in
                    intros H; cbn in H;
                    repeat (destruct H as [H|H]; try discriminate H);
                    exact H ]
                | exfalso; check_failure Hk Hf k ]
        | let H := fresh in
          intros H;
          first [ discriminate H
                | split;
                  [ first [ eexists; exists true; reflexivity
                          | eexists; exists false; reflexivity ]
                  | cbn; tauto ] ] ] ] ] ].

Lemma createGitTag_release_run (env : Env) (config : Config)
    (version : jsstring) (message target : optional) (w : World) :
  release_run env config version message target w
    (createGitTag env config version message target false w).
Proof.
  remember (createGitTag env config version message target false w)
    as r eqn:Er.
  unfold createGitTag in Er. cbv iota in Er.
  unfold try_catch at 1 in Er. unfold bind at 1 in Er.
  unfold release_run.
  destruct (working_dir env config target) as [dir|msg] eqn:Ewd.
  - assert (Ed : forall w0,
               match target with
               | Some (c :: a) =>
                   ret (addonsDirectory config ++ js "/" ++ c :: a)
               | _ => lift (current_dir env)
               end w0 = (Returned dir, w0)).
    { intros w0. unfold working_dir in Ewd.
      destruct target as [[|c a]|]; try (rewrite Ewd; reflexivity).
      injection Ewd as <-. reflexivity. }
    rewrite Ed in Er. clear Ed.
    unfold bind at 1 in Er. run_git Er.
    + finish_release_run Er.
    + cbn [negb] in Er.
      destruct (is_empty (trim (stdout o))) eqn:Dirty; cbn [negb] in Er;
        cbv beta iota in Er.
      * run_git Er.
        -- finish_release_run Er.
        -- run_git Er.
           ++ finish_release_run Er.
           ++ finish_release_run Er.
           ++ finish_release_run Er.
        -- finish_release_run Er.
      * run_git Er.
        -- finish_release_run Er.
        -- run_git Er.
           ++ finish_release_run Er.
           ++ run_git Er.
              ** finish_release_run Er.
              ** run_git Er.
                 --- finish_release_run Er.
                 --- finish_release_run Er.
                 --- finish_release_run Er.
              ** finish_release_run Er.
           ++ finish_release_run Er.
        -- finish_release_run Er.
    + finish_release_run Er.
  - assert (Ed : forall w0,
               match target with
               | Some (c :: a) =>
                   ret (addonsDirectory config ++ js "/" ++ c :: a)
               | _ => lift (current_dir env)
               end w0 = (Thrown (SystemError msg), w0)).
    { intros w0. unfold working_dir in Ewd.
      destruct target as [[|c a]|]; try (rewrite Ewd; reflexivity).
      discriminate. }
    rewrite Ed in Er. clear Ed. subst r.
    cbn [fst snd print files writes spawned console].
    repeat (split; [reflexivity|]).
    exists [], [(error, GitFailed (SystemError msg))].
    rewrite app_nil_r. repeat (split; [reflexivity|]).
    split; [intros [|k] c Hk; discriminate Hk|].
    split; [cbn; lia|].
    split; [intros ([|k] & c & Hk & _); discriminate Hk|].
    intros H; discriminate H.
Qed.

(* ================================================================= *)
(** * Bumping all addons *)

(** A loop whose rounds all return, and spawn what is wanted of them. *)
Lemma for_each_attempts (A : Type) (wanted : A -> option Command)
    (l : list A) (body : A -> M unit) :
  (forall x, In x l -> forall w,
      fst (body x w) = Returned tt /\
      exists ex, spawned (snd (body x w)) = spawned w ++ ex /\
                 forall c, wanted x = Some c -> In c ex) ->
  forall w,
    fst (for_each l body w) = Returned tt /\
    exists added,
      spawned (snd (for_each l body w)) = spawned w ++ added /\
      forall x c, In x l -> wanted x = Some c -> In c added.
Proof.
  induction l as [|x l IH]; intros H w.
  - simpl. split; [reflexivity|]. exists []. rewrite app_nil_r.
    split; [reflexivity|]. intros x c [].
  - cbn [for_each]. unfold bind.
    destruct (H x (or_introl eq_refl) w) as (R & ex & S & W).
    destruct (body x w) as [o w1]. simpl in R, S. subst o.
    destruct (IH (fun y Hy => H y (or_intror Hy)) w1) as (R' & added & S' & W').
    split; [exact R'|]. exists (ex ++ added).
    rewrite S', S, app_assoc. split; [reflexivity|].
    intros y c [<-|Hy] Hc; apply in_or_app; eauto.
Qed.

Lemma harmless_print (ch : Channel) (l : Line) : harmless (print ch l).
Proof. intros w. split; reflexivity. Qed.

Lemma harmless_ret : harmless (ret tt).
Proof. intros w. split; reflexivity. Qed.

Lemma harmless_seq (m k : M unit) :
  harmless m -> harmless k -> harmless (m ;; k).
Proof.
  intros Hm Hk w. unfold bind. destruct (Hm w) as [R S].
  destruct (m w) as [o w1]. simpl in R, S. subst o.
  destruct (Hk w1) as [R' S']. split; congruence.
Qed.

Lemma harmless_for_each (A : Type) (l : list A) (body : A -> M unit) :
  (forall x, harmless (body x)) -> harmless (for_each l body).
Proof.
  intros H. induction l as [|x l IH]; cbn [for_each].
  - apply harmless_ret.
  - apply harmless_seq; auto.
Qed.

(** [updateFiles] returns normally whatever the writes do, and spawns
    nothing. *)
Lemma updateFiles_harmless (env : Env) (files : list TocFile)
    (options : VersionBumpOptions) :
  harmless (updateFiles env files options).
Proof.
  unfold updateFiles. apply harmless_seq.
  - destruct (dryRun options); [apply harmless_print | apply harmless_ret].
  - apply harmless_for_each. intros f.
    destruct (dryRun options); [apply harmless_print|].
    intros w. unfold try_catch, bind, writeTextFileSync, print.
    destruct (write_error env (writes w) (path f)); split; reflexivity.
Qed.

Lemma createGitTag_attempts (env : Env) (config : Config)
    (version : jsstring) (message : optional) (addon : jsstring)
    (w : World) :
  let r := createGitTag env config version message (Some addon) false w in
  fst r = Returned tt /\
  exists ex,
    spawned (snd r) = spawned w ++ ex /\
    (addon <> [] -> In (first_command config addon) ex).
Proof.
  destruct (createGitTag_release_run env config version message
              (Some addon) w)
    as (R & _ & _ & ex & lines & S & _ & P & _).
  cbv zeta. split; [exact R|]. exists ex. split; [exact S|].
  intros NE. destruct addon as [|c a]; [contradiction|].
  cbn [working_dir] in P. destruct P as (dirty & _ & (rest & ->)).
  left. reflexivity.
Qed.

Lemma getNextVersion_outcome (tocFiles : list TocFile) (target : optional)
    (bump : BumpType) (w : World) :
  fst (getNextVersion tocFiles target bump w)
    = next_outcome tocFiles target bump /\
  spawned (snd (getNextVersion tocFiles target bump w)) = spawned w.
Proof.
  split; [|apply (getNextVersion_quiet tocFiles target bump w)].
  unfold next_outcome, getNextVersion.
  destruct (is_empty_list tocFiles); [reflexivity|].
  destruct (is_empty_list (filesToCheck tocFiles target)); [reflexivity|].
  destruct (highest (filesToCheck tocFiles target)); [|reflexivity].
  destruct (Semver.parse (Parsed.original t)); reflexivity.
Qed.

Lemma format_nonempty (v : Semver.SemVer) : Semver.format v <> [].
Proof.
  unfold Semver.format.
  destruct (decimal_string_canonical (Semver.major v)) as (c & rest & E & _).
  rewrite E.
  destruct (is_empty (join [DOT] (Semver.prerelease v)));
    destruct (is_empty (join [DOT] (Semver.build v))); discriminate.
Qed.

(** [getNextVersion] returns [null], returns a non-empty version, or
    throws the error of [parse]. *)
Lemma next_outcome_cases (tocFiles : list TocFile) (target : optional)
    (bump : BumpType) :
  (next_outcome tocFiles target bump = Returned None /\
   (tocFiles = [] \/ filesToCheck tocFiles target = [])) \/
  (exists c v, next_outcome tocFiles target bump = Returned (Some (c :: v)))
  \/ (exists v, next_outcome tocFiles target bump = Thrown (InvalidVersion v)).
Proof.
  unfold next_outcome, getNextVersion.
  destruct tocFiles as [|f fs]; [left; auto|]. cbn [is_empty_list].
  destruct (filesToCheck (f :: fs) target) as [|g gs] eqn:E; [left; auto|].
  cbn [is_empty_list]. right.
  change (highest (g :: gs))
    with (Some (fold_left higher (map parse_parts gs) (parse_parts g))).
  cbv iota.
  destruct (Semver.parse _) as [sv|] eqn:P.
  - left. pose proof (format_nonempty (Semver.increment sv bump)) as NE.
    destruct (Semver.format (Semver.increment sv bump)) as [|c v] eqn:F;
      [contradiction|].
    exists c, v. reflexivity.
  - right. eexists. reflexivity.
Qed.

Lemma group_add_names (g : list (jsstring * list TocFile)) (x : TocFile)
    (n : jsstring) :
  In n (map fst (group_add g x)) -> In n (map fst g) \/ n = addonName x.
Proof.
  induction g as [|[m fs] g IH]; simpl.
  - intros [<-|[]]. now right.
  - destruct (str_eqb m (addonName x)); simpl.
    + intros [<-|H]; auto.
    + intros [<-|H]; auto. destruct (IH H); auto.
Qed.

Lemma fold_group_add_names (l : list TocFile)
    (g : list (jsstring * list TocFile)) (n : jsstring) :
  In n (map fst (fold_left group_add l g)) ->
  In n (map fst g) \/ exists f, In f l /\ addonName f = n.
Proof.
  revert g; induction l as [|x l IH]; intros g; simpl; auto.
  intros H. destruct (IH _ H) as [H1|(f & Hf & E)].
  - destruct (group_add_names _ _ _ H1) as [H2|H2]; [auto|].
    right. exists x. auto.
  - right. exists f. auto.
Qed.

Lemma addonGroups_names (l : list TocFile) (n : jsstring)
    (fs : list TocFile) :
  In (n, fs) (addonGroups l) -> exists f, In f l /\ addonName f = n.
Proof.
  intros H. apply (in_map fst) in H.
  destruct (fold_group_add_names _ _ _ H) as [[]|H']. exact H'.
Qed.

(** For the name of a group the next version is never [null]. *)
Lemma next_outcome_group (tocFiles : list TocFile) (n : jsstring)
    (fs : list TocFile) (bump : BumpType) :
  In (n, fs) (addonGroups tocFiles) ->
  (exists c v, next_outcome tocFiles (Some n) bump = Returned (Some (c :: v)))
  \/ (exists v, next_outcome tocFiles (Some n) bump
                = Thrown (InvalidVersion v)).
Proof.
  intros H. destruct (addonGroups_names _ _ _ H) as (f & Hf & E).
  destruct (next_outcome_cases tocFiles (Some n) bump) as [[_ [->|N]]|C];
    [destruct Hf | | exact C].
  exfalso. unfold filesToCheck in N. destruct n as [|c a].
  - subst tocFiles. destruct Hf.
  - unfold getTocFilesForAddon in N.
    assert (Hin : In f (filter (fun file => str_eqb (addonName file) (c :: a))
                          tocFiles)).
    { apply filter_In. split; [exact Hf|]. apply str_eqb_eq. exact E. }
    rewrite N in Hin. destruct Hin.
Qed.

(** The first loop of the auto-increment branch either completes, and
    then every group has a next version, or stops at a version of a group
    that [parse] rejects; it spawns nothing. *)
Lemma auto_update_loop (env : Env) (tocFiles : list TocFile)
    (options : VersionBumpOptions)
    (groups : list (jsstring * list TocFile)) (w : World) :
  let r :=
    for_each groups (fun '(addonName, files) =>
      addonNextVersion <-
        getNextVersion tocFiles (Some addonName) (bumpType options) ;;
      match addonNextVersion with
      | Some (c :: v) =>
          print log (AddonHeader addonName) ;;
          updateFiles env files (with_newVersion options (c :: v))
      | _ => ret tt
      end) w in
  spawned (snd r) = spawned w /\
  ((fst r = Returned tt /\
    forall n fs, In (n, fs) groups ->
      exists o, next_outcome tocFiles (Some n) (bumpType options)
                = Returned o) \/
   exists v n fs,
     In (n, fs) groups /\
     next_outcome tocFiles (Some n) (bumpType options)
     = Thrown (InvalidVersion v) /\
     fst r = Thrown (InvalidVersion v)).
Proof.
  cbv zeta. revert w. induction groups as [|[n fs] groups IH]; intros w.
  - simpl. split; [reflexivity|]. left. split; [reflexivity|].
    intros n fs [].
  - match goal with
    | |- context [for_each ((n, fs) :: groups) ?body w] =>
        remember (for_each ((n, fs) :: groups) body w) as r eqn:Er
    end.
    cbn [for_each] in Er. unfold bind at 1 in Er. unfold bind at 1 in Er.
    destruct (getNextVersion_outcome tocFiles (Some n) (bumpType options) w)
      as [Ho Hs].
    destruct (getNextVersion tocFiles (Some n) (bumpType options) w)
      as [o w1].
    cbn [fst snd] in Ho, Hs. subst o.
    destruct (next_outcome_cases tocFiles (Some n) (bumpType options))
      as [[E _]|[(c & v & E)|(v & E)]]; rewrite E in Er.
    + cbn [ret] in Er. subst r.
      destruct (IH w1) as [S [[R H]|T]]; rewrite <- Hs.
      * split; [exact S|]. left. split; [exact R|].
        intros n' fs' [[= <- <-]|Hin]; eauto.
      * split; [exact S|]. right.
        destruct T as (v' & n' & fs' & Hin & Ev & T).
        exists v', n', fs'. split; [right; exact Hin | auto].
    + match type of Er with
      | context [let (_, _) := ?m w1 in _] =>
          assert (Hm : harmless m)
            by (apply harmless_seq;
                [apply harmless_print | apply updateFiles_harmless]);
          destruct (Hm w1) as [R1 S1]; destruct (m w1) as [o2 w2]
      end.
      cbn [fst snd] in R1, S1. subst o2 r.
      destruct (IH w2) as [S [[R H]|T]]; rewrite <- Hs, <- S1.
      * split; [exact S|]. left. split; [exact R|].
        intros n' fs' [[= <- <-]|Hin]; eauto.
      * split; [exact S|]. right.
        destruct T as (v' & n' & fs' & Hin & Ev & T).
        exists v', n', fs'. split; [right; exact Hin | auto].
    + subst r. split; [exact Hs|]. right. exists v, n, fs.
      split; [left; reflexivity | split; [exact E | reflexivity]].
Qed.

Lemma explicit_tag_loop (env : Env) (config : Config)
    (version : jsstring) (groups : list (jsstring * list TocFile))
    (w : World) :
  let r :=
    for_each groups (fun '(addonName, _) =>
      print log (TagFor false addonName) ;;
      createGitTag env config version
        (Some (addon_bump_message addonName version))
        (Some addonName) false) w in
  fst r = Returned tt /\
  exists added,
    spawned (snd r) = spawned w ++ added /\
    forall x c, In x groups -> wanted_of config x = Some c -> In c added.
Proof.
  cbv zeta. apply for_each_attempts. intros [n fs] _ w0.
  match goal with
  | |- context [?body w0] =>
      match body with
      | bind _ _ => remember (body w0) as r eqn:Er
      end
  end.
  unfold bind, print in Er.
  match type of Er with
  | context [createGitTag env config version ?m (Some n) false ?w1] =>
      destruct (createGitTag_attempts env config version m n w1)
        as (R & ex & S & W)
  end.
  rewrite <- Er in R, S.
  split; [exact R|]. exists ex. split; [exact S|].
  unfold wanted_of. cbn [fst]. intros c Hc.
  destruct n as [|a n]; [discriminate|]. injection Hc as <-.
  apply W. discriminate.
Qed.

Lemma auto_tag_loop (env : Env) (config : Config)
    (tocFiles : list TocFile) (bump : BumpType)
    (groups : list (jsstring * list TocFile)) (w : World) :
  (forall n fs, In (n, fs) groups ->
     exists c v, next_outcome tocFiles (Some n) bump
                 = Returned (Some (c :: v))) ->
  let r :=
    for_each groups (fun '(addonName, _) =>
      addonNextVersion <- getNextVersion tocFiles (Some addonName) bump ;;
      match addonNextVersion with
      | Some (c :: v) =>
          print log (TagFor false addonName) ;;
          createGitTag env config (c :: v)
            (Some (addon_bump_message addonName (c :: v)))
            (Some addonName) false
      | _ => ret tt
      end) w in
  fst r = Returned tt /\
  exists added,
    spawned (snd r) = spawned w ++ added /\
    forall x c, In x groups -> wanted_of config x = Some c -> In c added.
Proof.
  intros H. cbv zeta. apply for_each_attempts. intros [n fs] Hin w0.
  destruct (H n fs Hin) as (c & v & E).
  match goal with
  | |- context [?body w0] =>
      match body with
      | bind _ _ => remember (body w0) as r eqn:Er
      end
  end.
  unfold bind at 1 in Er.
  destruct (getNextVersion_outcome tocFiles (Some n) bump w0) as [Ho Hs].
  destruct (getNextVersion tocFiles (Some n) bump w0) as [o w1].
  cbn [fst snd] in Ho, Hs. subst o. rewrite E in Er.
  unfold bind, print in Er.
  match type of Er with
  | context [createGitTag env config ?ver ?m (Some n) false ?w2] =>
      destruct (createGitTag_attempts env config ver m n w2)
        as (R & ex & S & W)
  end.
  rewrite <- Er in R, S.
  split; [exact R|]. exists ex. cbn [spawned] in S. rewrite Hs in S.
  split; [exact S|].
  unfold wanted_of. cbn [fst]. intros c0 Hc.
  destruct n as [|a n]; [discriminate|]. injection Hc as <-.
  apply W. discriminate.
Qed.

Lemma wanted_of_group (config : Config) (n : jsstring)
    (fs : list TocFile) :
  n <> [] -> wanted_of config (n, fs) = Some (first_command config n).
Proof. destruct n; [contradiction | reflexivity]. Qed.

(** A bump of all addons returns, with the release sequence of every
    addon started, unless it is to compute the versions and one of them
    is rejected; then it ends early. *)
Lemma bumpVersion_all_attempted (env : Env) (b : Bumper)
    (options : VersionBumpOptions) (w : World) :
  truthy (targetAddon options) = false ->
  dryRun options = false ->
  let r := bumpVersion env b options w in
  ((newVersion options <> [] \/
    forall v, ~ rejected (b_tocFiles b) (bumpType options) v) ->
   all_attempted (b_config b) (b_tocFiles b) w r) /\
  (newVersion options = [] ->
   (exists v, rejected (b_tocFiles b) (bumpType options) v) ->
   ended_early (b_tocFiles b) (bumpType options) w r).
Proof.
  intros T D. cbv zeta.
  remember (bumpVersion env b options w) as r eqn:Er.
  unfold bumpVersion in Er. rewrite D in Er.
  assert (Er' : r =
    (if negb (is_empty (newVersion options)) then
       print log (BumpingAll (newVersion options)) ;;
       print log (Rule 60) ;;
       for_each (addonGroups (b_tocFiles b)) (fun '(addonName, files) =>
         print log (AddonHeader addonName) ;;
         updateFiles env files options) ;;
       print log (TagsForAll false) ;;
       for_each (addonGroups (b_tocFiles b)) (fun '(addonName, _) =>
         print log (TagFor false addonName) ;;
         createGitTag env (b_config b) (newVersion options)
           (Some (addon_bump_message addonName (newVersion options)))
           (Some addonName) false)
     else
       print log BumpingIndividually ;;
       print log (Rule 60) ;;
       for_each (addonGroups (b_tocFiles b)) (fun '(addonName, files) =>
         addonNextVersion <-
           getNextVersion (b_tocFiles b) (Some addonName)
                          (bumpType options) ;;
         match addonNextVersion with
         | Some (c :: v) =>
             print log (AddonHeader addonName) ;;
             updateFiles env files (with_newVersion options (c :: v))
         | _ => ret tt
         end) ;;
       print log (TagsForAll false) ;;
       for_each (addonGroups (b_tocFiles b)) (fun '(addonName, _) =>
         addonNextVersion <-
           getNextVersion (b_tocFiles b) (Some addonName)
                          (bumpType options) ;;
         match addonNextVersion with
         | Some (c :: v) =>
             print log (TagFor false addonName) ;;
             createGitTag env (b_config b) (c :: v)
               (Some (addon_bump_message addonName (c :: v)))
               (Some addonName) false
         | _ => ret tt
         end)) w).
  { destruct (targetAddon options) as [[|c a]|]; [exact Er|discriminate|exact Er]. }
  clear Er. rename Er' into Er.
  destruct (newVersion options) as [|c0 v0] eqn:NV;
    cbn [is_empty negb] in Er.
  2: { (* an explicit version for all addons *)
    split; [intros _ | discriminate].
    unfold bind at 1 in Er. unfold print at 1 in Er.
    unfold bind at 1 in Er. unfold print at 1 in Er.
    unfold bind at 1 in Er.
    match type of Er with
    | context [let (_, _) := for_each ?l ?body ?w0 in _] =>
        assert (H1 : harmless (for_each l body))
          by (apply harmless_for_each; intros [n fs];
              apply harmless_seq;
              [apply harmless_print | apply updateFiles_harmless]);
        destruct (H1 w0) as [R1 S1];
        destruct (for_each l body w0) as [o1 w1]
    end.
    cbn [fst snd spawned] in R1, S1. subst o1.
    unfold bind at 1 in Er. unfold print at 1 in Er.
    match type of Er with
    | r = for_each _ _ ?w2 =>
        destruct (explicit_tag_loop env (b_config b) (c0 :: v0)
                    (addonGroups (b_tocFiles b)) w2)
          as (R2 & added & S2 & W2)
    end.
    rewrite <- Er in R2, S2. cbn [spawned] in S2. rewrite S1 in S2.
    split; [exact R2|]. exists added. split; [exact S2|].
    intros n fs Hin NE. apply (W2 (n, fs)); [exact Hin|].
    now apply wanted_of_group. }
  (* every addon to its own next version *)
  unfold bind at 1 in Er. unfold print at 1 in Er.
  unfold bind at 1 in Er. unfold print at 1 in Er.
  unfold bind at 1 in Er.
  match type of Er with
  | context [let (_, _) := for_each ?l ?body ?w0 in _] =>
      destruct (auto_update_loop env (b_tocFiles b) options l w0)
        as [S1 C1];
      destruct (for_each l body w0) as [o1 w1]
  end.
  cbn [fst snd spawned] in S1, C1.
  destruct C1 as [[-> Hall]|(v & n & fs & Hin & Ev & ->)].
  - split.
    + intros _.
      unfold bind at 1 in Er. unfold print at 1 in Er.
      match type of Er with
      | r = for_each _ _ ?w2 =>
          destruct (auto_tag_loop env (b_config b) (b_tocFiles b)
                      (bumpType options) (addonGroups (b_tocFiles b)) w2)
            as (R2 & added & S2 & W2)
      end.
      { intros n fs Hin. destruct (Hall n fs Hin) as (o & Eo).
        destruct (next_outcome_group (b_tocFiles b) n fs (bumpType options)
                    Hin) as [C|(v & C)]; [exact C|congruence]. }
      rewrite <- Er in R2, S2. cbn [spawned] in S2. rewrite S1 in S2.
      split; [exact R2|]. exists added. split; [exact S2|].
      intros n fs Hin NE. apply (W2 (n, fs)); [exact Hin|].
      now apply wanted_of_group.
    + intros _ (v & n & fs & Hin & Ev).
      destruct (Hall n fs Hin) as (o & Eo). congruence.
  - split.
    + intros [NE|NR]; [contradiction NE; reflexivity|].
      exfalso. apply (NR v). exists n, fs. auto.
    + intros _ _. exists v. split; [exists n, fs; auto|].
      subst r. split; [reflexivity | exact S1].
Qed.

(** C6. In a real call of the release recorder a command that ends with a
    non-zero status (or cannot be spawned) is the last command of the
    call: the commands run are an initial part of the sequence status,
    add and commit, tag, push, so the remaining steps are not run and
    nothing is run to undo a commit or tag already made; the failure is
    reported once; the call returns normally.  A bump of all addons, in
    whatever environment and so whatever its commands do, returns
    normally and starts the release sequence of every addon, when the
    version is given or the next version of every addon can be computed;
    it ends early only when it is to compute the versions and [parse]
    rejects one of them, and then before any command is spawned. *)
Theorem release_failure_semantics (env : Env) (config : Config)
    (version : jsstring) (message target : optional) (b : Bumper)
    (options : VersionBumpOptions) (w : World) :
  truthy (targetAddon options) = false ->
  dryRun options = false ->
  release_run env config version message target w
    (createGitTag env config version message target false w) /\
  ((newVersion options <> [] \/
    forall v, ~ rejected (b_tocFiles b) (bumpType options) v) ->
   all_attempted (b_config b) (b_tocFiles b) w
     (bumpVersion env b options w)) /\
  (newVersion options = [] ->
   (exists v, rejected (b_tocFiles b) (bumpType options) v) ->
   ended_early (b_tocFiles b) (bumpType options) w
     (bumpVersion env b options w)).
Proof.
  intros T D. split.
  - apply createGitTag_release_run.
  - exact (bumpVersion_all_attempted env b options w T D).
Qed.
(* ================================================================= *)
(** * Versions that [parse] rejects *)

(** A highest version with the tuple [(M, m, p)] need not be bumped: the
    text [1.02.3] has the tuple [(1, 2, 3)] and [1.2] the tuple
    [(1, 2, 0)], and on both [getNextVersion] throws the error of
    [parse] for every bump type, where [1.2.4] and [1.2.1] would be the
    patch bumps. *)
Lemma getNextVersion_throws_on_tuple :
  (exists h, highest (single_version (js "1.02.3")) = Some h /\
             has_tuple h 1 2 3) /\
  (exists h, highest (single_version (js "1.2")) = Some h /\
             has_tuple h 1 2 0) /\
  (forall bump w,
      fst (getNextVersion (single_version (js "1.02.3")) None bump w)
      = Thrown (InvalidVersion (js "1.02.3"))) /\
  (forall bump w,
      fst (getNextVersion (single_version (js "1.2")) None bump w)
      = Thrown (InvalidVersion (js "1.2"))) /\
  fst (getNextVersion (single_version (js "1.02.3")) None Patch empty_world)
  <> Returned (Some (bumped Patch 1 2 3)) /\
  fst (getNextVersion (single_version (js "1.2")) None Patch empty_world)
  <> Returned (Some (bumped Patch 1 2 0)).
Proof.
  split; [eexists; split; [reflexivity | vm_compute; auto]|].
  split; [eexists; split; [reflexivity | vm_compute; auto]|].
  split; [|split].
  - intros bump w.
    rewrite (proj1 (getNextVersion_outcome _ None bump w)).
    destruct bump; vm_compute; reflexivity.
  - intros bump w.
    rewrite (proj1 (getNextVersion_outcome _ None bump w)).
    destruct bump; vm_compute; reflexivity.
  - split; vm_compute; discriminate.
Qed.

(* ================================================================= *)
(** * The command line *)

(** An unknown command is reported on the error channel and [run] then
    returns normally: [Deno.exit] is not called. *)
Lemma run_unknown_command (env : Env) (bumper : Bumper)
    (command : jsstring) (rest : list jsstring) (w : World) :
  known_command command = false ->
  run env bumper (command :: rest) w
  = (Returned tt,
     {| console := console w ++ [(error, UnknownCommand)];
        files := files w; writes := writes w; spawned := spawned w |}).
Proof.
  unfold known_command, includes. cbn [existsb]. intros H.
  repeat (apply orb_false_iff in H as [? H]).
  unfold run, try_catch.
  repeat match goal with
         | E : str_eqb _ _ = false |- _ => rewrite E; clear E
         end.
  reflexivity.
Qed.

(** C7. On the argument list [frobnicate] the program prints the error
    line for an unknown command and ends normally: the exit status of the
    process is 0. *)
Theorem unknown_command_exit_status :
  let r := main sample_env [js "frobnicate"] sample_world in
  fst r = Returned tt /\
  exit_status (fst r) = 0%Z /\
  console (snd r) = [(error, UnknownCommand)].
Proof. vm_compute. repeat split. Qed.
(* ================================================================= *)
(** * Grouping the catalogue by addon *)

Lemma str_eqb_sym (a b : jsstring) : str_eqb a b = str_eqb b a.
Proof.
  revert b; induction a as [|x a IH]; intros [|y b]; simpl; auto.
  unfold char_eqb. now rewrite N.eqb_sym, IH.
Qed.

Lemma includes_In (l : list jsstring) (x : jsstring) :
  includes l x = true <-> In x l.
Proof.
  unfold includes. rewrite existsb_exists. split.
  - intros (y & Hy & E). apply str_eqb_eq in E. now subst y.
  - intros H. exists x. split; [exact H|]. now apply str_eqb_eq.
Qed.

Lemma includes_not_In (l : list jsstring) (x : jsstring) :
  includes l x = false <-> ~ In x l.
Proof.
  rewrite <- includes_In. destruct (includes l x); split; intros H;
    congruence.
Qed.

Lemma unique_snoc (xs : list jsstring) (x : jsstring) :
  unique (xs ++ [x]) = set_add (unique xs) x.
Proof. unfold unique. now rewrite fold_left_app. Qed.

Lemma set_add_In (seen : list jsstring) (x y : jsstring) :
  In y (set_add seen x) <-> In y seen \/ y = x.
Proof.
  unfold set_add. destruct (includes seen x) eqn:E.
  - apply includes_In in E. split; [auto|]. intros [H| ->]; assumption.
  - rewrite in_app_iff. simpl. intuition congruence.
Qed.

Lemma unique_In (xs : list jsstring) (x : jsstring) :
  In x (unique xs) <-> In x xs.
Proof.
  induction xs as [|y xs IH] using rev_ind; [reflexivity|].
  rewrite unique_snoc, set_add_In, IH, in_app_iff. simpl. intuition.
Qed.

Lemma NoDup_snoc (A : Type) (l : list A) (x : A) :
  NoDup l -> ~ In x l -> NoDup (l ++ [x]).
Proof.
  intros Hl Hx. induction Hl as [|y l Hy Hl IH]; simpl.
  - constructor; [intros []|constructor].
  - constructor.
    + rewrite in_app_iff. simpl. intros [H|[H|[]]]; [auto|].
      subst. apply Hx. now left.
    + apply IH. intros H. apply Hx. now right.
Qed.

Lemma unique_NoDup (xs : list jsstring) : NoDup (unique xs).
Proof.
  induction xs as [|y xs IH] using rev_ind; [constructor|].
  rewrite unique_snoc. unfold set_add.
  destruct (includes (unique xs) y) eqn:E; [exact IH|].
  apply NoDup_snoc; [exact IH|]. now apply includes_not_In.
Qed.

(** A [Set] built from strings that are already distinct is the list
    itself. *)
Lemma unique_of_NoDup (xs : list jsstring) : NoDup xs -> unique xs = xs.
Proof.
  induction xs as [|y xs IH] using rev_ind; [reflexivity|].
  intros H. rewrite unique_snoc.
  assert (Hxs : NoDup xs /\ ~ In y xs).
  { clear IH. induction xs as [|z xs IH]; simpl in *.
    - split; [constructor|intros []].
    - inversion H as [|? ? Hz Hr]; subst. destruct (IH Hr) as [N1 N2].
      split.
      + constructor; [|exact N1]. intros Hin. apply Hz.
        apply in_app_iff. now left.
      + intros [->|Hin]; [|auto]. apply Hz. apply in_app_iff. right.
        now left. }
  destruct Hxs as [N1 N2]. rewrite (IH N1). unfold set_add.
  apply includes_not_In in N2. now rewrite N2.
Qed.

Lemma group_add_names_set (g : list (jsstring * list TocFile))
    (x : TocFile) :
  map fst (group_add g x) = set_add (map fst g) (addonName x).
Proof.
  induction g as [|[m fs] g IH]; [reflexivity|].
  unfold set_add in *. cbn [group_add map fst includes existsb].
  fold (includes (map fst g) (addonName x)).
  rewrite (str_eqb_sym (addonName x) m).
  destruct (str_eqb m (addonName x)) eqn:E; [reflexivity|].
  cbn [map fst orb]. rewrite IH.
  now destruct (includes (map fst g) (addonName x)).
Qed.

Lemma addonGroups_snoc (l : list TocFile) (x : TocFile) :
  addonGroups (l ++ [x]) = group_add (addonGroups l) x.
Proof. unfold addonGroups. now rewrite fold_left_app. Qed.

(** The names of the groups are the addon names of the catalogue, each
    once, in the order of their first record. *)
Lemma addonGroups_names_unique (l : list TocFile) :
  map fst (addonGroups l) = unique (map addonName l).
Proof.
  induction l as [|x l IH] using rev_ind; [reflexivity|].
  rewrite addonGroups_snoc, group_add_names_set, IH, map_app.
  simpl. now rewrite unique_snoc.
Qed.

Lemma group_add_In (g : list (jsstring * list TocFile)) (x : TocFile)
    (n : jsstring) (fs : list TocFile) :
  NoDup (map fst g) ->
  In (n, fs) (group_add g x) ->
  (n <> addonName x /\ In (n, fs) g) \/
  (n = addonName x /\
   exists fs0, fs = fs0 ++ [x] /\
               (In (n, fs0) g \/ (fs0 = [] /\ ~ In n (map fst g)))).
Proof.
  induction g as [|[m ms] g IH]; intros N H.
  - simpl in H. destruct H as [[= <- <-]|[]]. right. split; [reflexivity|].
    exists []. split; [reflexivity|]. right. split; [reflexivity|intros []].
  - cbn [map fst] in N. inversion N as [|? ? Hm Ng]; subst.
    cbn [group_add] in H. destruct (str_eqb m (addonName x)) eqn:E.
    + apply str_eqb_eq in E. subst m. destruct H as [[= <- <-]|H].
      * right. split; [reflexivity|]. exists ms. split; [reflexivity|].
        left. now left.
      * left. split; [|now right]. intros ->. apply Hm.
        change (addonName x) with (fst (addonName x, fs)).
        now apply in_map.
    + assert (Hne : m <> addonName x).
      { intros ->. rewrite (proj2 (str_eqb_eq _ _) eq_refl) in E.
        discriminate. }
      destruct H as [[= <- <-]|H].
      * left. split; [exact Hne|now left].
      * destruct (IH Ng H) as [[H1 H2]|[H1 (fs0 & H2 & H3)]].
        -- left. split; [exact H1|now right].
        -- right. split; [exact H1|]. exists fs0. split; [exact H2|].
           destruct H3 as [H3|[H3 H4]]; [left; now right|].
           right. split; [exact H3|]. cbn [map fst]. intros [->|Hin];
             [now apply Hne|now apply H4].
Qed.

Lemma filter_snoc (A : Type) (f : A -> bool) (l : list A) (x : A) :
  filter f (l ++ [x]) = filter f l ++ (if f x then [x] else []).
Proof. rewrite filter_app. reflexivity. Qed.

Lemma str_eqb_neq (a b : jsstring) : str_eqb a b = false <-> a <> b.
Proof.
  rewrite <- str_eqb_eq. destruct (str_eqb a b); split; congruence.
Qed.

(** Every group holds the records of its addon, in catalogue order, and
    is not empty. *)
Lemma addonGroups_entries (l : list TocFile) (n : jsstring)
    (fs : list TocFile) :
  In (n, fs) (addonGroups l) -> fs = getTocFilesForAddon l n /\ fs <> [].
Proof.
  revert n fs. induction l as [|x l IH] using rev_ind; intros n fs H.
  - destruct H.
  - rewrite addonGroups_snoc in H. unfold getTocFilesForAddon.
    rewrite filter_snoc. apply group_add_In in H;
      [|rewrite addonGroups_names_unique; apply unique_NoDup].
    destruct H as [[H1 H2]|[H1 (fs0 & H2 & H3)]].
    + destruct (IH _ _ H2) as [E N].
      assert (F : str_eqb (addonName x) n = false)
        by (apply str_eqb_neq; congruence).
      rewrite F, app_nil_r. split; assumption.
    + subst n fs. rewrite (proj2 (str_eqb_eq _ _) eq_refl).
      split; [|now destruct fs0]. f_equal.
      destruct H3 as [H3|[-> H3]]; [now apply IH|].
      rewrite addonGroups_names_unique, unique_In in H3.
      symmetry. clear IH. induction l as [|y l IHl]; [reflexivity|].
      simpl in *. destruct (str_eqb (addonName y) (addonName x)) eqn:E.
      * exfalso. apply H3. left. now apply str_eqb_eq.
      * apply IHl. intros Hin. apply H3. now right.
Qed.

(** Conversely, the records of an addon of the catalogue form one of
    the groups. *)
Lemma addonGroups_complete (l : list TocFile) (n : jsstring) :
  getTocFilesForAddon l n <> [] ->
  In (n, getTocFilesForAddon l n) (addonGroups l).
Proof.
  intros H.
  assert (Hn : In n (map fst (addonGroups l))).
  { rewrite addonGroups_names_unique, unique_In.
    destruct (getTocFilesForAddon l n) as [|f r] eqn:E; [now destruct H|].
    assert (Hf : In f (getTocFilesForAddon l n)) by (rewrite E; now left).
    apply filter_In in Hf as [Hf Hn]. apply str_eqb_eq in Hn. subst n.
    now apply in_map. }
  apply in_map_iff in Hn as ([m fs] & E & Hin). simpl in E. subst m.
  destruct (addonGroups_entries _ _ _ Hin) as [-> _]. exact Hin.
Qed.

Lemma group_add_records (g : list (jsstring * list TocFile)) (x : TocFile) :
  Permutation (concat (map snd (group_add g x)))
              (concat (map snd g) ++ [x]).
Proof.
  induction g as [|[m fs] g IH]; [reflexivity|].
  cbn [group_add]. destruct (str_eqb m (addonName x));
    cbn [map snd concat].
  - rewrite <- !app_assoc. apply Permutation_app_head.
    apply Permutation_app_comm.
  - rewrite <- app_assoc. now apply Permutation_app_head.
Qed.

(** Every record of the catalogue is in exactly one group. *)
Lemma addonGroups_records (l : list TocFile) :
  Permutation (concat (map snd (addonGroups l))) l.
Proof.
  induction l as [|x l IH] using rev_ind; [reflexivity|].
  rewrite addonGroups_snoc, group_add_records.
  now apply Permutation_app_tail.
Qed.

(** X9. The groups that [bumpVersion] and [showCurrentVersions] build with a
    [Map] partition the catalogue: there is one group for every addon
    name of the catalogue, in the order of the first record of each; a
    group holds exactly the records of its addon, in catalogue order,
    and is never empty; every record is in exactly one group. *)
Theorem addonGroups_partition (l : list TocFile) :
  map fst (addonGroups l) = unique (map addonName l) /\
  NoDup (map fst (addonGroups l)) /\
  (forall n fs,
      In (n, fs) (addonGroups l) <->
      fs = getTocFilesForAddon l n /\ fs <> []) /\
  Permutation (concat (map snd (addonGroups l))) l.
Proof.
  split; [apply addonGroups_names_unique|].
  split; [rewrite addonGroups_names_unique; apply unique_NoDup|].
  split; [|apply addonGroups_records].
  intros n fs. split; [apply addonGroups_entries|].
  intros [-> H]. now apply addonGroups_complete.
Qed.
(* ================================================================= *)
(** * The reports *)

Lemma length_concat (A : Type) (ls : list (list A)) :
  length (concat ls) = list_sum (map (@length A) ls).
Proof.
  induction ls as [|l ls IH]; [reflexivity|].
  simpl. now rewrite length_app, IH.
Qed.

(** X6. [listAddons] lists the groups of [bumpVersion]: the same addons in
    the same order, each once, with the size of its group; the counts
    are positive and add up to the number of records of the
    catalogue. *)
Theorem listAddons_counts_groups (l : list TocFile) :
  listAddons l
  = AvailableAddons :: Underline 30
      :: map (fun g => AddonCount (fst g) (length (snd g))) (addonGroups l)
  /\ list_sum (map counted (listAddons l)) = length l
  /\ (forall n k, In (AddonCount n k) (listAddons l) -> 0 < k).
Proof.
  assert (E : listAddons l
              = AvailableAddons :: Underline 30
                  :: map (fun g => AddonCount (fst g) (length (snd g)))
                         (addonGroups l)).
  { unfold listAddons. cbn [app]. do 2 f_equal.
    rewrite <- addonGroups_names_unique, map_map.
    apply map_ext_in. intros [n fs] H. cbn [fst snd].
    destruct (addonGroups_entries _ _ _ H) as [-> _]. reflexivity. }
  split; [exact E|]. rewrite E. split.
  - cbn [map counted list_sum]. rewrite map_map. cbn [counted].
    rewrite <- (Permutation_length (addonGroups_records l)).
    rewrite length_concat, map_map. reflexivity.
  - intros n k [H|[H|H]]; [discriminate H|discriminate H|].
    apply in_map_iff in H as ([m fs] & [= <- <-] & H). cbn [snd].
    destruct (addonGroups_entries _ _ _ H) as [_ N].
    destruct fs; [now destruct N|simpl; lia].
Qed.

(** A [Set] of strings has more than one element exactly when two of
    the strings differ. *)
Lemma unique_several (vs : list jsstring) :
  (1 <? length (unique vs)) = true <->
  exists a b, In a vs /\ In b vs /\ a <> b.
Proof.
  rewrite Nat.ltb_lt. pose proof (unique_NoDup vs) as N.
  split.
  - intros H. destruct (unique vs) as [|a [|b r]] eqn:E;
      [simpl in H; lia|simpl in H; lia|].
    exists a, b. repeat split.
    + apply unique_In. rewrite E. now left.
    + apply unique_In. rewrite E. right. now left.
    + inversion N as [|? ? Ha _]; subst. intros ->. apply Ha. now left.
  - intros (a & b & Ha & Hb & Hab). apply unique_In in Ha, Hb.
    destruct (unique vs) as [|x [|y r]]; [destruct Ha| |simpl; lia].
    destruct Ha as [<-|[]], Hb as [<-|[]]. now destruct Hab.
Qed.

Lemma unique_single (vs : list jsstring) (v : jsstring) :
  In v vs -> (forall a, In a vs -> a = v) -> unique vs = [v].
Proof.
  intros Hv Hall. pose proof (unique_NoDup vs) as N.
  apply unique_In in Hv.
  assert (Hu : forall a, In a (unique vs) -> a = v)
    by (intros a Ha; apply Hall; now apply unique_In).
  destruct (unique vs) as [|x [|y r]]; [destruct Hv| |].
  - destruct Hv as [->|[]]. reflexivity.
  - exfalso. inversion N as [|? ? Hx _]; subst. apply Hx.
    rewrite (Hu x), (Hu y); [now left|right; now left|now left].
Qed.

Lemma show_group_inconsistent (n m : jsstring) (fs : list TocFile) :
  In (InconsistentVersions n) (show_group (m, fs)) <->
  m = n /\ (1 <? length (unique (map version fs))) = true.
Proof.
  unfold show_group. cbn [In]. rewrite in_app_iff, in_map_iff.
  destruct (1 <? length (unique (map version fs))); cbn [In].
  - split.
    + intros [H|[(f & H & _)|[H|[H|[]]]]]; try discriminate H.
      injection H as ->. now split.
    + intros [-> _]. right. right. now left.
  - split.
    + intros [H|[(f & H & _)|[H|[]]]]; discriminate H.
    + intros [_ H]. discriminate H.
Qed.

Lemma show_group_consistent (o : optional) (m : jsstring)
    (fs : list TocFile) :
  In (ConsistentVersion o) (show_group (m, fs)) <->
  (1 <? length (unique (map version fs))) = false /\
  o = hd_error (unique (map version fs)).
Proof.
  unfold show_group. cbn [In]. rewrite in_app_iff, in_map_iff.
  destruct (1 <? length (unique (map version fs))); cbn [In].
  - split.
    + intros [H|[(f & H & _)|[H|[H|[]]]]]; discriminate H.
    + intros [H _]. discriminate H.
  - split.
    + intros [H|[(f & H & _)|[H|[]]]]; try discriminate H.
      injection H as <-. now split.
    + intros [_ ->]. right. right. now left.
Qed.

Lemma in_getTocFilesForAddon (l : list TocFile) (n : jsstring)
    (f : TocFile) :
  In f (getTocFilesForAddon l n) <-> In f l /\ addonName f = n.
Proof.
  unfold getTocFilesForAddon. now rewrite filter_In, str_eqb_eq.
Qed.

(** The lines of the groups of a non-empty selection. *)
Lemma showCurrentVersions_groups (l : list TocFile) (target : optional)
    (r : Report) :
  r <> CurrentVersions -> r <> Underline 60 ->
  (forall a, r <> NoFilesForAddon a) -> r <> NoFilesAnywhere ->
  In r (showCurrentVersions l target) <->
  exists n, getTocFilesForAddon (filesToCheck l target) n <> [] /\
            In r (show_group
                    (n, getTocFilesForAddon (filesToCheck l target) n)).
Proof.
  intros R1 R2 R3 R4. unfold showCurrentVersions.
  set (shown := filesToCheck l target). cbn [app In].
  destruct shown as [|f0 shown'] eqn:S; cbn [is_empty_list].
  - split.
    + intros [H|[H|H]]; [now destruct R1|now destruct R2|].
      destruct target as [[|c a]|]; destruct H as [H|[]];
        solve [now destruct R4 | now destruct (R3 (c :: a))].
    + intros (n & H & _). now destruct H.
  - rewrite <- S. split.
    + intros [H|[H|H]]; [now destruct R1|now destruct R2|].
      apply in_concat in H as (lines & H & Hr).
      apply in_map_iff in H as ([n fs] & <- & H).
      destruct (addonGroups_entries _ _ _ H) as [-> N].
      exists n. now split.
    + intros (n & N & H). right. right. apply in_concat.
      eexists. split; [|exact H]. apply in_map.
      now apply addonGroups_complete.
Qed.

(** X7. [showCurrentVersions] warns about an addon exactly when two of the
    records shown for it carry different versions, and reports a
    consistent version exactly for the addons whose records all carry
    it; the version it reports is never [undefined]. *)
Theorem showCurrentVersions_verdicts (l : list TocFile)
    (target : optional) :
  let shown := filesToCheck l target in
  (forall n,
      In (InconsistentVersions n) (showCurrentVersions l target) <->
      exists f g, In f shown /\ In g shown /\
                  addonName f = n /\ addonName g = n /\
                  version f <> version g) /\
  (forall o,
      In (ConsistentVersion o) (showCurrentVersions l target) <->
      exists f, In f shown /\ o = Some (version f) /\
                forall g, In g shown -> addonName g = addonName f ->
                          version g = version f).
Proof.
  intros shown. split.
  - intros n. rewrite showCurrentVersions_groups by (intros; discriminate).
    fold shown. split.
    + intros (m & _ & H). apply show_group_inconsistent in H as [-> H].
      apply unique_several in H as (a & b & Ha & Hb & Hab).
      apply in_map_iff in Ha as (f & <- & Hf).
      apply in_map_iff in Hb as (g & <- & Hg).
      apply in_getTocFilesForAddon in Hf as [Hf Ef], Hg as [Hg Eg].
      exists f, g. repeat split; assumption.
    + intros (f & g & Hf & Hg & Ef & Eg & Hv).
      assert (Hf' : In f (getTocFilesForAddon shown n))
        by now apply in_getTocFilesForAddon.
      assert (Hg' : In g (getTocFilesForAddon shown n))
        by now apply in_getTocFilesForAddon.
      exists n. split; [intros E; rewrite E in Hf'; destruct Hf'|].
      apply show_group_inconsistent. split; [reflexivity|].
      apply unique_several. exists (version f), (version g).
      repeat split; [now apply in_map|now apply in_map|exact Hv].
  - intros o. rewrite showCurrentVersions_groups by (intros; discriminate).
    fold shown. split.
    + intros (m & N & H). apply show_group_consistent in H as [H ->].
      destruct (getTocFilesForAddon shown m) as [|f fs] eqn:E;
        [now destruct N|].
      assert (Hf : In f (getTocFilesForAddon shown m))
        by (rewrite E; now left).
      rewrite <- E in *. clear E.
      assert (Hall : forall a,
                 In a (map version (getTocFilesForAddon shown m)) ->
                 a = version f).
      { intros a Ha. destruct (list_eq_dec N.eq_dec a (version f)) as [|D];
          [assumption|]. exfalso.
        assert (T : (1 <? length (unique (map version
                         (getTocFilesForAddon shown m)))) = true).
        { apply unique_several. exists a, (version f).
          repeat split; [exact Ha|now apply in_map|exact D]. }
        rewrite T in H. discriminate. }
      rewrite (@unique_single _ (version f)) by
        (try assumption; now apply in_map).
      apply in_getTocFilesForAddon in Hf as [Hf Ef].
      exists f. split; [exact Hf|]. split; [reflexivity|].
      intros g Hg Eg. apply Hall. apply in_map.
      apply in_getTocFilesForAddon. split; congruence.
    + intros (f & Hf & -> & Hall).
      assert (Hf' : In f (getTocFilesForAddon shown (addonName f)))
        by now apply in_getTocFilesForAddon.
      exists (addonName f).
      split; [intros E; rewrite E in Hf'; destruct Hf'|].
      apply show_group_consistent.
      rewrite (@unique_single _ (version f)).
      * split; reflexivity.
      * now apply in_map.
      * intros a Ha. apply in_map_iff in Ha as (g & <- & Hg).
        apply in_getTocFilesForAddon in Hg as [Hg Eg]. now apply Hall.
Qed.
(* ================================================================= *)
(** * Explicit versions on the command line *)

Lemma digits_field (d : jsstring) :
  negb (is_empty d) && forallb is_digit d = true <-> digits d.
Proof.
  unfold digits. rewrite andb_true_iff. destruct d; simpl; split;
    intros [H1 H2]; split; congruence.
Qed.

(** The fields of a text that passes the test. *)
Lemma explicit_fields (s : jsstring) :
  is_explicit_version s = true ->
  exists a b c,
    s = a ++ [DOT] ++ b ++ [DOT] ++ c /\
    digits a /\ digits b /\ digits c.
Proof.
  unfold is_explicit_version, split_dot.
  intros H. pose proof (join_split DOT s) as J.
  destruct (split_on DOT s) as [|a [|b [|c [|d r]]]]; try discriminate H.
  cbn [forallb] in H. rewrite andb_true_r in H.
  apply andb_true_iff in H as [Ha H]. apply andb_true_iff in H as [Hb Hc].
  exists a, b, c. rewrite <- J. cbn [join].
  repeat split; solve [reflexivity | now apply digits_field].
Qed.

(** X15. The test [/^\d+\.\d+\.\d+$/] of [parseBumpArgs] accepts exactly
    the texts made of three non-empty runs of digits separated by two
    dots: no sign, no white space, no fourth field, no pre-release
    suffix. *)
Theorem is_explicit_version_three_numbers (s : jsstring) :
  is_explicit_version s = true <->
  exists a b c,
    s = a ++ [DOT] ++ b ++ [DOT] ++ c /\
    digits a /\ digits b /\ digits c.
Proof.
  split; [apply explicit_fields|].
  intros (a & b & c & -> & Ha & Hb & Hc).
  unfold is_explicit_version, split_dot.
  assert (D : is_digit DOT = false) by reflexivity.
  cbn [app].
  rewrite split_on_app by (apply digits_without; [exact D|apply Ha]).
  rewrite split_on_app by (apply digits_without; [exact D|apply Hb]).
  rewrite split_on_absent by (apply digits_without; [exact D|apply Hc]).
  cbn [forallb]. apply digits_field in Ha, Hb, Hc.
  now rewrite Ha, Hb, Hc.
Qed.
(* ================================================================= *)
(** * Rewriting and reading back *)

Lemma update_read_back (c pre v post V : jsstring) :
  first_version_line c pre v post -> version_text V ->
  exec tocPattern (updateVersionInContent c V)
  = Some {| m_before := pre; m_matched := tocPrefix ++ V;
            m_captures := [V]; m_after := post |}.
Proof.
  intros F (N & T & D). rewrite (update_on_first_line F D).
  apply exec_toc_first. exact (first_version_line_update F N T).
Qed.

Lemma exec_toc_cases (c : jsstring) :
  (exists pre v post,
      first_version_line c pre v post /\
      exec tocPattern c
      = Some {| m_before := pre; m_matched := tocPrefix ++ v;
                m_captures := [v]; m_after := post |}) \/
  ((forall pre v post, ~ version_line c pre v post) /\
   exec tocPattern c = None).
Proof.
  destruct (exec tocPattern c) as [m|] eqn:E.
  - left. destruct (exec_toc_Some _ E) as (v & F & _).
    exists (m_before m), v, (m_after m). split; [exact F|].
    rewrite <- E. now apply exec_toc_first.
  - right. split; [|reflexivity]. intros pre v post.
    exact (@exec_toc_None c E pre v post).
Qed.

(** X3. What the loader's pattern finds in a rewritten content: the new
    version when the content had a version line, and still nothing when
    it had none. *)
Theorem rewritten_content_matches_new_version (content V : jsstring) :
  version_text V ->
  option_map capture1 (exec tocPattern (updateVersionInContent content V))
  = option_map (fun _ => V) (exec tocPattern content).
Proof.
  intros HV. destruct (exec_toc_cases content)
    as [(pre & v & post & F & E)|[No E]].
  - rewrite E, (update_read_back F HV). reflexivity.
  - rewrite (update_without_line _ No), E. reflexivity.
Qed.

(** X4. Rewrites compose: of two rewrites in a row the last one decides, so
    that a rewrite is idempotent, and rewriting a content with the
    version its own version line carries gives the content back. *)
Theorem updateVersionInContent_last_wins (content V1 V2 : jsstring) :
  version_text V1 -> version_text V2 ->
  updateVersionInContent (updateVersionInContent content V1) V2
  = updateVersionInContent content V2
  /\ updateVersionInContent (updateVersionInContent content V2) V2
     = updateVersionInContent content V2
  /\ (forall m, exec tocPattern content = Some m ->
                capture1 m = V2 ->
                updateVersionInContent content V2 = content).
Proof.
  intros H1 H2.
  assert (L : forall A B, version_text A -> version_text B ->
              updateVersionInContent (updateVersionInContent content A) B
              = updateVersionInContent content B).
  { intros A B (NA & TA & DA) (NB & TB & DB).
    destruct (exec_toc_cases content) as [(pre & v & post & F & E)|[No E]].
    - rewrite (update_on_first_line F DA), (update_on_first_line F DB).
      apply (@update_on_first_line _ pre A post B); [|exact DB].
      exact (first_version_line_update F NA TA).
    - now rewrite !(update_without_line _ No). }
  split; [now apply L|]. split; [now apply L|].
  intros m E <-. destruct (exec_toc_Some _ E) as (v & F & C & _).
  unfold capture1 in *. rewrite C in *. cbn [nth] in *.
  destruct H2 as (_ & _ & D). rewrite (update_on_first_line F D).
  destruct F as [(-> & _) _]. reflexivity.
Qed.

Lemma GetSubstitution_app (m : Match) (a t : jsstring) :
  dollar_free a -> GetSubstitution m (a ++ t) = a ++ GetSubstitution m t.
Proof.
  unfold dollar_free. induction a as [|c a IH]; [reflexivity|].
  cbn [forallb app]. intros H. apply andb_true_iff in H as [Hc Ha].
  cbn [GetSubstitution]. rewrite Hc. now rewrite IH.
Qed.

(** X5. The new version is used as a replacement template: with the version
    [$1] the content is returned as it was, with [$&] the old line is
    kept behind a second [## Version: ], and [$$] leaves a single [$]. *)
Theorem updateVersionInContent_template (content pre v post : jsstring) :
  first_version_line content pre v post ->
  updateVersionInContent content (js "$1") = content /\
  updateVersionInContent content (js "$&")
    = pre ++ tocPrefix ++ tocPrefix ++ v ++ post /\
  updateVersionInContent content (js "$$")
    = pre ++ tocPrefix ++ js "$" ++ post.
Proof.
  intros F. unfold updateVersionInContent, replace.
  rewrite (exec_toc_first F). destruct F as [(E & _) _].
  split; [|split].
  - rewrite E, GetSubstitution_app by apply tocPrefix_dollar_free.
    change (js "$1") with [DOLLAR; 49%N]. cbn.
    change (Pos.to_nat 1 - 1) with 0. cbn. now rewrite app_nil_r, <- app_assoc.
  - rewrite GetSubstitution_app by apply tocPrefix_dollar_free.
    change (js "$&") with [DOLLAR; 38%N]. cbn.
    now rewrite app_nil_r, <- !app_assoc.
  - rewrite GetSubstitution_app by apply tocPrefix_dollar_free.
    reflexivity.
Qed.
(* ================================================================= *)
(** * The catalogue as a function of the disk *)

Lemma reads_ret (A : Type) (disk : jsstring -> option jsstring) (a : A) :
  reads disk (ret a) (Returned a).
Proof. intros w _. split; [reflexivity|apply unchanged_refl]. Qed.

Lemma reads_print (disk : jsstring -> option jsstring) (ch : Channel)
    (l : Line) :
  reads disk (print ch l) (Returned tt).
Proof. intros w _. split; [reflexivity|repeat split]. Qed.

Lemma reads_exit (A : Type) (disk : jsstring -> option jsstring) (c : Z) :
  reads disk (@exit A c) (Exited c).
Proof. intros w _. split; [reflexivity|apply unchanged_refl]. Qed.

Lemma reads_when (disk : jsstring -> option jsstring) (b : bool)
    (m : M unit) :
  reads disk m (Returned tt) -> reads disk (when b m) (Returned tt).
Proof. destruct b; [auto|]. intros _. apply reads_ret. Qed.

Lemma reads_bind (A B : Type) (disk : jsstring -> option jsstring)
    (m : M A) (k : A -> M B) (a : A) (o : Outcome B) :
  reads disk m (Returned a) -> reads disk (k a) o ->
  reads disk (bind m k) o.
Proof.
  intros Hm Hk w Hw. unfold bind. destruct (Hm w Hw) as [E U].
  destruct (m w) as [o1 w1]. simpl in E, U. subst o1.
  destruct U as (F & U).
  destruct (Hk w1 (eq_trans F Hw)) as [E2 U2].
  split; [exact E2|]. eapply unchanged_trans; [|exact U2].
  split; [exact F|exact U].
Qed.

Lemma reads_bind_thrown (A B : Type) (disk : jsstring -> option jsstring)
    (m : M A) (k : A -> M B) (e : Error) :
  reads disk m (Thrown e) -> reads disk (bind m k) (Thrown e).
Proof.
  intros Hm w Hw. unfold bind. destruct (Hm w Hw) as [E U].
  destruct (m w) as [o1 w1]. simpl in E, U. subst o1. now split.
Qed.

Lemma reads_try (A : Type) (disk : jsstring -> option jsstring)
    (body : M A) (handler : Error -> M A) (a : A) :
  reads disk body (Returned a) ->
  reads disk (try_catch body handler) (Returned a).
Proof.
  intros Hb w Hw. unfold try_catch. destruct (Hb w Hw) as [E U].
  destruct (body w) as [o1 w1]. simpl in E, U. subst o1. now split.
Qed.

Lemma reads_catch (A : Type) (disk : jsstring -> option jsstring)
    (body : M A) (handler : Error -> M A) (e : Error) (o : Outcome A) :
  reads disk body (Thrown e) -> reads disk (handler e) o ->
  reads disk (try_catch body handler) o.
Proof.
  intros Hb Hh w Hw. unfold try_catch. destruct (Hb w Hw) as [E U].
  destruct (body w) as [o1 w1]. simpl in E, U. subst o1.
  destruct U as (F & U).
  destruct (Hh w1 (eq_trans F Hw)) as [E2 U2].
  split; [exact E2|]. eapply unchanged_trans; [|exact U2].
  split; [exact F|exact U].
Qed.

Lemma reads_collect (A B : Type) (disk : jsstring -> option jsstring)
    (l : list A) (body : A -> M (list B)) (f : A -> list B) :
  (forall x, In x l -> reads disk (body x) (Returned (f x))) ->
  reads disk (collect l body) (Returned (flat_map f l)).
Proof.
  induction l as [|x l IH]; intros H; cbn [collect flat_map].
  - apply reads_ret.
  - eapply reads_bind; [apply H; now left|].
    eapply reads_bind; [apply IH; intros; apply H; now right|].
    apply reads_ret.
Qed.

Lemma reads_file (env : Env) (disk : jsstring -> option jsstring)
    (p : jsstring) :
  reads disk (readTextFileSync env p)
        match disk p with
        | Some text => Returned text
        | None => Thrown (SystemError (read_error env p))
        end.
Proof.
  intros w <-. unfold readTextFileSync.
  destruct (files w p); (split; [reflexivity|apply unchanged_refl]).
Qed.

Lemma reads_lift (A : Type) (disk : jsstring -> option jsstring)
    (t : Try A) :
  reads disk (lift t)
        match t with
        | Ok a => Returned a
        | Err msg => Thrown (SystemError msg)
        end.
Proof.
  intros w _. destruct t; (split; [reflexivity|apply unchanged_refl]).
Qed.

Lemma load_toc_file_reads (env : Env) (disk : jsstring -> option jsstring)
    (addonDir addonPath tocFile : jsstring) :
  reads disk (load_toc_file env addonDir addonPath tocFile)
        (Returned (toc_record disk addonDir addonPath tocFile)).
Proof.
  unfold load_toc_file, toc_record.
  pose proof (@reads_file env disk (addonPath ++ js "/" ++ tocFile)) as R.
  destruct (disk (addonPath ++ js "/" ++ tocFile)) as [text|].
  - apply reads_try. eapply reads_bind; [exact R|].
    destruct (exec tocPattern text).
    + apply reads_ret.
    + eapply reads_bind; [apply reads_print|apply reads_ret].
  - eapply reads_catch; [apply reads_bind_thrown; exact R|].
    eapply reads_bind; [apply reads_print|apply reads_ret].
Qed.

Lemma load_addon_reads (env : Env) (disk : jsstring -> option jsstring)
    (dir : jsstring) (verbose : bool) (addonDir : jsstring) :
  reads disk (load_addon env dir verbose addonDir)
        (Returned (addon_records env disk dir addonDir)).
Proof.
  unfold load_addon, addon_records.
  pose proof (@reads_lift _ disk (read_dir env (dir ++ js "/" ++ addonDir)))
    as R.
  destruct (read_dir env (dir ++ js "/" ++ addonDir)) as [entries|msg].
  - apply reads_try. eapply reads_bind; [exact R|].
    eapply reads_bind; [apply reads_when, reads_print|].
    apply reads_collect. intros. apply load_toc_file_reads.
  - eapply reads_catch; [apply reads_bind_thrown; exact R|].
    eapply reads_bind; [apply reads_print|apply reads_ret].
Qed.

Lemma ret_bind (A B : Type) (a : A) (k : A -> M B) :
  bind (ret a) k = k a.
Proof. reflexivity. Qed.

Lemma reads_throw (A : Type) (disk : jsstring -> option jsstring)
    (e : Error) :
  reads disk (@throw A e) (Thrown e).
Proof. intros w _. split; [reflexivity|apply unchanged_refl]. Qed.

(** [loadAllTocFiles] returns the catalogue of the disk, or ends the
    process with status 1 when there is no listing of the addons
    directory. *)
Lemma loadAllTocFiles_reads (env : Env) (value : ConfigValue)
    (verbose : bool) (disk : jsstring -> option jsstring) :
  reads disk (loadAllTocFiles env value verbose)
        match catalogue env value disk with
        | Some records => Returned records
        | None => Exited 1
        end.
Proof.
  unfold loadAllTocFiles, catalogue, addon_dirs.
  destruct value as [config|message]; cbn [read_config].
  - rewrite ret_bind.
    pose proof (@reads_lift _ disk (read_dir env (addonsDirectory config)))
      as R.
    destruct (read_dir env (addonsDirectory config)) as [entries|msg].
    + apply reads_try. eapply reads_bind; [exact R|].
      eapply reads_bind.
      * apply reads_when. eapply reads_bind; [apply reads_print|].
        apply reads_when, reads_print.
      * apply reads_collect. intros. apply load_addon_reads.
    + eapply reads_catch; [apply reads_bind_thrown; exact R|].
      eapply reads_bind; [apply reads_print|apply reads_exit].
  - eapply reads_catch; [apply reads_bind_thrown, reads_throw|].
    eapply reads_bind; [apply reads_print|apply reads_exit].
Qed.
(* ================================================================= *)
(** * What the loader returns *)

(** X1. [loadAllTocFiles] never throws: an addon directory or a file
    that cannot be read, and a file without a version line, only cost a
    warning.  It ends the process, with status 1, exactly when there is
    no listing of the addons directory, because the configuration value
    does not conform or because the directory cannot be listed, and
    returns a catalogue otherwise; what it returns depends on the files
    only, not on the [verbose] flag, and it changes nothing but the
    console. *)
Theorem loadAllTocFiles_outcome (env : Env) (value : ConfigValue)
    (verbose verbose' : bool) (w w' : World) :
  files w = files w' ->
  let r := loadAllTocFiles env value verbose w in
  fst r = fst (loadAllTocFiles env value verbose' w') /\
  unchanged w (snd r) /\
  ((exists records config entries,
       fst r = Returned records /\
       value = Conforming config /\
       read_dir env (addonsDirectory config) = Ok entries)
   \/
   (fst r = Exited 1 /\
    ((exists message, value = NonConforming message) \/
     (exists config msg,
         value = Conforming config /\
         read_dir env (addonsDirectory config) = Err msg)))).
Proof.
  intros F r.
  destruct (@loadAllTocFiles_reads env value verbose (files w) w eq_refl)
    as [E U].
  destruct (@loadAllTocFiles_reads env value verbose' (files w) w'
              (eq_sym F)) as [E' _].
  fold r in E, U. split; [now rewrite E, E'|]. split; [exact U|].
  rewrite E. unfold catalogue. destruct value as [config|message].
  - destruct (read_dir env (addonsDirectory config)) as [entries|msg] eqn:R.
    + left. eexists. exists config, entries.
      split; [reflexivity|]. split; [reflexivity|exact R].
    + right. split; [reflexivity|]. right. exists config, msg.
      split; [reflexivity|exact R].
  - right. split; [reflexivity|]. left. now exists message.
Qed.

Lemma in_toc_record (disk : jsstring -> option jsstring)
    (addonDir addonPath tocFile : jsstring) (r : TocFile) :
  In r (toc_record disk addonDir addonPath tocFile) ->
  path r = addonPath ++ js "/" ++ tocFile /\ addonName r = addonDir /\
  disk (path r) = Some (content r) /\
  exists m, exec tocPattern (content r) = Some m /\ version r = capture1 m.
Proof.
  unfold toc_record.
  destruct (disk (addonPath ++ js "/" ++ tocFile)) as [text|] eqn:D;
    [|intros []].
  destruct (exec tocPattern text) as [m|] eqn:E; [|intros []].
  intros [<-|[]]. cbn [path addonName content version].
  repeat split; [exact D|]. exists m. now split.
Qed.

Lemma in_catalogue (env : Env) (config : Config)
    (disk : jsstring -> option jsstring) (records : list TocFile)
    (r : TocFile) :
  catalogue env (Conforming config) disk = Some records -> In r records ->
  exists entries e listed f,
    read_dir env (addonsDirectory config) = Ok entries /\
    In e entries /\ isDirectory e = true /\
    In (name e) (whitelistedAddons config) /\
    read_dir env (addonsDirectory config ++ js "/" ++ name e) = Ok listed /\
    In f listed /\ isFile f = true /\ endsWith (name f) (js ".toc") = true /\
    In r (toc_record disk (name e)
            (addonsDirectory config ++ js "/" ++ name e) (name f)).
Proof.
  unfold catalogue, addon_dirs.
  destruct (read_dir env (addonsDirectory config)) as [entries|] eqn:R;
    [|discriminate].
  intros [= <-] H. apply in_flat_map in H as (d & Hd & H).
  apply filter_In in Hd as [Hd Hw]. apply includes_In in Hw.
  apply in_map_iff in Hd as (e & <- & He).
  apply filter_In in He as [He Hdir].
  unfold addon_records in H.
  destruct (read_dir env (addonsDirectory config ++ js "/" ++ name e))
    as [listed|] eqn:R2; [|destruct H].
  apply in_flat_map in H as (t & Ht & H). unfold toc_names in Ht.
  apply in_map_iff in Ht as (f & <- & Hf).
  apply filter_In in Hf as [Hf Hb]. apply andb_true_iff in Hb as [B1 B2].
  exists entries, e, listed, f. repeat split; assumption.
Qed.

(** X2. Every record of the catalogue comes from a whitelisted
    directory: the configuration value conforms, the addon of the
    record is on its whitelist and is a directory of its addons
    directory, and the path of the record is that of a file of this
    directory whose name ends in [.toc]. *)
Theorem loaded_records_are_whitelisted (env : Env) (value : ConfigValue)
    (verbose : bool) (w : World) (records : list TocFile) (r : TocFile) :
  fst (loadAllTocFiles env value verbose w) = Returned records ->
  In r records ->
  exists config,
    value = Conforming config /\
    In (addonName r) (whitelistedAddons config) /\
    exists entries e listed f,
      read_dir env (addonsDirectory config) = Ok entries /\
      In e entries /\ isDirectory e = true /\ name e = addonName r /\
      read_dir env (addonsDirectory config ++ js "/" ++ addonName r)
        = Ok listed /\
      In f listed /\ isFile f = true /\
      endsWith (name f) (js ".toc") = true /\
      path r = (addonsDirectory config ++ js "/" ++ addonName r)
                 ++ js "/" ++ name f.
Proof.
  intros E Hin.
  destruct (@loadAllTocFiles_reads env value verbose (files w) w eq_refl)
    as [E' _].
  rewrite E in E'.
  destruct value as [config|message]; [|discriminate E'].
  exists config. split; [reflexivity|].
  destruct (catalogue env (Conforming config) (files w)) as [l|] eqn:C;
    [|discriminate]. injection E' as <-.
  destruct (in_catalogue _ _ _ _ C Hin)
    as (entries & e & listed & f & R & He & Hd & Hw & R2 & Hf & F1 & F2
        & H).
  apply in_toc_record in H as (P & N & _). rewrite N.
  split; [exact Hw|]. exists entries, e, listed, f.
  repeat split; assumption.
Qed.
(* ================================================================= *)
(** * Start-up *)

Lemma loadConfig_reads (env : Env) (disk : jsstring -> option jsstring)
    (verbose : bool) :
  reads disk (loadConfig env verbose) (Returned (effective_value env)).
Proof.
  unfold loadConfig, effective_value. destruct (config_json env).
  - eapply reads_bind; [apply reads_when, reads_print|apply reads_ret].
  - eapply reads_bind; [apply reads_print|apply reads_ret].
Qed.

Lemma reads_bind_exited (A B : Type) (disk : jsstring -> option jsstring)
    (m : M A) (k : A -> M B) (c : Z) :
  reads disk m (Exited c) -> reads disk (bind m k) (Exited c).
Proof.
  intros Hm w Hw. unfold bind. destruct (Hm w Hw) as [E U].
  destruct (m w) as [o1 w1]. simpl in E, U. subst o1. now split.
Qed.

(** The [VersionBumper] the program starts with. *)
Lemma new_VersionBumper_reads (env : Env)
    (disk : jsstring -> option jsstring) (verbose : bool) :
  reads disk (new_VersionBumper env verbose)
        match effective_value env with
        | Conforming config =>
            match catalogue env (Conforming config) disk with
            | Some records =>
                Returned {| b_config := config; b_tocFiles := records;
                            b_verbose := verbose |}
            | None => Exited 1
            end
        | NonConforming _ => Exited 1
        end.
Proof.
  unfold new_VersionBumper.
  eapply reads_bind; [apply loadConfig_reads|].
  pose proof (@loadAllTocFiles_reads env (effective_value env) verbose disk)
    as R.
  destruct (effective_value env) as [config|message].
  - destruct (catalogue env (Conforming config) disk).
    + eapply reads_bind; [exact R|].
      eapply reads_bind; [apply reads_ret|apply reads_ret].
    + apply reads_bind_exited. exact R.
  - apply reads_bind_exited. exact R.
Qed.

Lemma empty_whitelist_catalogue (env : Env) (config : Config)
    (disk : jsstring -> option jsstring) (records : list TocFile) :
  whitelistedAddons config = [] ->
  catalogue env (Conforming config) disk = Some records -> records = [].
Proof.
  unfold catalogue, addon_dirs. intros ->.
  destruct (read_dir env (addonsDirectory config)); [|discriminate].
  intros [= <-]. induction (map name (filter isDirectory a));
    [reflexivity|exact IHl].
Qed.

Lemma reads_quiet (A : Type) (Q : A -> Prop) (m : M A)
    (o : (jsstring -> option jsstring) -> Outcome A) :
  (forall disk, reads disk m (o disk)) ->
  (forall disk a, o disk = Returned a -> Q a) ->
  quiet Q m.
Proof.
  intros R H w. destruct (R (files w) w eq_refl) as [E U].
  split; [exact U|]. intros a Ea. rewrite Ea in E. eauto.
Qed.

Lemma catalogue_listed (env : Env) (value : ConfigValue)
    (disk : jsstring -> option jsstring) :
  match listing env value with
  | Ok _ => exists config records,
              value = Conforming config /\
              catalogue env value disk = Some records
  | Err _ => catalogue env value disk = None
  end.
Proof.
  unfold catalogue, listing. destruct value as [config|message];
    [|reflexivity].
  destruct (read_dir env (addonsDirectory config)); [|reflexivity].
  eexists. eexists. split; reflexivity.
Qed.

(** X20. When there is no listing of the addons directory, because the
    directory cannot be listed or because the value of [config.json]
    does not conform, the program ends with status 1 whatever its
    arguments are, also for the help screen and the read-only reports:
    the catalogue is loaded before the arguments are looked at.  Nothing
    is written and no command is run. *)
Theorem main_unreadable_addons_directory (env : Env)
    (args : list jsstring) (w : World) (msg : jsstring) :
  startup_listing env = Err msg ->
  let r := main env args w in
  fst r = Exited 1 /\ exit_status (fst r) = 1%Z /\
  unchanged w (snd r) /\
  In (error, ErrorReadingAddons (SystemError msg)) (console (snd r)).
Proof.
  intros R r. unfold main in r. unfold startup_listing in R.
  pose proof (@new_VersionBumper_reads env (files w)
                (includes args (js "--verbose")) w eq_refl) as [E U].
  pose proof (catalogue_listed env (effective_value env) (files w)) as C.
  rewrite R in C.
  assert (E1 : fst (new_VersionBumper env (includes args (js "--verbose"))
                      w) = Exited 1).
  { rewrite E. destruct (effective_value env); [|reflexivity].
    now rewrite C. }
  assert (L : In (error, ErrorReadingAddons (SystemError msg))
                 (console (snd (new_VersionBumper env
                    (includes args (js "--verbose")) w)))).
  { clear E E1 U C. unfold new_VersionBumper.
    pose proof (@loadConfig_reads env (files w)
                  (includes args (js "--verbose")) w eq_refl) as [E _].
    unfold bind at 1.
    destruct (loadConfig env (includes args (js "--verbose")) w)
      as [o w1]. simpl in E. subst o.
    unfold loadAllTocFiles. unfold listing in R.
    destruct (effective_value env) as [config|message];
      cbn [read_config].
    - rewrite ret_bind. unfold bind at 1, try_catch, bind at 1, lift.
      rewrite R. cbn. apply in_app_iff. right. now left.
    - injection R as ->. cbn. apply in_app_iff. right. now left. }
  subst r. unfold bind.
  destruct (new_VersionBumper env (includes args (js "--verbose")) w)
    as [o w1]. simpl in E1, U, L. subst o. simpl. auto.
Qed.
(* ================================================================= *)
(** * Commands that only report *)

(** Every command but [bump] prints one report, or the error line for an
    unknown command, and returns. *)
Lemma run_report (env : Env) (bumper : Bumper) (args : list jsstring)
    (w : World) :
  hd_error args <> Some (js "bump") ->
  exists ch l,
    run env bumper args w
    = (Returned tt,
       {| console := console w ++ [(ch, l)]; files := files w;
          writes := writes w; spawned := spawned w |}).
Proof.
  intros H. destruct args as [|command rest]; [do 2 eexists; reflexivity|].
  assert (B : str_eqb command (js "bump") = false).
  { apply str_eqb_neq. intros ->. now apply H. }
  unfold run, try_catch. rewrite B.
  destruct (str_eqb command (js "show"));
    [|destruct (str_eqb command (js "list"));
      [|destruct (str_eqb command (js "whitelist"));
        [|destruct (str_eqb command (js "config"))]]];
    do 2 eexists; reflexivity.
Qed.

(** X21. Only [bump] can change anything: on every other argument
    list, the empty one and unknown commands included, the program
    writes no file and runs no command.  It then ends with status 0
    when the program starts with a listing of the addons directory (the
    configuration value conforms and the directory can be listed), and
    with status 1 when it does not. *)
Theorem main_reports_change_nothing (env : Env) (args : list jsstring)
    (w : World) :
  hd_error args <> Some (js "bump") ->
  let r := main env args w in
  unchanged w (snd r) /\
  match startup_listing env with
  | Ok _ => fst r = Returned tt /\ exit_status (fst r) = 0%Z
  | Err _ => fst r = Exited 1 /\ exit_status (fst r) = 1%Z
  end.
Proof.
  intros H r. subst r. unfold main, startup_listing.
  pose proof (@new_VersionBumper_reads env (files w)
                (includes args (js "--verbose")) w eq_refl) as [E U].
  pose proof (catalogue_listed env (effective_value env) (files w)) as C.
  unfold bind.
  destruct (new_VersionBumper env (includes args (js "--verbose")) w)
    as [o w1]. cbn [fst snd] in E, U. subst o.
  destruct (listing env (effective_value env)) as [entries|msg].
  - destruct C as (config & records & V & C). rewrite V in *. rewrite C.
    destruct (@run_report env
                {| b_config := config; b_tocFiles := records;
                   b_verbose := includes args (js "--verbose") |} args w1 H)
      as (ch & l & ->).
    cbn [fst snd exit_status]. split; [|now split].
    repeat split; apply U.
  - assert (X : match effective_value env with
                | Conforming config =>
                    match catalogue env (Conforming config) (files w) with
                    | Some records =>
                        Returned {| b_config := config;
                                    b_tocFiles := records;
                                    b_verbose :=
                                      includes args (js "--verbose") |}
                    | None => Exited 1
                    end
                | NonConforming _ => Exited 1
                end = Exited 1).
    { destruct (effective_value env); [|reflexivity]. now rewrite C. }
    rewrite X. cbn [fst snd exit_status]. split; [exact U|now split].
Qed.

(** ** An empty catalogue *)

Lemma bumpVersion_empty_catalogue (env : Env) (b : Bumper)
    (options : VersionBumpOptions) :
  b_tocFiles b = [] -> quiet any (bumpVersion env b options).
Proof.
  intros E. unfold bumpVersion. rewrite E.
  destruct (targetAddon options) as [[|c a]|];
    cbn [getTocFilesForAddon filter is_empty_list addonGroups fold_left
         for_each];
    try destruct (negb (is_empty (newVersion options)));
    repeat quiet_step.
Qed.

Lemma run_quiet (env : Env) (P : Bumper -> Prop) (bumper : Bumper)
    (args : list jsstring) :
  P bumper ->
  quiet P (new_VersionBumper env true) ->
  (forall b options, P b -> quiet any (bumpVersion env b options)) ->
  quiet any (run env bumper args).
Proof.
  intros Pb Pn Hb. unfold run. destruct args as [|command rest];
    [repeat quiet_step|].
  apply quiet_try_catch; [|intros; repeat quiet_step].
  destruct (str_eqb command (js "show")); [repeat quiet_step|].
  destruct (str_eqb command (js "list")); [repeat quiet_step|].
  destruct (str_eqb command (js "whitelist")); [repeat quiet_step|].
  destruct (str_eqb command (js "config")); [repeat quiet_step|].
  destruct (str_eqb command (js "bump")); [|repeat quiet_step].
  apply (@quiet_bind _ _ any);
    [eapply quiet_weaken; [apply parseBumpArgs_quiet|intros; exact I]|].
  intros options _. apply (@quiet_bind _ _ P).
  - destruct (verbose options); [exact Pn|now apply quiet_ret].
  - intros b' Hb'. now apply Hb.
Qed.

(** X14. Without a whitelist nothing is catalogued and nothing can
    change: when [config.json] cannot be loaded, or whitelists no addon,
    the program starts with an empty catalogue and, whatever its
    arguments are, writes no file and runs no command. *)
Theorem empty_whitelist_changes_nothing (env : Env)
    (args : list jsstring) (w : World) :
  (forall config,
      effective_value env = Conforming config ->
      whitelistedAddons config = []) ->
  (forall verbose b,
      fst (new_VersionBumper env verbose w) = Returned b ->
      b_tocFiles b = []) /\
  unchanged w (snd (main env args w)).
Proof.
  intros E.
  assert (Q : forall verbose,
             quiet (fun b => b_tocFiles b = [])
                   (new_VersionBumper env verbose)).
  { intros verbose.
    eapply reads_quiet;
      [intros disk; apply new_VersionBumper_reads|].
    intros disk a. cbv beta.
    destruct (effective_value env) as [config|message]; [|discriminate].
    destruct (catalogue env (Conforming config) disk) as [records|] eqn:C;
      [|discriminate].
    intros [= <-]. cbn [b_tocFiles].
    exact (@empty_whitelist_catalogue env config disk records
             (E config eq_refl) C). }
  split.
  - intros verbose b Hb. exact (proj2 (Q verbose w) b Hb).
  - assert (Qm : quiet any (main env args)).
    { unfold main. eapply quiet_bind; [apply Q|].
      intros bumper Hb. cbv beta in Hb.
      apply (@run_quiet env (fun b => b_tocFiles b = []));
        [exact Hb|apply Q|].
      intros b options. apply bumpVersion_empty_catalogue. }
    exact (proj1 (Qm w)).
Qed.
(* ================================================================= *)
(** * Writing the files *)

Lemma updateFiles_loop (env : Env) (files : list TocFile)
    (options : VersionBumpOptions) :
  dryRun options = false ->
  updateFiles env files options = for_each files (write_record env options).
Proof.
  intros D. unfold updateFiles, write_record. rewrite D.
  cbn [when]. unfold bind at 1, ret. reflexivity.
Qed.

Lemma write_record_run (env : Env) (options : VersionBumpOptions)
    (f : TocFile) (w : World) :
  let r := write_record env options f w in
  fst r = Returned tt /\ spawned (snd r) = spawned w /\
  writes (snd r) = writes w ++ [write_of (newVersion options) f] /\
  (forall p, p <> path f -> files (snd r) p = files w p) /\
  (write_error env (writes w) (path f) = None ->
   files (snd r) (path f)
   = Some (updateVersionInContent (content f) (newVersion options))).
Proof.
  unfold write_record, try_catch, bind, writeTextFileSync, print, write_of.
  destruct (write_error env (writes w) (path f)) as [msg|];
    cbn [fst snd spawned writes files console].
  - do 3 (split; [reflexivity|]). split; [reflexivity|discriminate].
  - do 3 (split; [reflexivity|]). split.
    + intros p Hp. apply str_eqb_neq in Hp. now rewrite Hp.
    + intros _. now rewrite (proj2 (str_eqb_eq _ _) eq_refl).
Qed.

Lemma path_in_dec (p : jsstring) (l : list jsstring) :
  {In p l} + {~ In p l}.
Proof. apply in_dec. apply list_eq_dec. apply N.eq_dec. Qed.

Lemma write_records_run (env : Env) (options : VersionBumpOptions)
    (files0 : list TocFile) (w : World) :
  let V := newVersion options in
  let r := for_each files0 (write_record env options) w in
  fst r = Returned tt /\ spawned (snd r) = spawned w /\
  writes (snd r) = writes w ++ map (write_of V) files0 /\
  (forall p, ~ In p (map path files0) -> files (snd r) p = files w p) /\
  (writes_succeed env ->
   forall f, In f files0 ->
     (forall g, In g files0 -> path g = path f -> content g = content f) ->
     files (snd r) (path f) = Some (updateVersionInContent (content f) V)).
Proof.
  intros V. revert w. induction files0 as [|f0 rest IH]; intros w.
  - cbn. rewrite app_nil_r. repeat split. intros _ f [].
  - cbn [for_each]. unfold bind.
    destruct (write_record_run env options f0 w) as (E1 & S1 & W1 & F1 & G1).
    destruct (write_record env options f0 w) as [o w1].
    cbn [fst snd] in E1, S1, W1, F1, G1. subst o.
    destruct (IH w1) as (E2 & S2 & W2 & F2 & G2).
    cbv zeta. split; [exact E2|]. split; [congruence|].
    split; [rewrite W2, W1, <- app_assoc; reflexivity|]. split.
    + intros p Hp. cbn [map In] in Hp. rewrite F2, F1; auto.
    + intros Ok f Hf Hc.
      assert (Hrest : forall g, In g rest -> path g = path f ->
                files (snd (for_each rest (write_record env options) w1))
                      (path g)
                = Some (updateVersionInContent (content f) V)).
      { intros g Hg Eg. rewrite <- (Hc g (or_intror Hg) Eg).
        apply (G2 Ok g Hg). intros h Hh Ep.
        rewrite (Hc g (or_intror Hg) Eg).
        apply (Hc h (or_intror Hh)). congruence. }
      destruct Hf as [<-|Hf]; [|now apply Hrest].
      destruct (path_in_dec (path f0) (map path rest)) as [Hin|Hout].
      * apply in_map_iff in Hin as (g & Eg & Hg).
        rewrite <- Eg. now apply Hrest.
      * rewrite (F2 _ Hout). apply G1. apply Ok.
Qed.

(** X10. Outside a dry run [updateFiles] attempts exactly one write for every
    record, in order, with the rewritten text of the record; it runs no
    command and always returns, also when a write fails; files that are
    not among the records are left as they are; and when no write fails
    every record's file ends up holding the rewritten text. *)
Theorem updateFiles_writes_each_record (env : Env)
    (files0 : list TocFile) (options : VersionBumpOptions) (w : World) :
  dryRun options = false ->
  let V := newVersion options in
  let r := updateFiles env files0 options w in
  fst r = Returned tt /\ spawned (snd r) = spawned w /\
  writes (snd r) = writes w ++ map (write_of V) files0 /\
  (forall p, ~ In p (map path files0) -> files (snd r) p = files w p) /\
  (writes_succeed env ->
   forall f, In f files0 ->
     (forall g, In g files0 -> path g = path f -> content g = content f) ->
     files (snd r) (path f) = Some (updateVersionInContent (content f) V)).
Proof.
  intros D. rewrite (updateFiles_loop env files0 options D).
  apply write_records_run.
Qed.
(* ================================================================= *)
(** * Loading again after a bump *)

Lemma flat_map_ext_in (A B : Type) (f g : A -> list B) (l : list A) :
  (forall x, In x l -> f x = g x) -> flat_map f l = flat_map g l.
Proof.
  induction l as [|x l IH]; intros H; [reflexivity|].
  cbn [flat_map]. rewrite (H x (or_introl eq_refl)), IH; [reflexivity|].
  intros y Hy. apply H. now right.
Qed.

Lemma map_flat_map (A B C : Type) (f : B -> C) (g : A -> list B)
    (l : list A) :
  map f (flat_map g l) = flat_map (fun x => map f (g x)) l.
Proof.
  induction l as [|x l IH]; [reflexivity|].
  cbn [flat_map]. now rewrite map_app, IH.
Qed.

(** The record of a file whose text, if it has a version line, was
    replaced by the rewritten text. *)
Lemma toc_record_rewritten (disk disk' : jsstring -> option jsstring)
    (V addonDir addonPath tocFile : jsstring) :
  version_text V ->
  disk' (addonPath ++ js "/" ++ tocFile)
  = match disk (addonPath ++ js "/" ++ tocFile) with
    | Some text =>
        match exec tocPattern text with
        | Some _ => Some (updateVersionInContent text V)
        | None => Some text
        end
    | None => None
    end ->
  toc_record disk' addonDir addonPath tocFile
  = map (rewritten V) (toc_record disk addonDir addonPath tocFile).
Proof.
  intros HV E. unfold toc_record. rewrite E.
  destruct (disk (addonPath ++ js "/" ++ tocFile)) as [text|];
    [|reflexivity].
  destruct (exec_toc_cases text) as [(pre & v & post & F & X)|[No X]].
  - rewrite X, (update_read_back F HV). reflexivity.
  - rewrite X, X. reflexivity.
Qed.

Lemma toc_record_stored (disk : jsstring -> option jsstring)
    (addonDir addonPath tocFile : jsstring) (r : TocFile) :
  In r (toc_record disk addonDir addonPath tocFile) ->
  disk (path r) = Some (content r) /\
  exec tocPattern (content r) <> None.
Proof.
  intros H. apply in_toc_record in H as (_ & _ & D & m & E & _).
  split; [exact D|]. now rewrite E.
Qed.

Lemma catalogue_stored (env : Env) (config : Config)
    (disk : jsstring -> option jsstring) (records : list TocFile)
    (r : TocFile) :
  catalogue env (Conforming config) disk = Some records -> In r records ->
  disk (path r) = Some (content r) /\
  exec tocPattern (content r) <> None.
Proof.
  intros C H.
  destruct (in_catalogue _ _ _ _ C H)
    as (? & e & ? & f & _ & _ & _ & _ & _ & _ & _ & _ & Hr).
  exact (toc_record_stored _ _ _ _ _ Hr).
Qed.

(** The catalogue of the disk that a bump of the whole catalogue
    leaves. *)
Lemma catalogue_after_bump (env : Env) (config : Config)
    (disk disk' : jsstring -> option jsstring) (V : jsstring)
    (records : list TocFile) :
  version_text V ->
  catalogue env (Conforming config) disk = Some records ->
  (forall p, ~ In p (map path records) -> disk' p = disk p) ->
  (forall r, In r records ->
             disk' (path r) = Some (updateVersionInContent (content r) V)) ->
  catalogue env (Conforming config) disk'
  = Some (map (rewritten V) records).
Proof.
  intros HV C Hout Hin. pose proof C as C0. unfold catalogue in C |- *.
  destruct (read_dir env (addonsDirectory config)) as [entries|];
    [|discriminate].
  injection C as C. f_equal. rewrite <- C. rewrite map_flat_map.
  apply flat_map_ext_in. intros d Hd. unfold addon_records.
  destruct (read_dir env (addonsDirectory config ++ js "/" ++ d))
    as [listed|] eqn:R; [|reflexivity].
  rewrite map_flat_map. apply flat_map_ext_in. intros t Ht.
  apply toc_record_rewritten; [exact HV|].
  set (p := (addonsDirectory config ++ js "/" ++ d) ++ js "/" ++ t).
  assert (Hrec : forall r,
             In r (toc_record disk d
                     (addonsDirectory config ++ js "/" ++ d) t) ->
             In r records).
  { intros r Hr. rewrite <- C. apply in_flat_map. exists d.
    split; [exact Hd|]. unfold addon_records. rewrite R.
    apply in_flat_map. exists t. now split. }
  unfold toc_record in Hrec. fold p in Hrec.
  destruct (disk p) as [text|] eqn:D.
  - destruct (exec tocPattern text) as [m|] eqn:X.
    + specialize (Hrec _ (or_introl eq_refl)).
      apply Hin in Hrec. exact Hrec.
    + rewrite Hout; [exact D|]. intros Hp.
      apply in_map_iff in Hp as (r & Er & Hr).
      destruct (catalogue_stored _ _ _ _ C0 Hr) as [S N].
      rewrite Er, D in S. injection S as ->. now apply N.
  - rewrite Hout; [exact D|]. intros Hp.
    apply in_map_iff in Hp as (r & Er & Hr).
    destruct (catalogue_stored _ _ _ _ C0 Hr) as [S _].
    rewrite Er, D in S. discriminate.
Qed.

(** X11. Loading the catalogue again after a bump shows the bump: when
    [updateFiles] has written the records of the catalogue with a new
    version and no write failed, [loadAllTocFiles] returns the same
    records, in the same order, each with the new version and the
    rewritten text. *)
Theorem reload_after_bump (env : Env) (config : ConfigValue)
    (verbose verbose' : bool) (options : VersionBumpOptions) (w : World)
    (records : list TocFile) :
  fst (loadAllTocFiles env config verbose w) = Returned records ->
  dryRun options = false ->
  version_text (newVersion options) ->
  writes_succeed env ->
  fst (loadAllTocFiles env config verbose'
         (snd (updateFiles env records options w)))
  = Returned (map (rewritten (newVersion options)) records).
Proof.
  intros L D HV Ok.
  destruct (@loadAllTocFiles_reads env config verbose (files w) w eq_refl)
    as [E _].
  rewrite L in E.
  destruct (catalogue env config (files w)) as [l|] eqn:C; [|discriminate].
  injection E as <-.
  destruct config as [config|message]; [|discriminate C].
  destruct (@write_records_run env options records w)
    as (_ & _ & _ & Hout & Hin).
  rewrite <- (updateFiles_loop env records options D) in Hout, Hin.
  set (w1 := snd (updateFiles env records options w)) in *.
  destruct (@loadAllTocFiles_reads env (Conforming config) verbose'
              (files w1) w1 eq_refl) as [E _].
  rewrite E.
  rewrite (@catalogue_after_bump env config (files w) (files w1)
             (newVersion options) records HV C Hout); [reflexivity|].
  intros r Hr. apply (Hin Ok r Hr). intros g Hg Ep.
  destruct (catalogue_stored _ _ _ _ C Hr) as [S1 _].
  destruct (catalogue_stored _ _ _ _ C Hg) as [S2 _].
  rewrite Ep, S1 in S2. now injection S2.
Qed.
(* ================================================================= *)
(** * The arguments of [bump] *)

Lemma format_starts_with_digit (v : Semver.SemVer) :
  starts_with_digit (Semver.format v).
Proof.
  unfold Semver.format, starts_with_digit.
  pose proof (decimal_string_digits (Semver.major v)) as D.
  destruct (decimal_string_canonical (Semver.major v)) as (c & rest & E & _).
  rewrite E in *. cbn [forallb] in D. apply andb_true_iff in D as [D _].
  destruct (is_empty (join [DOT] (Semver.prerelease v)));
    destruct (is_empty (join [DOT] (Semver.build v)));
    exists c; eexists; (split; [reflexivity|exact D]).
Qed.

Lemma explicit_starts_with_digit (v : jsstring) :
  is_explicit_version v = true -> starts_with_digit v.
Proof.
  intros H. apply explicit_fields in H
    as (a & b & c & -> & [Na Da] & _).
  destruct a as [|x a]; [now destruct Na|].
  cbn [forallb] in Da. apply andb_true_iff in Da as [Dx _].
  exists x. eexists. split; [reflexivity|exact Dx].
Qed.

Lemma starts_with_digit_not (v : jsstring) (c : char) (rest : jsstring) :
  starts_with_digit v -> is_digit c = false -> v <> c :: rest.
Proof.
  intros (d & r & -> & D) N [= -> _]. congruence.
Qed.

Lemma startsWith_head (s : jsstring) (c : char) (p : jsstring) :
  startsWith s (c :: p) = true -> exists rest, s = c :: rest.
Proof.
  unfold startsWith. destruct s as [|d s]; [discriminate|].
  cbn [strip_prefix]. destruct (char_eqb c d) eqn:E; [|discriminate].
  apply char_eqb_eq in E. subst d. eauto.
Qed.

(** The version [getNextVersion] returns starts with a digit. *)
Lemma getNextVersion_digit (tocFiles : list TocFile) (target : optional)
    (bump : BumpType) :
  quiet (fun o => forall v, o = Some v -> starts_with_digit v)
        (getNextVersion tocFiles target bump).
Proof.
  unfold getNextVersion.
  destruct (is_empty_list tocFiles);
    [apply quiet_ret; discriminate|].
  destruct (is_empty_list (filesToCheck tocFiles target)).
  { apply (@quiet_bind _ _ any); [repeat quiet_step|].
    intros. apply quiet_ret. discriminate. }
  destruct (highest (filesToCheck tocFiles target)); [|repeat quiet_step].
  destruct (Semver.parse (Parsed.original t)); [|repeat quiet_step].
  apply (@quiet_bind _ _ any); [repeat quiet_step|]. intros _ _.
  apply (@quiet_bind _ _ any); [repeat quiet_step|]. intros _ _.
  apply quiet_ret. intros v [= <-]. apply format_starts_with_digit.
Qed.

Lemma auto_increment_digit (b : Bumper) (target : optional)
    (bump : BumpType) :
  quiet starts_with_digit (auto_increment b target bump).
Proof.
  unfold auto_increment.
  eapply quiet_bind; [apply getNextVersion_digit|].
  intros [[|c v]|] H; cbv beta in H.
  - apply (@quiet_bind _ _ any);
      [repeat quiet_step|intros; apply quiet_throw].
  - apply (@quiet_bind _ _ any); [repeat quiet_step|]. intros _ _.
    apply quiet_ret. now apply H.
  - apply (@quiet_bind _ _ any);
      [repeat quiet_step|intros; apply quiet_throw].
Qed.

Lemma all_no_digit : ~ starts_with_digit (js "all").
Proof. intros (c & r & [= <- _] & D). discriminate. Qed.

Lemma auto_no_digit : ~ starts_with_digit (js "auto").
Proof. intros (c & r & [= <- _] & D). discriminate. Qed.

(** What the first part of [parseBumpArgs] settles: the version, which
    is the placeholder [auto] for [all] and starts with a digit
    otherwise, and the target addon. *)
Lemma parseBumpArgs_parsed (b : Bumper) (args : list jsstring)
    (result : VersionBumpOptions -> Prop) :
  (forall v t,
      (hd_error args = Some (js "all") -> v = js "auto") ->
      (hd_error args <> Some (js "all") -> starts_with_digit v) ->
      (forall a, t = Some a -> In a args /\ startsWith a (js "--") = false) ->
      result {| newVersion := if str_eqb v (js "auto") then [] else v;
                dryRun := includes args (js "--dry");
                targetAddon := t;
                bumpType := selected_bump args;
                commitMessage := bump_message t v;
                verbose := includes args (js "--verbose") |}) ->
  quiet result (parseBumpArgs b args).
Proof.
  intros R. unfold parseBumpArgs.
  apply (@quiet_bind _ _
           (fun parsed =>
              (hd_error args = Some (js "all") -> fst parsed = js "auto") /\
              (hd_error args <> Some (js "all") ->
               starts_with_digit (fst parsed)) /\
              (forall a, snd parsed = Some a ->
                         In a args /\ startsWith a (js "--") = false))).
  - destruct args as [|arg0 rest].
    + apply (@quiet_bind _ _ any); [repeat quiet_step|]. intros _ _.
      eapply quiet_bind; [apply auto_increment_digit|].
      intros v Hv. apply quiet_ret. cbn [fst snd hd_error].
      repeat split; try discriminate. now intros _.
    + destruct (is_explicit_version arg0) eqn:X.
      { apply quiet_ret. cbn [fst snd hd_error].
        pose proof (explicit_starts_with_digit _ X) as D. split; [|split].
        - intros [= ->]. now destruct all_no_digit.
        - now intros _.
        - intros a. destruct rest as [|[|c r] rest]; try discriminate.
          destruct (startsWith (c :: r) (js "--")) eqn:S; [discriminate|].
          intros [= <-]. split; [right; now left|exact S]. }
      destruct (str_eqb arg0 (js "all")) eqn:A.
      { apply str_eqb_eq in A. subst arg0.
        apply (@quiet_bind _ _ any); [repeat quiet_step|]. intros _ _.
        apply quiet_ret. cbn [fst snd hd_error].
        repeat split; try discriminate. intros H. now destruct H. }
      apply str_eqb_neq in A.
      destruct (startsWith arg0 (js "--")) eqn:S.
      { repeat (apply (@quiet_bind _ _ any); [repeat quiet_step|];
                intros _ _).
        apply quiet_throw. }
      assert (T : forall a, Some arg0 = Some a ->
                            In a (arg0 :: rest) /\
                            startsWith a (js "--") = false).
      { intros a [= <-]. split; [now left|exact S]. }
      assert (Auto : quiet
                (fun parsed : jsstring * optional =>
                   (hd_error (arg0 :: rest) = Some (js "all") ->
                    fst parsed = js "auto") /\
                   (hd_error (arg0 :: rest) <> Some (js "all") ->
                    starts_with_digit (fst parsed)) /\
                   (forall a, snd parsed = Some a ->
                              In a (arg0 :: rest) /\
                              startsWith a (js "--") = false))
                (print log NoVersionForAddon ;;
                 newVersion <- auto_increment b (Some arg0)
                                 (if includes (arg0 :: rest) (js "--major")
                                  then Major
                                  else if includes (arg0 :: rest)
                                            (js "--minor")
                                       then Minor else Patch) ;;
                 ret (newVersion, Some arg0))).
      { apply (@quiet_bind _ _ any); [repeat quiet_step|]. intros _ _.
        eapply quiet_bind; [apply auto_increment_digit|].
        intros v Hv. apply quiet_ret. cbn [fst snd hd_error].
        split; [intros [= E]; now destruct A|]. split; [now intros _|].
        exact T. }
      destruct rest as [|arg1 rest]; [exact Auto|].
      destruct (is_explicit_version arg1) eqn:X1; [|exact Auto].
      apply quiet_ret. cbn [fst snd hd_error].
      split; [intros [= E]; now destruct A|].
      split; [intros _; now apply explicit_starts_with_digit|exact T].
  - intros [v t] (H1 & H2 & H3). apply quiet_ret.
    cbn [fst snd] in H1, H2, H3. now apply R.
Qed.

(** X16. The options [parseBumpArgs] returns.  The flags are read wherever
    they stand, [--major] before [--minor], and [patch] is the default;
    the version is empty exactly for [bump all], where every addon gets
    a version of its own, and starts with a digit otherwise (it is never
    the placeholder [auto]); the target addon, if there is one, is one
    of the arguments and not a flag.  Parsing writes no file and runs no
    command. *)
Theorem parseBumpArgs_options (b : Bumper) (args : list jsstring)
    (w : World) (options : VersionBumpOptions) :
  fst (parseBumpArgs b args w) = Returned options ->
  dryRun options = includes args (js "--dry") /\
  verbose options = includes args (js "--verbose") /\
  bumpType options = selected_bump args /\
  (hd_error args = Some (js "all") -> newVersion options = []) /\
  (hd_error args <> Some (js "all") ->
   starts_with_digit (newVersion options)) /\
  (forall a, targetAddon options = Some a ->
             In a args /\ startsWith a (js "--") = false) /\
  unchanged w (snd (parseBumpArgs b args w)).
Proof.
  intros E.
  assert (Q : quiet
            (fun options =>
               dryRun options = includes args (js "--dry") /\
               verbose options = includes args (js "--verbose") /\
               bumpType options = selected_bump args /\
               (hd_error args = Some (js "all") ->
                newVersion options = []) /\
               (hd_error args <> Some (js "all") ->
                starts_with_digit (newVersion options)) /\
               (forall a, targetAddon options = Some a ->
                          In a args /\ startsWith a (js "--") = false))
            (parseBumpArgs b args)).
  { apply parseBumpArgs_parsed. intros v t H1 H2 H3.
    cbn [dryRun verbose bumpType newVersion targetAddon].
    do 3 (split; [reflexivity|]). split; [|split; [|exact H3]].
    - intros H. now rewrite (H1 H).
    - intros H. specialize (H2 H).
      destruct (str_eqb v (js "auto")) eqn:A; [|exact H2].
      apply str_eqb_eq in A. subst v. now destruct auto_no_digit. }
  destruct (Q w) as [U R].
  destruct (R options E) as (R1 & R2 & R3 & R4 & R5 & R6).
  do 6 (split; [assumption|]). exact U.
Qed.

Lemma flag_not_explicit (arg : jsstring) :
  startsWith arg (js "--") = true ->
  is_explicit_version arg = false /\ str_eqb arg (js "all") = false.
Proof.
  intros S. apply startsWith_head in S as [rest ->]. split.
  - apply not_true_iff_false. intros X.
    apply explicit_starts_with_digit in X as (c & r & [= <- _] & D).
    discriminate.
  - reflexivity.
Qed.

Lemma run_bump (env : Env) (bumper : Bumper) (rest : list jsstring) :
  run env bumper (js "bump" :: rest)
  = try_catch
      (options <- parseBumpArgs bumper rest ;;
       bumper' <- (if verbose options then new_VersionBumper env true
                   else ret bumper) ;;
       bumpVersion env bumper' options)
      (fun e => print error (ErrorLine e) ;; exit 1).
Proof. reflexivity. Qed.

(** X17. A flag in the place of the addon is a malformed command: when the
    first argument of [bump] starts with [--] (as in [bump --major], or
    [bump --dry]) the program prints the error and the examples and ends
    with status 1; nothing is written and no command is run. *)
Theorem bump_flag_first_fails (env : Env) (bumper : Bumper)
    (arg : jsstring) (rest : list jsstring) (w : World) :
  startsWith arg (js "--") = true ->
  run env bumper (js "bump" :: arg :: rest) w
  = (Exited 1,
     {| console :=
          console w ++
          [ (error, NoAddonSpecified);
            (log, Text (LF :: js "Examples:"));
            (log, Text (js "  deno run main.ts bump all --major"));
            (log, Text (js "  deno run main.ts bump Broker_TinyFriends --major"));
            (log, Text (js "  deno run main.ts bump --major Broker_TinyFriends"));
            (error, ErrorLine InvalidBumpArguments) ];
        files := files w; writes := writes w; spawned := spawned w |}).
Proof.
  intros S. destruct (flag_not_explicit _ S) as [X A].
  rewrite run_bump. unfold parseBumpArgs. rewrite X, A, S.
  unfold try_catch, bind, print, throw, exit.
  cbn [console files writes spawned]. rewrite <- !app_assoc. reflexivity.
Qed.

Lemma not_flag_neq (a flag : jsstring) :
  startsWith a (js "--") = false -> startsWith flag (js "--") = true ->
  str_eqb flag a = false.
Proof.
  intros Ha Hf. apply str_eqb_neq. intros ->. congruence.
Qed.

Lemma explicit_not_flag (v : jsstring) :
  is_explicit_version v = true -> startsWith v (js "--") = false.
Proof.
  intros X. apply not_true_iff_false. intros S.
  destruct (flag_not_explicit _ S) as [N _]. congruence.
Qed.

(** X18. A bump of an addon that has no record in a non-empty catalogue
    changes nothing, but ends differently with and without a version:
    with an explicit version the error is printed and the program ends
    normally, with status 0; without one the next version cannot be
    determined and the program ends with status 1. *)
Theorem bump_unknown_addon (env : Env) (bumper : Bumper)
    (addon v : jsstring) (w : World) :
  b_tocFiles bumper <> [] ->
  getTocFilesForAddon (b_tocFiles bumper) addon = [] ->
  addon <> [] -> addon <> js "all" ->
  is_explicit_version addon = false ->
  startsWith addon (js "--") = false ->
  is_explicit_version v = true ->
  run env bumper [js "bump"; addon; v] w
  = (Returned tt,
     {| console := console w ++ [(error, NoTocFilesFor addon)];
        files := files w; writes := writes w; spawned := spawned w |})
  /\
  run env bumper [js "bump"; addon] w
  = (Exited 1,
     {| console :=
          console w ++
          [ (log, NoVersionForAddon); (error, NoTocFilesFor addon);
            (error, CouldNotDetermine);
            (error, ErrorLine CouldNotDetermineVersion) ];
        files := files w; writes := writes w; spawned := spawned w |}).
Proof.
  intros NE G N A X S Xv.
  apply str_eqb_neq in A. pose proof (explicit_not_flag _ Xv) as Sv.
  assert (V : includes [addon; v] (js "--verbose") = false).
  { unfold includes. cbn [existsb].
    rewrite (@not_flag_neq addon (js "--verbose") S eq_refl).
    rewrite (@not_flag_neq v (js "--verbose") Sv eq_refl).
    reflexivity. }
  destruct addon as [|c a]; [now destruct N|]. split.
  - rewrite run_bump. unfold parseBumpArgs. rewrite X, A, S, Xv.
    unfold try_catch, bind at 1 2, ret. cbn [verbose]. rewrite V.
    unfold bind, ret, bumpVersion. cbn [targetAddon]. rewrite G.
    reflexivity.
  - rewrite run_bump. unfold parseBumpArgs. rewrite X, A, S.
    unfold auto_increment, getNextVersion.
    destruct (b_tocFiles bumper) as [|f fs] eqn:Eb; [now destruct NE|].
    cbn [is_empty_list filesToCheck]. rewrite G.
    unfold try_catch, bind, print, throw, exit, ret.
    cbn [is_empty_list console files writes spawned].
    rewrite <- !app_assoc. reflexivity.
Qed.

(** X19. A catalogue whose highest version [parse] of [@std/semver] rejects
    cannot be auto-incremented: [bump] without arguments prints the
    error of [parse] and ends with status 1, before any file is written
    or any command is run. *)
Theorem bump_rejected_version (env : Env) (bumper : Bumper) (w : World)
    (h : Parsed.t) :
  highest (b_tocFiles bumper) = Some h ->
  Semver.parse (Parsed.original h) = None ->
  run env bumper [js "bump"] w
  = (Exited 1,
     {| console :=
          console w ++
          [ (log, NoVersionProvided);
            (error, ErrorLine (InvalidVersion (Parsed.original h))) ];
        files := files w; writes := writes w; spawned := spawned w |}).
Proof.
  intros H P. rewrite run_bump. unfold parseBumpArgs, auto_increment.
  unfold getNextVersion. cbn [filesToCheck].
  destruct (b_tocFiles bumper) as [|f fs] eqn:E; [discriminate H|].
  cbn [is_empty_list]. rewrite H, P.
  unfold try_catch, bind, print, throw, exit.
  cbn [console files writes spawned]. rewrite <- !app_assoc. reflexivity.
Qed.
(* ================================================================= *)
(** * The release recorder when everything succeeds *)

Ltac no_failure Hall :=
  match goal with
  | E : run_process ?e ?h ?d ?c = Err _ |- _ =>
      exfalso; destruct (Hall h d c) as (? & E' & _);
      rewrite E in E'; discriminate E'
  | E : run_process ?e ?h ?d ?c = Ok ?o, N : nonzero (code ?o) = true |- _ =>
      exfalso; destruct (Hall h d c) as (? & E' & C');
      rewrite E in E'; injection E' as <-;
      unfold nonzero in N; rewrite C' in N; discriminate N
  end.

(** X22. When every command succeeds, a real call of [createGitTag] runs the
    status query, then [git add] and [git commit] exactly when the
    status output is not blank, then the tag and the push, in the
    working directory of the call, reports completion and returns. *)
Theorem createGitTag_success (env : Env) (config : Config)
    (version : jsstring) (message target : optional) (w : World)
    (dir : jsstring) (status : CommandOutput) :
  working_dir env config target = Ok dir ->
  commands_succeed env ->
  run_process env (spawned w) (files w) (git_status dir) = Ok status ->
  let dirty := negb (is_empty (trim (stdout status))) in
  createGitTag env config version message target false w
  = (Returned tt,
     {| console :=
          console w ++
          (if dirty then [(log, Committing)] else []) ++
          [ (log, CreatingTag version); (log, Pushing); (log, Completed);
            (log, ReleaseNotice version) ];
        files := files w; writes := writes w;
        spawned :=
          spawned w ++
          release_sequence dir dirty
            (commit_message message target version) version |}).
Proof.
  intros Ewd Hall Est dirty.
  remember (createGitTag env config version message target false w)
    as r eqn:Er.
  unfold createGitTag in Er. cbv iota in Er.
  unfold try_catch at 1 in Er. unfold bind at 1 in Er.
  assert (Ed : forall w0,
             match target with
             | Some (c :: a) =>
                 ret (addonsDirectory config ++ js "/" ++ c :: a)
             | _ => lift (current_dir env)
             end w0 = (Returned dir, w0)).
  { intros w0. unfold working_dir in Ewd.
    destruct target as [[|c a]|]; try (rewrite Ewd; reflexivity).
    injection Ewd as <-. reflexivity. }
  rewrite Ed in Er. clear Ed.
  unfold bind at 1 in Er. run_git Er; try no_failure Hall.
  assert (o = status) by congruence. subst o. fold dirty in Er.
  unfold release_sequence.
  destruct dirty; cbv beta iota in Er.
  - run_git Er; try no_failure Hall.
    run_git Er; try no_failure Hall.
    run_git Er; try no_failure Hall.
    run_git Er; try no_failure Hall.
    subst r. cbn [app]. rewrite <- !app_assoc. reflexivity.
  - run_git Er; try no_failure Hall.
    run_git Er; try no_failure Hall.
    subst r. cbn [app]. rewrite <- !app_assoc. reflexivity.
Qed.
(* ================================================================= *)
(** * How commands reach [git] *)

Lemma run_one_result (env : Env) (c : Command) (command : jsstring)
    (w : World) :
  run_one env c command w
  = (command_result env w c command, after_command w c).
Proof.
  unfold run_one, bind, output, command_result, after_command, nonzero.
  destruct (run_process env (spawned w) (files w) c) as [o|msg];
    [|reflexivity].
  destruct (code o =? 0)%Z; reflexivity.
Qed.

(** X23. [runCommandInDir] hands a commit message to [git] as one argument,
    whatever spaces it contains, while every other command is cut at
    each space, so that a tag name with a space becomes two
    arguments.  The command is run in the given directory; a non-zero
    status is thrown as an error that carries the command text and the
    error output. *)
Theorem runCommandInDir_arguments (env : Env) (dir text : jsstring)
    (w : World) :
  runCommandInDir env (js "git commit -m " ++ text) dir w
  = (command_result env w
       {| program := js "git"; args := [js "commit"; js "-m"; text];
          cwd := dir |}
       (js "git commit -m " ++ text),
     after_command w
       {| program := js "git"; args := [js "commit"; js "-m"; text];
          cwd := dir |})
  /\
  runCommandInDir env (js "git tag " ++ text) dir w
  = (command_result env w
       {| program := js "git"; args := js "tag" :: split_on SPACE text;
          cwd := dir |}
       (js "git tag " ++ text),
     after_command w
       {| program := js "git"; args := js "tag" :: split_on SPACE text;
          cwd := dir |}).
Proof.
  rewrite runCommandInDir_commit, runCommandInDir_tag, !run_one_result.
  split; reflexivity.
Qed.
(* ================================================================= *)
(** * A bump of one addon *)

Lemma release_sequence_commands (dir : jsstring) (dirty : bool)
    (message tag : jsstring) (c : Command) :
  In c (release_sequence dir dirty message tag) ->
  program c = js "git" /\ cwd c = dir.
Proof.
  unfold release_sequence. destruct dirty; cbn [app In];
    intros H; repeat (destruct H as [<-|H]; [now split|]); destruct H.
Qed.

Lemma is_prefix_In (A : Type) (a b : list A) (x : A) :
  is_prefix a b -> In x a -> In x b.
Proof. intros [rest ->] H. apply in_app_iff. now left. Qed.

(** X12. Outside a dry run, a bump of one addon never throws and never ends
    the process.  It attempts one write for every record of the addon
    and no other write, so that the files of the other addons are left
    as they are; and every command it runs is a [git] command in the
    directory of the addon. *)
Theorem bump_addon_touches_only_addon (env : Env) (b : Bumper)
    (options : VersionBumpOptions) (addon : jsstring) (w : World) :
  targetAddon options = Some addon -> addon <> [] ->
  dryRun options = false ->
  let own := getTocFilesForAddon (b_tocFiles b) addon in
  let r := bumpVersion env b options w in
  fst r = Returned tt /\
  writes (snd r) = writes w ++ map (write_of (newVersion options)) own /\
  (forall p, ~ In p (map path own) -> files (snd r) p = files w p) /\
  exists commands,
    spawned (snd r) = spawned w ++ commands /\
    forall c, In c commands ->
              program c = js "git" /\
              cwd c = addonsDirectory (b_config b) ++ js "/" ++ addon.
Proof.
  intros T N D own r.
  assert (Er : r = bumpVersion env b options w) by reflexivity.
  clearbody r. unfold bumpVersion in Er. rewrite T in Er.
  destruct addon as [|c a]; [now destruct N|]. fold own in Er.
  destruct own as [|f0 rest] eqn:Eown; cbn [is_empty_list] in Er.
  - subst r. cbn. rewrite app_nil_r. repeat split. exists [].
    rewrite app_nil_r. split; [reflexivity|intros ? []].
  - rewrite <- Eown in *. clear Eown f0 rest. rewrite D in Er.
    unfold bind, print in Er. cbn [console files writes spawned] in Er.
    match type of Er with
    | context [updateFiles env own options ?w0] =>
        destruct (@write_records_run env options own w0)
          as (E1 & S1 & W1 & F1 & _);
        rewrite <- (updateFiles_loop env own options D) in E1, S1, W1, F1;
        destruct (updateFiles env own options w0) as [o w1]
    end.
    cbn [fst snd spawned writes files] in E1, S1, W1, F1. subst o.
    destruct (createGitTag_release_run env (b_config b) (newVersion options)
                (Some (commitMessage options)) (Some (c :: a)) w1)
      as (R & Fg & Wg & ex & lines & Sg & _ & P & _).
    cbn [working_dir] in P. destruct P as (dirty & P & _).
    subst r.
    split; [exact R|]. split; [exact (eq_trans Wg W1)|].
    split; [intros p Hp; exact (eq_trans (f_equal (fun d => d p) Fg)
                                  (F1 p Hp))|].
    exists ex. split; [rewrite <- S1; exact Sg|].
    intros x Hx. eapply release_sequence_commands.
    eapply is_prefix_In; [exact P|exact Hx].
Qed.
(* ================================================================= *)
(** * A bump of all addons to one version *)

Lemma for_each_step (A : Type) (x : A) (l : list A) (body : A -> M unit)
    (w w1 : World) :
  body x w = (Returned tt, w1) ->
  for_each (x :: l) body w = for_each l body w1.
Proof. intros E. cbn [for_each]. unfold bind. now rewrite E. Qed.

Lemma print_then (A : Type) (ch : Channel) (l : Line) (m : M A)
    (w : World) :
  (print ch l ;; m) w
  = m {| console := console w ++ [(ch, l)]; files := files w;
         writes := writes w; spawned := spawned w |}.
Proof. reflexivity. Qed.

Lemma update_loop_writes (env : Env) (options : VersionBumpOptions)
    (groups : list (jsstring * list TocFile)) (w : World) :
  dryRun options = false ->
  let r :=
    for_each groups (fun '(addonName, files) =>
      print log (AddonHeader addonName) ;;
      updateFiles env files options) w in
  fst r = Returned tt /\
  writes (snd r)
  = writes w ++ map (write_of (newVersion options))
                    (concat (map snd groups)).
Proof.
  intros D. cbv zeta. revert w.
  induction groups as [|[n fs] groups IH]; intros w.
  - cbn. now rewrite app_nil_r.
  - set (w0 := {| console := console w ++ [(log, AddonHeader n)];
                  files := files w; writes := writes w;
                  spawned := spawned w |}).
    destruct (@write_records_run env options fs w0) as (E1 & _ & W1 & _).
    rewrite <- (updateFiles_loop env fs options D) in E1, W1.
    destruct (updateFiles env fs options w0) as [o w1] eqn:U.
    cbn [fst snd writes] in E1, W1. subst o.
    rewrite (@for_each_step _ (n, fs) groups _ w w1)
      by (rewrite print_then; exact U).
    destruct (IH w1) as [E2 W2].
    split; [exact E2|]. cbn [map snd concat].
    rewrite W2, W1, map_app, <- app_assoc. reflexivity.
Qed.

Lemma tag_loop_writes (env : Env) (config : Config) (version : jsstring)
    (groups : list (jsstring * list TocFile)) (w : World) :
  let r :=
    for_each groups (fun '(addonName, _) =>
      print log (TagFor false addonName) ;;
      createGitTag env config version
        (Some (addon_bump_message addonName version))
        (Some addonName) false) w in
  fst r = Returned tt /\ writes (snd r) = writes w.
Proof.
  cbv zeta. revert w. induction groups as [|[n fs] groups IH]; intros w.
  - now cbn.
  - set (w0 := {| console := console w ++ [(log, TagFor false n)];
                  files := files w; writes := writes w;
                  spawned := spawned w |}).
    destruct (createGitTag_release_run env config version
                (Some (addon_bump_message n version)) (Some n) w0)
      as (R & _ & Wg & _).
    destruct (createGitTag env config version
                (Some (addon_bump_message n version)) (Some n) false w0)
      as [o w1] eqn:G.
    cbn [fst snd writes] in R, Wg. subst o.
    rewrite (@for_each_step _ (n, fs) groups _ w w1)
      by (rewrite print_then; exact G).
    destruct (IH w1) as [E2 W2].
    split; [exact E2|]. now rewrite W2, Wg.
Qed.

(** X13. Outside a dry run, a bump of all addons to one explicit version
    attempts exactly one write for every record of the catalogue, group
    by group, each with the rewritten text of the record; it never
    throws and never ends the process, whatever the writes and the
    commands do. *)
Theorem bump_all_writes_every_record (env : Env) (b : Bumper)
    (options : VersionBumpOptions) (w : World) :
  truthy (targetAddon options) = false ->
  newVersion options <> [] ->
  dryRun options = false ->
  let r := bumpVersion env b options w in
  fst r = Returned tt /\
  exists written,
    writes (snd r) = writes w ++ written /\
    written = map (write_of (newVersion options))
                  (concat (map snd (addonGroups (b_tocFiles b)))) /\
    Permutation written
      (map (write_of (newVersion options)) (b_tocFiles b)).
Proof.
  intros T V D r.
  assert (Er : r = bumpVersion env b options w) by reflexivity.
  clearbody r. unfold bumpVersion in Er.
  assert (NV : negb (is_empty (newVersion options)) = true)
    by (destruct (newVersion options); [now destruct V|reflexivity]).
  assert (Er' : r =
    (print log (BumpingAll (newVersion options)) ;;
     print log (Rule 60) ;;
     for_each (addonGroups (b_tocFiles b)) (fun '(addonName, files) =>
       print log (AddonHeader addonName) ;;
       updateFiles env files options) ;;
     print log (TagsForAll false) ;;
     for_each (addonGroups (b_tocFiles b)) (fun '(addonName, _) =>
       print log (TagFor false addonName) ;;
       createGitTag env (b_config b) (newVersion options)
         (Some (addon_bump_message addonName (newVersion options)))
         (Some addonName) false)) w).
  { rewrite Er. rewrite NV, D.
    destruct (targetAddon options) as [[|c a]|]; try reflexivity.
    discriminate T. }
  clear Er. rewrite !print_then in Er'. unfold bind at 1 in Er'.
  match type of Er' with
  | context [for_each ?g ?body ?w0] =>
      destruct (@update_loop_writes env options g w0 D) as [E1 W1];
      destruct (for_each g body w0) as [o w1]
  end.
  cbn [fst snd writes] in E1, W1. subst o.
  rewrite print_then in Er'.
  destruct (@tag_loop_writes env (b_config b) (newVersion options)
              (addonGroups (b_tocFiles b))
              {| console := console w1 ++ [(log, TagsForAll false)];
                 files := files w1; writes := writes w1;
                 spawned := spawned w1 |}) as [E2 W2].
  cbn [writes] in W2. subst r. split; [exact E2|].
  eexists. split; [exact (eq_trans W2 W1)|]. split; [reflexivity|].
  apply Permutation_map. apply addonGroups_records.
Qed.
(* ================================================================= *)
(** * The highest version and the order of the scan *)

Lemma tuple_cmp_refl (a : Parsed.t) : numeric a -> tuple_cmp a a = Eq.
Proof.
  intros A. rewrite tuple_cmp_key by assumption. now apply key_cmp_eq.
Qed.

(** The highest record of a non-empty set: no record is higher. *)
Lemma highest_max (l : list TocFile) :
  l <> [] ->
  exists r, In r l /\ highest l = Some (parse_parts r) /\
            forall f, In f l -> not_higher f r.
Proof.
  destruct l as [|first others]; [intros H; now destruct H|]. intros _.
  destruct (@fold_higher_first_max others first [] [])
    as (b & h & a & E1 & E2 & H1 & H2); try (intros f []).
  cbn [app] in E1. exists h. split; [rewrite E1; apply in_elt|].
  split; [unfold highest, reduce; cbn [map]; now rewrite E2|].
  intros f Hf. rewrite E1 in Hf. apply in_app_or in Hf as [Hf|[<-|Hf]].
  - unfold not_higher. rewrite (H1 f Hf). discriminate.
  - unfold not_higher. rewrite tuple_cmp_refl by apply parse_parts_numeric.
    discriminate.
  - now apply H2.
Qed.

Lemma triple_cmp_eq (a b : N * N * N) : triple_cmp a b = Eq -> a = b.
Proof.
  destruct a as [[a1 a2] a3], b as [[b1 b2] b3]. unfold triple_cmp.
  destruct (a1 ?= b1)%N eqn:E1; try discriminate.
  destruct (a2 ?= b2)%N eqn:E2; try discriminate.
  intros E3. apply N.compare_eq_iff in E1, E2, E3. congruence.
Qed.

Lemma filter_permutation (A : Type) (f : A -> bool) (l l' : list A) :
  Permutation l l' -> Permutation (filter f l) (filter f l').
Proof.
  induction 1 as [|x l l' _ IH|x y l|l l' l'' _ IH1 _ IH2]; cbn [filter].
  - constructor.
  - destruct (f x); [now constructor|exact IH].
  - destruct (f x), (f y); try reflexivity. constructor.
  - now transitivity (filter f l').
Qed.

Lemma filesToCheck_permutation (l l' : list TocFile) (target : optional) :
  Permutation l l' ->
  Permutation (filesToCheck l target) (filesToCheck l' target).
Proof.
  intros P. unfold filesToCheck, getTocFilesForAddon.
  destruct target as [[|c a]|]; try exact P. now apply filter_permutation.
Qed.

(** The highest tuples of two scans of the same records are equal. *)
Lemma highest_permutation (l l' : list TocFile) (h h' : Parsed.t) :
  Permutation l l' -> highest l = Some h -> highest l' = Some h' ->
  tuple_cmp h h' = Eq /\
  exists r r', In r l /\ In r' l /\
               h = parse_parts r /\ h' = parse_parts r'.
Proof.
  intros P H H'.
  assert (N : l <> []) by (intros ->; discriminate H).
  assert (N' : l' <> []) by (intros ->; discriminate H').
  destruct (highest_max N) as (r & Hr & E & M).
  destruct (highest_max N') as (r' & Hr' & E' & M').
  rewrite E in H. rewrite E' in H'. injection H as <-. injection H' as <-.
  pose proof (M r' (Permutation_in _ (Permutation_sym P) Hr')) as L1.
  pose proof (M' r (Permutation_in _ P Hr)) as L2.
  unfold not_higher in L1, L2.
  rewrite (@tuple_cmp_opp (parse_parts r) (parse_parts r')) in L1
    by apply parse_parts_numeric.
  split.
  - destruct (tuple_cmp (parse_parts r) (parse_parts r'));
      [reflexivity|now destruct L1|now destruct L2].
  - exists r, r'. repeat split; try assumption.
    exact (Permutation_in _ (Permutation_sym P) Hr').
Qed.

(** X8. The highest version does not depend on the order in which the
    records are scanned: two scans of the same records find equal
    tuples, and when the versions are all of the form [M.m.p]
    [getNextVersion] ends with the same result for both. *)
Theorem getNextVersion_scan_order (tocFiles tocFiles' : list TocFile)
    (target : optional) (bump : BumpType) (w w' : World) :
  Permutation tocFiles tocFiles' ->
  (forall h h',
      highest (filesToCheck tocFiles target) = Some h ->
      highest (filesToCheck tocFiles' target) = Some h' ->
      tuple_cmp h h' = Eq) /\
  ((forall f, In f tocFiles -> plain f) ->
   fst (getNextVersion tocFiles target bump w)
   = fst (getNextVersion tocFiles' target bump w')).
Proof.
  intros P. pose proof (filesToCheck_permutation target P) as PF. split.
  - intros h h' H H'. exact (proj1 (highest_permutation PF H H')).
  - intros Plain. unfold getNextVersion.
    destruct tocFiles as [|f fs].
    { apply Permutation_nil in P. subst tocFiles'. reflexivity. }
    destruct tocFiles' as [|f' fs'].
    { apply Permutation_sym, Permutation_nil in P. discriminate P. }
    cbn [is_empty_list].
    destruct (filesToCheck (f :: fs) target) as [|g gs] eqn:C.
    { apply Permutation_nil in PF. rewrite PF. reflexivity. }
    destruct (filesToCheck (f' :: fs') target) as [|g' gs'] eqn:C'.
    { apply Permutation_sym, Permutation_nil in PF. discriminate PF. }
    cbn [is_empty_list].
    destruct (@highest_max (g :: gs)) as (r & _ & E & _); [discriminate|].
    destruct (@highest_max (g' :: gs')) as (r' & _ & E' & _);
      [discriminate|].
    destruct (highest_permutation PF E E')
      as (T & r0 & r0' & Hr & Hr' & E0 & E0').
    assert (In0 : forall x, In x (g :: gs) -> In x (f :: fs)).
    { intros x Hx. rewrite <- C in Hx. unfold filesToCheck in Hx.
      destruct target as [[|c a]|]; try exact Hx.
      now apply in_getTocFilesForAddon in Hx as [Hx _]. }
    destruct (Plain r0 (In0 r0 Hr)) as (M & m & p & V & S1 & S2 & S3).
    destruct (Plain r0' (In0 r0' Hr')) as (M' & m' & p' & V' & S1' & S2' & S3').
    rewrite E0, E0', (tuple_cmp_version_string _ _ V V') in T by assumption.
    apply triple_cmp_eq in T. injection T as -> -> ->.
    rewrite E, E'. rewrite E0, E0'. cbn [Parsed.original parse_parts].
    rewrite V, V'. rewrite parse_version_string by assumption.
    reflexivity.
Qed.
(* ================================================================= *)
(** * A bump of all addons to individual versions *)

Lemma for_each_writes (A : Type) (l : list A) (body : A -> M unit) :
  (forall x w, In x l -> writes (snd (body x w)) = writes w) ->
  forall w, writes (snd (for_each l body w)) = writes w.
Proof.
  induction l as [|x l IH]; intros H w; [reflexivity|].
  cbn [for_each]. unfold bind.
  pose proof (H x w (or_introl eq_refl)) as Hx.
  destruct (body x w) as [[[]|e|c] w1]; cbn [snd] in *; try exact Hx.
  rewrite IH; [exact Hx|]. intros y w' Hy. apply H. now right.
Qed.

Lemma getNextVersion_run (tocFiles : list TocFile) (target : optional)
    (bump : BumpType) (w : World) :
  exists w1,
    getNextVersion tocFiles target bump w
    = (next_outcome tocFiles target bump, w1) /\
    unchanged w w1.
Proof.
  destruct (getNextVersion_outcome tocFiles target bump w) as [Ho _].
  pose proof (proj1 (getNextVersion_quiet tocFiles target bump w)) as U.
  destruct (getNextVersion tocFiles target bump w) as [o w1].
  cbn [fst snd] in Ho, U. subst o. exists w1. now split.
Qed.

Lemma auto_update_writes (env : Env) (tocFiles : list TocFile)
    (options : VersionBumpOptions)
    (groups : list (jsstring * list TocFile)) (w : World) :
  dryRun options = false ->
  (forall n fs, In (n, fs) groups ->
     exists c v, next_outcome tocFiles (Some n) (bumpType options)
                 = Returned (Some (c :: v))) ->
  let r :=
    for_each groups (fun '(addonName, files) =>
      addonNextVersion <-
        getNextVersion tocFiles (Some addonName) (bumpType options) ;;
      match addonNextVersion with
      | Some (c :: v) =>
          print log (AddonHeader addonName) ;;
          updateFiles env files (with_newVersion options (c :: v))
      | _ => ret tt
      end) w in
  fst r = Returned tt /\
  writes (snd r)
  = writes w ++
    flat_map (fun g => map (write_of (next_of tocFiles (bumpType options)
                                        (fst g))) (snd g)) groups.
Proof.
  intros D H. cbv zeta. revert w.
  induction groups as [|[n fs] groups IH]; intros w.
  - cbn. now rewrite app_nil_r.
  - destruct (H n fs (or_introl eq_refl)) as (c & v & E).
    destruct (getNextVersion_run tocFiles (Some n) (bumpType options) w)
      as (w0 & G & (_ & W0 & _)).
    set (w0' := {| console := console w0 ++ [(log, AddonHeader n)];
                   files := files w0; writes := writes w0;
                   spawned := spawned w0 |}).
    assert (D' : dryRun (with_newVersion options (c :: v)) = false)
      by exact D.
    destruct (@write_records_run env (with_newVersion options (c :: v))
                fs w0') as (E1 & _ & W1 & _).
    rewrite <- (updateFiles_loop env fs _ D') in E1, W1.
    destruct (updateFiles env fs (with_newVersion options (c :: v)) w0')
      as [o w1] eqn:U.
    subst w0'. cbn [fst snd writes newVersion with_newVersion] in E1, W1.
    subst o.
    rewrite (@for_each_step _ (n, fs) groups _ w w1).
    + destruct (IH (fun n' fs' Hin => H n' fs' (or_intror Hin)) w1)
        as [E2 W2].
      split; [exact E2|]. cbn [flat_map fst snd].
      unfold next_of at 1. rewrite E.
      rewrite W2, W1, W0, <- app_assoc. reflexivity.
    + unfold bind at 1. rewrite G, E. rewrite print_then. exact U.
Qed.

Lemma git_tag_in_sequence (dir : jsstring) (dirty : bool)
    (message tag : jsstring) :
  In (git_tag dir tag) (release_sequence dir dirty message tag).
Proof.
  unfold release_sequence. destruct dirty; cbn [app In]; auto 6.
Qed.

Lemma auto_tag_run (env : Env) (config : Config)
    (tocFiles : list TocFile) (bump : BumpType)
    (groups : list (jsstring * list TocFile)) (w : World) :
  commands_succeed env ->
  (forall n fs, In (n, fs) groups ->
     exists c v, next_outcome tocFiles (Some n) bump
                 = Returned (Some (c :: v))) ->
  let r :=
    for_each groups (fun '(addonName, _) =>
      addonNextVersion <- getNextVersion tocFiles (Some addonName) bump ;;
      match addonNextVersion with
      | Some (c :: v) =>
          print log (TagFor false addonName) ;;
          createGitTag env config (c :: v)
            (Some (addon_bump_message addonName (c :: v)))
            (Some addonName) false
      | _ => ret tt
      end) w in
  fst r = Returned tt /\ writes (snd r) = writes w /\
  exists added,
    spawned (snd r) = spawned w ++ added /\
    forall n fs, In (n, fs) groups -> n <> [] ->
      In (git_tag (addon_dir config n) (next_of tocFiles bump n)) added.
Proof.
  intros Hall H. cbv zeta. revert w.
  induction groups as [|[n fs] groups IH]; intros w.
  - cbn. repeat split. exists []. rewrite app_nil_r.
    split; [reflexivity|intros ? ? []].
  - destruct (H n fs (or_introl eq_refl)) as (c & v & E).
    destruct (getNextVersion_run tocFiles (Some n) bump w)
      as (w0 & G & (_ & W0 & S0)).
    set (w0' := {| console := console w0 ++ [(log, TagFor false n)];
                   files := files w0; writes := writes w0;
                   spawned := spawned w0 |}).
    destruct (createGitTag_release_run env config (c :: v)
                (Some (addon_bump_message n (c :: v))) (Some n) w0')
      as (R & _ & Wg & ex & lines & Sg & _ & P & _).
    assert (Tag : n <> [] ->
                  In (git_tag (addon_dir config n) (c :: v)) ex).
    { intros N. destruct n as [|a n]; [now destruct N|].
      destruct (Hall (spawned w0') (files w0')
                  (git_status (addon_dir config (a :: n))))
        as (status & Est & _).
      pose proof (@createGitTag_success env config (c :: v)
                    (Some (addon_bump_message (a :: n) (c :: v)))
                    (Some (a :: n)) w0' _ status eq_refl Hall Est) as Full.
      cbv zeta in Full.
      pose proof (eq_trans (eq_sym Sg)
                    (f_equal (fun x => spawned (snd x)) Full)) as Q.
      cbn [snd spawned] in Q. apply app_inv_head in Q. rewrite Q.
      apply git_tag_in_sequence. }
    destruct (createGitTag env config (c :: v)
                (Some (addon_bump_message n (c :: v))) (Some n) false w0')
      as [o w1] eqn:C.
    subst w0'. cbn [fst snd writes spawned] in R, Wg, Sg. subst o.
    rewrite (@for_each_step _ (n, fs) groups _ w w1)
      by (unfold bind at 1; rewrite G, E; rewrite print_then; exact C).
    destruct (IH (fun n' fs' Hin => H n' fs' (or_intror Hin)) w1)
      as (E2 & W2 & added & S2 & T2).
    split; [exact E2|]. split; [rewrite W2, Wg; exact W0|].
    exists (ex ++ added). split.
    + rewrite S2, Sg, app_assoc. cbn [spawned]. now rewrite S0.
    + intros n' fs' [[= <- <-]|Hin] N; apply in_or_app.
      * left. unfold next_of. rewrite E. now apply Tag.
      * right. exact (T2 n' fs' Hin N).
Qed.

(** X24. Outside a dry run and with commands that all succeed, a bump
    of all addons to individual versions gives every addon its own next
    version: the files of each group are written with the next version
    of the addon of the group, and the tag made for the addon, in the
    directory of the addon, carries that same version. *)
Theorem bump_all_individual_versions (env : Env) (b : Bumper)
    (options : VersionBumpOptions) (w : World) :
  truthy (targetAddon options) = false ->
  newVersion options = [] ->
  dryRun options = false ->
  commands_succeed env ->
  (forall n fs, In (n, fs) (addonGroups (b_tocFiles b)) ->
     exists c v, next_outcome (b_tocFiles b) (Some n) (bumpType options)
                 = Returned (Some (c :: v))) ->
  let next := next_of (b_tocFiles b) (bumpType options) in
  let r := bumpVersion env b options w in
  fst r = Returned tt /\
  writes (snd r)
  = writes w ++
    flat_map (fun g => map (write_of (next (fst g))) (snd g))
             (addonGroups (b_tocFiles b)) /\
  forall n fs, In (n, fs) (addonGroups (b_tocFiles b)) -> n <> [] ->
    In (git_tag (addon_dir (b_config b) n) (next n)) (spawned (snd r)).
Proof.
  intros T V D Hall H next r.
  assert (Er : r =
    (print log BumpingIndividually ;;
     print log (Rule 60) ;;
     for_each (addonGroups (b_tocFiles b)) (fun '(addonName, files) =>
       addonNextVersion <-
         getNextVersion (b_tocFiles b) (Some addonName)
                        (bumpType options) ;;
       match addonNextVersion with
       | Some (c :: v) =>
           print log (AddonHeader addonName) ;;
           updateFiles env files (with_newVersion options (c :: v))
       | _ => ret tt
       end) ;;
     print log (TagsForAll false) ;;
     for_each (addonGroups (b_tocFiles b)) (fun '(addonName, _) =>
       addonNextVersion <-
         getNextVersion (b_tocFiles b) (Some addonName)
                        (bumpType options) ;;
       match addonNextVersion with
       | Some (c :: v) =>
           print log (TagFor false addonName) ;;
           createGitTag env (b_config b) (c :: v)
             (Some (addon_bump_message addonName (c :: v)))
             (Some addonName) false
       | _ => ret tt
       end)) w).
  { subst r. unfold bumpVersion. rewrite V, D. cbn [is_empty negb].
    destruct (targetAddon options) as [[|c a]|]; try reflexivity.
    discriminate T. }
  clearbody r. rewrite !print_then in Er. unfold bind at 1 in Er.
  match type of Er with
  | context [for_each ?g ?body ?w0] =>
      destruct (@auto_update_writes env (b_tocFiles b) options g w0 D H)
        as [E1 W1];
      destruct (for_each g body w0) as [o w1]
  end.
  cbn [fst snd writes] in E1, W1. subst o.
  rewrite print_then in Er.
  destruct (@auto_tag_run env (b_config b) (b_tocFiles b)
              (bumpType options) (addonGroups (b_tocFiles b))
              {| console := console w1 ++ [(log, TagsForAll false)];
                 files := files w1; writes := writes w1;
                 spawned := spawned w1 |} Hall H)
    as (E2 & W2 & added & S2 & T2).
  cbn [writes spawned] in W2, S2. subst r.
  split; [exact E2|]. split; [exact (eq_trans W2 W1)|].
  intros n fs Hin N. rewrite S2. apply in_or_app. right.
  exact (T2 n fs Hin N).
Qed.
(* ================================================================= *)
(** * Instances *)

Lemma highest_is_first_numeric_maximum_witness :
  tuple_cmp (parse_parts (toc [] [] (js "1.2.3") []))
            (parse_parts (toc [] [] (js "1.10.0") []))
  = triple_cmp (1, 2, 3)%N (1, 10, 0)%N.
Proof.
  refine (proj1 (proj2 highest_is_first_numeric_maximum)
            (toc [] [] (js "1.2.3") []) (toc [] [] (js "1.10.0") [])
            1%N 2%N 3%N 1%N 10%N 0%N eq_refl eq_refl _ _ _ _ _ _);
    vm_compute; discriminate.
Defined.

Lemma updateVersionInContent_rewrites_one_line_witness :
  version_text (js "2.0.0") /\ version_text (js "2.0.1") /\
  ((exists pre v post,
       first_version_line sample_toc pre v post /\
       updateVersionInContent sample_toc (js "2.0.0")
         = pre ++ tocPrefix ++ js "2.0.0" ++ post /\
       updateVersionInContent
         (updateVersionInContent sample_toc (js "2.0.0")) (js "2.0.1")
         = pre ++ tocPrefix ++ js "2.0.1" ++ post)
   \/
   ((forall pre v post, ~ version_line sample_toc pre v post) /\
    forall V, updateVersionInContent sample_toc V = sample_toc)).
Proof.
  assert (H1 : version_text (js "2.0.0"))
    by (split; [discriminate | split; reflexivity]).
  assert (H2 : version_text (js "2.0.1"))
    by (split; [discriminate | split; reflexivity]).
  split; [exact H1|]. split; [exact H2|].
  exact (updateVersionInContent_rewrites_one_line sample_toc H1 H2).
Defined.

Lemma dry_run_changes_nothing_witness :
  let rest := [js "Alpha"; js "--major"; js "--dry"] in
  unchanged sample_world
    (snd (bumpVersion sample_env sample_bumper (sample_options true)
            sample_world)) /\
  unchanged sample_world
    (repeat_run 3 (main sample_env (js "bump" :: rest)) sample_world) /\
  (forall p, files (repeat_run 3 (main sample_env (js "bump" :: rest))
                      sample_world) p
             = files sample_world p).
Proof.
  exact (dry_run_changes_nothing sample_env sample_bumper
           (sample_options true) [js "Alpha"; js "--major"; js "--dry"] 3
           sample_world eq_refl eq_refl).
Defined.

Lemma getNextVersion_bumps_witness :
  has_tuple (parse_parts sample_record) 1 4 2 /\
  fst (getNextVersion [sample_record] (Some (js "Alpha")) Major sample_world)
  = Returned (Some (js "2.0.0")).
Proof.
  refine (@getNextVersion_bumps [sample_record] (Some (js "Alpha")) Major
            sample_world (parse_parts sample_record) 1 4 2 _ _ _ _ _).
  - reflexivity.
  - reflexivity.
  - vm_compute; discriminate.
  - vm_compute; discriminate.
  - vm_compute; discriminate.
Defined.

Lemma getNextVersion_empty_witness :
  fst (getNextVersion [sample_record] (Some (js "Beta")) Patch sample_world)
  = Returned None.
Proof.
  exact (proj1 (@getNextVersion_empty [sample_record] (Some (js "Beta"))
                  Patch sample_world eq_refl)).
Defined.

Lemma release_failure_semantics_witness :
  let dir := js "./addons/Alpha" in
  let message := js "Bump Alpha version to 2.0.0" in
  let call :=
    createGitTag failing_env two_config (js "2.0.0") None
      (Some (js "Alpha")) false two_world in
  let bump := bumpVersion failing_env two_bumper (sample_options false)
                two_world in
  (* the tag of Alpha fails, after its commit *)
  failed failing_env [git_status dir; git_add dir; git_commit dir message]
    (files two_world) (git_tag dir (js "2.0.0")) = true /\
  spawned (snd call)
  = [git_status dir; git_add dir; git_commit dir message;
     git_tag dir (js "2.0.0")] /\
  release_run failing_env two_config (js "2.0.0") None (Some (js "Alpha"))
    two_world call /\
  (* the sequence of Beta is run all the same *)
  all_attempted two_config [sample_record; beta_record] two_world bump /\
  In (git_tag (js "./addons/Alpha") (js "2.0.0")) (spawned (snd bump)) /\
  ~ In (git_push (js "./addons/Alpha") (js "2.0.0")) (spawned (snd bump)) /\
  In (git_push (js "./addons/Beta") (js "1.0.0")) (spawned (snd bump)).
Proof.
  cbv zeta.
  destruct (release_failure_semantics failing_env two_config (js "2.0.0")
              None (Some (js "Alpha")) two_bumper (sample_options false)
              two_world eq_refl eq_refl) as (Hrun & Hall & _).
  split; [reflexivity|]. split; [vm_compute; reflexivity|].
  split; [exact Hrun|]. split.
  - apply Hall. right. intros v (n & fs & Hin & E).
    destruct Hin as [[= <- <-]|[[= <- <-]|[]]];
      vm_compute in E; discriminate E.
  - vm_compute. split; [tauto|]. split; [|tauto].
    intros H.
    repeat (destruct H as [H|H]; [discriminate H|]). exact H.
Defined.

Lemma loaded_version_is_rest_of_line_witness :
  files sample_world (path sample_record) = Some (content sample_record) /\
  line_text (version sample_record) /\
  ~ In CR (version sample_record) /\ ~ In LF (version sample_record).
Proof.
  destruct (@loaded_version_is_rest_of_line sample_env (Conforming sample_config)
              false sample_world [sample_record] sample_record
              eq_refl (or_introl eq_refl)) as (H1 & _ & H2).
  exact (conj H1 H2).
Defined.
(* ================================================================= *)
(** * Instances of the further properties *)

Lemma rewritten_content_matches_new_version_witness :
  option_map capture1
    (exec tocPattern (updateVersionInContent sample_toc (js "2.0.0")))
  = option_map (fun _ => js "2.0.0") (exec tocPattern sample_toc).
Proof.
  apply rewritten_content_matches_new_version.
  split; [discriminate | split; reflexivity].
Defined.

Lemma updateVersionInContent_last_wins_witness :
  updateVersionInContent (updateVersionInContent sample_toc (js "2.0.0"))
    (js "2.0.1")
  = updateVersionInContent sample_toc (js "2.0.1").
Proof.
  refine (proj1 (@updateVersionInContent_last_wins sample_toc
                   (js "2.0.0") (js "2.0.1") _ _));
    (split; [discriminate | split; reflexivity]).
Defined.

Lemma updateVersionInContent_template_witness :
  updateVersionInContent sample_toc (js "$1") = sample_toc.
Proof.
  destruct (exec_toc_cases sample_toc) as [(pre & v & post & F & _)|[_ E]].
  - exact (proj1 (updateVersionInContent_template F)).
  - discriminate E.
Defined.

Lemma loadAllTocFiles_outcome_witness :
  fst (loadAllTocFiles sample_env (Conforming sample_config) true
         sample_world)
  = fst (loadAllTocFiles sample_env (Conforming sample_config) false
           sample_world) /\
  fst (loadAllTocFiles sample_env
         (NonConforming (js "undefined is not iterable")) true sample_world)
  = Exited 1.
Proof.
  split.
  - exact (proj1 (@loadAllTocFiles_outcome sample_env
                    (Conforming sample_config) true false sample_world
                    sample_world eq_refl)).
  - destruct (@loadAllTocFiles_outcome sample_env
                (NonConforming (js "undefined is not iterable")) true false
                sample_world sample_world eq_refl)
      as (_ & _ & [(records & config & entries & _ & E & _)|[E _]]).
    + discriminate E.
    + exact E.
Defined.

Lemma loaded_records_are_whitelisted_witness :
  In (addonName sample_record) (whitelistedAddons sample_config).
Proof.
  destruct (@loaded_records_are_whitelisted sample_env
              (Conforming sample_config) false sample_world
              [sample_record] sample_record eq_refl (or_introl eq_refl))
    as (config & E & H & _).
  injection E as <-. exact H.
Defined.

Lemma main_unreadable_addons_directory_witness :
  fst (main offline_env [] sample_world) = Exited 1 /\
  fst (main partial_env [js "list"] sample_world) = Exited 1.
Proof.
  split.
  - exact (proj1 (@main_unreadable_addons_directory offline_env []
                    sample_world (js "No such file or directory") eq_refl)).
  - exact (proj1 (@main_unreadable_addons_directory partial_env
                    [js "list"] sample_world _ eq_refl)).
Defined.

Lemma main_reports_change_nothing_witness :
  exit_status (fst (main sample_env [js "list"] sample_world)) = 0%Z /\
  exit_status (fst (main partial_env [js "list"] sample_world)) = 1%Z /\
  unchanged sample_world (snd (main partial_env [js "list"] sample_world)).
Proof.
  assert (H : hd_error [js "list"] <> Some (js "bump")) by discriminate.
  destruct (@main_reports_change_nothing sample_env [js "list"]
              sample_world H) as [_ A].
  destruct (@main_reports_change_nothing partial_env [js "list"]
              sample_world H) as [U B].
  split; [exact (proj2 A)|]. split; [exact (proj2 B) | exact U].
Defined.

Lemma empty_whitelist_changes_nothing_witness :
  unchanged sample_world
    (snd (main unconfigured_env [js "bump"; js "all"] sample_world)).
Proof.
  refine (proj2 (@empty_whitelist_changes_nothing unconfigured_env
                   [js "bump"; js "all"] sample_world _)).
  intros config [= <-]. reflexivity.
Defined.

Lemma updateFiles_writes_each_record_witness :
  fst (updateFiles sample_env [sample_record] (release_options None)
         sample_world) = Returned tt.
Proof.
  exact (proj1 (@updateFiles_writes_each_record sample_env [sample_record]
                  (release_options None) sample_world eq_refl)).
Defined.

Lemma reload_after_bump_witness :
  fst (loadAllTocFiles sample_env (Conforming sample_config) false
         (snd (updateFiles sample_env [sample_record]
                 (release_options None) sample_world)))
  = Returned (map (rewritten (js "2.0.0")) [sample_record]).
Proof.
  refine (@reload_after_bump sample_env (Conforming sample_config)
            false false
            (release_options None) sample_world [sample_record]
            eq_refl eq_refl _ _).
  - split; [discriminate | split; reflexivity].
  - intros done p. reflexivity.
Defined.

Lemma parseBumpArgs_options_witness :
  dryRun (release_options (Some (js "Alpha")))
  = includes [js "Alpha"; js "2.0.0"] (js "--dry").
Proof.
  exact (proj1 (@parseBumpArgs_options sample_bumper
                  [js "Alpha"; js "2.0.0"] sample_world
                  (release_options (Some (js "Alpha"))) eq_refl)).
Defined.

Lemma bump_flag_first_fails_witness :
  fst (run sample_env sample_bumper [js "bump"; js "--major"] sample_world)
  = Exited 1.
Proof.
  exact (f_equal fst
           (@bump_flag_first_fails sample_env sample_bumper (js "--major")
              [] sample_world eq_refl)).
Defined.

Lemma bump_unknown_addon_witness :
  fst (run sample_env sample_bumper [js "bump"; js "Beta"; js "2.0.0"]
         sample_world) = Returned tt /\
  fst (run sample_env sample_bumper [js "bump"; js "Beta"] sample_world)
  = Exited 1.
Proof.
  assert (H : b_tocFiles sample_bumper <> []) by discriminate.
  assert (N : js "Beta" <> []) by discriminate.
  assert (A : js "Beta" <> js "all") by discriminate.
  destruct (@bump_unknown_addon sample_env sample_bumper (js "Beta")
              (js "2.0.0") sample_world H eq_refl N A eq_refl eq_refl
              eq_refl) as [E1 E2].
  split; [exact (f_equal fst E1) | exact (f_equal fst E2)].
Defined.

Lemma bump_rejected_version_witness :
  fst (run sample_env short_bumper [js "bump"] sample_world) = Exited 1.
Proof.
  exact (f_equal fst
           (@bump_rejected_version sample_env short_bumper sample_world
              _ eq_refl eq_refl)).
Defined.

Lemma createGitTag_success_witness :
  fst (createGitTag sample_env sample_config (js "2.0.0") None
         (Some (js "Alpha")) false sample_world) = Returned tt.
Proof.
  refine (f_equal fst
            (@createGitTag_success sample_env sample_config (js "2.0.0")
               None (Some (js "Alpha")) sample_world _ _ eq_refl _
               eq_refl)).
  intros history disk c. eexists. split; reflexivity.
Defined.

Lemma bump_addon_touches_only_addon_witness :
  fst (bumpVersion sample_env sample_bumper
         (release_options (Some (js "Alpha"))) sample_world) = Returned tt.
Proof.
  refine (proj1 (@bump_addon_touches_only_addon sample_env sample_bumper
                   (release_options (Some (js "Alpha"))) (js "Alpha")
                   sample_world eq_refl _ eq_refl)).
  discriminate.
Defined.

Lemma bump_all_writes_every_record_witness :
  fst (bumpVersion sample_env sample_bumper (release_options None)
         sample_world) = Returned tt.
Proof.
  refine (proj1 (@bump_all_writes_every_record sample_env sample_bumper
                   (release_options None) sample_world eq_refl _ eq_refl)).
  discriminate.
Defined.

Lemma getNextVersion_scan_order_witness :
  fst (getNextVersion
         [toc [] [] (js "1.2.3") []; toc [] [] (js "1.10.0") []]
         None Patch sample_world)
  = fst (getNextVersion
           [toc [] [] (js "1.10.0") []; toc [] [] (js "1.2.3") []]
           None Patch sample_world).
Proof.
  refine (proj2 (@getNextVersion_scan_order
                   [toc [] [] (js "1.2.3") []; toc [] [] (js "1.10.0") []]
                   [toc [] [] (js "1.10.0") []; toc [] [] (js "1.2.3") []]
                   None Patch sample_world sample_world
                   (perm_swap _ _ [])) _).
  intros f [<-|[<-|[]]].
  - exists 1%N, 2%N, 3%N. repeat split; vm_compute; discriminate.
  - exists 1%N, 10%N, 0%N. repeat split; vm_compute; discriminate.
Defined.

Lemma bump_all_individual_versions_witness :
  fst (bumpVersion sample_env sample_bumper (sample_options false)
         sample_world) = Returned tt.
Proof.
  refine (proj1 (@bump_all_individual_versions sample_env sample_bumper
                   (sample_options false) sample_world eq_refl eq_refl
                   eq_refl _ _)).
  - intros history disk c. eexists. split; reflexivity.
  - intros n fs [E|[]]. injection E as <- <-.
    exists 50%N, (js ".0.0"). reflexivity.
Defined.
